(** * goviz: the dependency graph and its analysis passes

    A shallow embedding of the packages [graph] and [parser] of goviz
    (BuildDependencyGraph, BuildEnhancedDependencyGraph, ParseGoSum,
    GetTransitiveDependencies, DetectVersionConflicts, AnalyzeLicenses,
    CheckSecurity, GetStatistics, GetDependencyCount) and the properties
    of the graph they build.

    Conventions of the embedding.
    - A Go [string] is a [string] (a sequence of bytes).
    - A Go [int] is a [Z] in the 64-bit two's-complement range; every
      arithmetic operation of the source is followed by [int_wrap].
    - A Go [map[string]V] is a [gmap string V].  Go leaves the order of a
      [range] over a map unspecified: the development is parametric in
      that order (class [MapRange]).
    - A [*Node] is an address in the store of [Node] objects carried by the
      graph; the [*EnhancedNode] of a name is owned by the map entry
      of that name, so the map holds the object itself and a write through
      the pointer is an [alter] of the entry. *)

From Stdlib Require Import ZArith Lia.
From stdpp Require Import base option list gmap strings sorting fin_maps.

Local Open Scope string_scope.
Local Open Scope list_scope.
Local Open Scope Z_scope.

(** ** Go primitives *)

(** [strings.HasPrefix]. *)
Fixpoint HasPrefix (s p : string) {struct p} : bool :=
  match p, s with
  | EmptyString, _ => true
  | String b p', String a s' => if Ascii.eqb a b then HasPrefix s' p' else false
  | String _ _, EmptyString => false
  end.

(** [strings.Contains]: [substr] occurs at some offset of [s]. *)
Fixpoint Contains (s substr : string) : bool :=
  HasPrefix s substr ||
  match s with
  | EmptyString => false
  | String _ s' => Contains s' substr
  end.

(** [strings.HasSuffix]. *)
Definition HasSuffix (s suffix : string) : bool :=
  HasPrefix (String.rev s) (String.rev suffix).

(** The string order of Go ([<] on strings, used by [sort.Strings]) is the
    lexicographic order on bytes. *)
Definition string_le (s t : string) : Prop := String.leb s t = true.

Global Instance string_le_dec : RelDecision string_le.
Proof. intros s t. unfold string_le. apply _. Defined.

(** [sort.Strings]. *)
Definition sort_Strings (l : list string) : list string :=
  merge_sort string_le l.

(** 64-bit signed wrap-around of Go's [int]. *)
Definition int_wrap (z : Z) : Z := (z + 2 ^ 63) `mod` 2 ^ 64 - 2 ^ 63.

Definition int_max : Z := 2 ^ 63 - 1.

(** [len] of a slice and of a map. *)
Definition len {A} (l : list A) : Z := Z.of_nat (length l).
Definition len_map {V} (m : gmap string V) : Z := Z.of_nat (size m).

(** The order in which [range] visits a map. *)
Class MapRange := {
  range : ∀ {V : Type}, gmap string V → list (string * V);
  range_perm : ∀ (V : Type) (m : gmap string V), range m ≡ₚ map_to_list m
}.

(** One admissible order: that of [map_to_list]. *)
Definition canonical_range : MapRange :=
  {| range := λ V m, map_to_list m;
     range_perm := λ V m, reflexivity (map_to_list m) |}.

(** ** The manifest ([modfile.File], the fields the graph reads) *)

Module Require.
Record t := mk {
    Path : string;       (* require.Mod.Path *)
    Version : string;    (* require.Mod.Version *)
    Indirect : bool
  }.
End Require.

Module File.
  (** [Module] is the path of the module directive, which the builder
      dereferences without a check; [Go] is [None] for a nil [modFile.Go]. *)
Record t := mk {
    Module : string;     (* modFile.Module.Mod.Path *)
    Go : option string;  (* modFile.Go.Version *)
    Require : list Require.t
  }.
End File.

(** ** The data model of package graph *)

Module Node.
Record t := mk {
    Name : string;
    Version : string;
    Direct : bool;
    Children : list nat   (* []*Node *)
  }.
Definition add_child (c : nat) (n : t) : t :=
    mk (Name n) (Version n) (Direct n) (Children n ++ [c]).
End Node.

Global Instance Node_inhabited : Inhabited Node.t :=
  populate (Node.mk "" "" false []).

Module DependencyGraph.
  (** [store] holds the [Node] objects; [Root] and the values of [AllNodes]
      are addresses in it. *)
Record t := mk {
    store : list Node.t;
    Root : nat;
    AllNodes : gmap string nat;
    ModuleName : string;
    ModuleGoVersion : string
  }.
End DependencyGraph.

Module GoSumEntry.
Record t := mk {
    ModulePath : string;
    Version : string;
    Hash : string
  }.
End GoSumEntry.

Module VersionConflict.
Record t := mk {
    ModulePath : string;
    CurrentVersion : string;
    ConflictVersion : string;
    Reason : string
  }.
End VersionConflict.

Module SecurityIssue.
Record t := mk {
    ID : string;
    Severity : string;
    Description : string;
    FixedIn : string
  }.
End SecurityIssue.

Module EnhancedNode.
  (** [node] is the embedded [*Node]; [Transitive] holds addresses of
      enhanced nodes and [LastUpdate] a time stamp, neither is ever written
      after the allocation. *)
Record t := mk {
    node : nat;
    Hash : string;
    Transitive : list nat;
    Conflicts : list VersionConflict.t;
    SecurityIssues : list SecurityIssue.t;
    License : string;
    LastUpdate : Z;
    IsOutdated : bool;
    UpdateAvailable : string
  }.
Definition add_Conflict (c : VersionConflict.t) (n : t) : t :=
    mk (node n) (Hash n) (Transitive n) (Conflicts n ++ [c]) (SecurityIssues n)
       (License n) (LastUpdate n) (IsOutdated n) (UpdateAvailable n).
Definition add_SecurityIssue (i : SecurityIssue.t) (n : t) : t :=
    mk (node n) (Hash n) (Transitive n) (Conflicts n) (SecurityIssues n ++ [i])
       (License n) (LastUpdate n) (IsOutdated n) (UpdateAvailable n).
Definition set_License (l : string) (n : t) : t :=
    mk (node n) (Hash n) (Transitive n) (Conflicts n) (SecurityIssues n)
       l (LastUpdate n) (IsOutdated n) (UpdateAvailable n).
  (** [&EnhancedNode{Node: p, Hash: h, Transitive: ..., Conflicts: ...,
      SecurityIssues: ...}] with empty slices and zero values elsewhere. *)
Definition new (p : nat) (h : string) : t :=
    mk p h [] [] [] "" 0 false "".
End EnhancedNode.

Module EnhancedDependencyGraph.
Record t := mk {
    graph : DependencyGraph.t;     (* the embedded *DependencyGraph *)
    EnhancedNodes : gmap string EnhancedNode.t;
    GoSumEntries : gmap string GoSumEntry.t;
    Conflicts : list VersionConflict.t;
    SecurityIssues : list SecurityIssue.t;
    TotalSize : Z;
    BuildTime : Z;
    LicensesSummary : gmap string Z
  }.
End EnhancedDependencyGraph.

(** Reading through a [*Node]. *)
Definition deref (h : list Node.t) (p : nat) : Node.t := h !!! p.

(** Promoted fields of the embedded graph. *)
Definition Root (g : EnhancedDependencyGraph.t) : nat :=
  DependencyGraph.Root (EnhancedDependencyGraph.graph g).
Definition AllNodes (g : EnhancedDependencyGraph.t) : gmap string nat :=
  DependencyGraph.AllNodes (EnhancedDependencyGraph.graph g).
Definition store (g : EnhancedDependencyGraph.t) : list Node.t :=
  DependencyGraph.store (EnhancedDependencyGraph.graph g).

(** ** BuildDependencyGraph *)

(** [&Node{...}]: allocation at a fresh address. *)
Definition alloc (h : list Node.t) (n : Node.t) : list Node.t * nat :=
  (h ++ [n], length h).

(** One iteration of [for _, require := range modFile.Require]. *)
Definition add_require (root : nat)
    (st : list Node.t * gmap string nat) (r : Require.t)
    : list Node.t * gmap string nat :=
  let '(h, all) := st in
  let '(h1, p) :=
    alloc h (Node.mk (Require.Path r) (Require.Version r)
                     (negb (Require.Indirect r)) []) in
  let all1 := <[Require.Path r := p]> all in
  if negb (Require.Indirect r)
  then (alter (Node.add_child p) root h1, all1)
  else (h1, all1).

Definition BuildDependencyGraph (modFile : File.t) : DependencyGraph.t :=
  let '(h0, root) :=
    alloc [] (Node.mk (File.Module modFile) "main" true []) in
  let all0 : gmap string nat := <[File.Module modFile := root]> ∅ in
  let '(h, all) := foldl (add_require root) (h0, all0) (File.Require modFile) in
  DependencyGraph.mk h root all (File.Module modFile)
    (default "" (File.Go modFile)).

(** [GetDependencyCount]: one iteration, then the loop over [AllNodes]. *)
Definition count_step (h : list Node.t) (rootName : string)
    (acc : Z * Z) (kv : string * nat) : Z * Z :=
  let '(direct, indirect) := acc in
  let n := deref h kv.2 in
  if decide (Node.Name n ≠ rootName)
  then if Node.Direct n
       then (int_wrap (direct + 1), indirect)
       else (direct, int_wrap (indirect + 1))
  else acc.

Definition GetDependencyCount `{MapRange} (g : DependencyGraph.t) : Z * Z :=
  let h := DependencyGraph.store g in
  foldl (count_step h (Node.Name (deref h (DependencyGraph.Root g))))
        (0, 0) (range (DependencyGraph.AllNodes g)).

(** ** Package parser: go.sum *)

(** [parser.GetDirectDependencies]. *)
Definition GetDirectDependencies (modFile : File.t) : list string :=
  Require.Path <$> filter (λ r, Require.Indirect r = false) (File.Require modFile).

(** What [os.Open] and the scanner find at the path of go.sum. *)
Inductive FileState :=
  | Absent                                   (* no such file *)
  | Unopenable                               (* present, [os.Open] fails *)
  | Opened (lines : list string) (scanErr : bool).
      (* the lines the scanner yields, and whether [scanner.Err()] is set *)

Inductive error :=
  | ErrScan                                   (* the error of the scanner *)
  | Errorf (msg : string) (wrapped : error).  (* fmt.Errorf("msg: %w", e) *)

Inductive result (A : Type) :=
  | Ok (a : A)
  | Err (e : error).
Arguments Ok {A} a.
Arguments Err {A} e.

(** [os.Open]: the lines behind the handle, or [None] for an error. *)
Definition os_Open (fs : FileState) : option (list string * bool) :=
  match fs with
  | Absent | Unopenable => None
  | Opened lines scanErr => Some (lines, scanErr)
  end.

Section ParseGoSum.
  (** [strings.TrimSpace] and [strings.Fields] of the Go library. *)
Variable TrimSpace : string → string.
Variable Fields : string → list string.

  (** One iteration of [for scanner.Scan()]. *)
Definition scan_line (entries : gmap string GoSumEntry.t) (text : string)
      : gmap string GoSumEntry.t :=
    let line := TrimSpace text in
    if decide (line = "") then entries
    else match Fields line with
         | modulePath :: version :: hash :: _ =>
             if negb (HasSuffix version "/go.mod")
             then <[modulePath +:+ "@" +:+ version :=
                      GoSumEntry.mk modulePath version hash]> entries
             else entries
         | _ => entries   (* len(parts) < 3 *)
         end.

Definition ParseGoSum (fs : FileState) : result (gmap string GoSumEntry.t) :=
    match os_Open fs with
    | None => Ok ∅
    | Some (lines, scanErr) =>
        let entries := foldl scan_line ∅ lines in
        if scanErr
        then Err (Errorf "error reading go.sum" ErrScan)
        else Ok entries
    end.
End ParseGoSum.

(** [map[string]bool] read with the zero value for a missing key. *)
Definition get_bool (m : gmap string bool) (k : string) : bool :=
  default false (m !! k).

(** One iteration of the loop of [GetTransitiveDependencies]. *)
Definition transitive_step (directDepMap : gmap string bool)
    (st : list GoSumEntry.t * gmap string bool) (kv : string * GoSumEntry.t)
    : list GoSumEntry.t * gmap string bool :=
  let '(transitive, seenModules) := st in
  let entry := kv.2 in
  if negb (get_bool directDepMap (GoSumEntry.ModulePath entry)) &&
     negb (get_bool seenModules (GoSumEntry.ModulePath entry))
  then (transitive ++ [entry], <[GoSumEntry.ModulePath entry := true]> seenModules)
  else st.

Definition GetTransitiveDependencies `{MapRange}
    (goSumEntries : gmap string GoSumEntry.t) (directDeps : list string)
    : list GoSumEntry.t :=
  let directDepMap : gmap string bool :=
    foldl (λ m dep, <[dep := true]> m) ∅ directDeps in
  (foldl (transitive_step directDepMap) ([], ∅) (range goSumEntries)).1.

(** ** BuildEnhancedDependencyGraph *)

(** One iteration of [for name, node := range basicGraph.AllNodes]. *)
Definition wrap_step (h : list Node.t) (goSumEntries : gmap string GoSumEntry.t)
    (ens : gmap string EnhancedNode.t) (kv : string * nat)
    : gmap string EnhancedNode.t :=
  let '(name, p) := kv in
  let key := name +:+ "@" +:+ Node.Version (deref h p) in
  let hash := match goSumEntries !! key with
              | Some entry => GoSumEntry.Hash entry
              | None => ""
              end in
  <[name := EnhancedNode.new p hash]> ens.

(** One iteration of [for _, transDep := range transitiveDeps]. *)
Definition synth_step
    (st : list Node.t * gmap string nat * gmap string EnhancedNode.t)
    (transDep : GoSumEntry.t)
    : list Node.t * gmap string nat * gmap string EnhancedNode.t :=
  let '(h, all, ens) := st in
  match ens !! GoSumEntry.ModulePath transDep with
  | Some _ => st
  | None =>
      let '(h1, p) :=
        alloc h (Node.mk (GoSumEntry.ModulePath transDep)
                         (GoSumEntry.Version transDep) false []) in
      (h1,
       <[GoSumEntry.ModulePath transDep := p]> all,
       <[GoSumEntry.ModulePath transDep :=
           EnhancedNode.new p (GoSumEntry.Hash transDep)]> ens)
  end.

(** The body of [BuildEnhancedDependencyGraph] past the error check. *)
Definition enrich `{MapRange} (modFile : File.t)
    (goSumEntries : gmap string GoSumEntry.t) : EnhancedDependencyGraph.t :=
  let basicGraph := BuildDependencyGraph modFile in
  let h0 := DependencyGraph.store basicGraph in
  let ens0 := foldl (wrap_step h0 goSumEntries) ∅
                    (range (DependencyGraph.AllNodes basicGraph)) in
  let directDeps := GetDirectDependencies modFile in
  let transitiveDeps := GetTransitiveDependencies goSumEntries directDeps in
  let '(h, all, ens) :=
    foldl synth_step (h0, DependencyGraph.AllNodes basicGraph, ens0)
          transitiveDeps in
  EnhancedDependencyGraph.mk
    (DependencyGraph.mk h (DependencyGraph.Root basicGraph) all
       (DependencyGraph.ModuleName basicGraph)
       (DependencyGraph.ModuleGoVersion basicGraph))
    ens goSumEntries [] [] 0 0 ∅.

Definition BuildEnhancedDependencyGraph `{MapRange}
    (TrimSpace : string → string) (Fields : string → list string)
    (modFile : File.t) (goSum : FileState) : result EnhancedDependencyGraph.t :=
  match ParseGoSum TrimSpace Fields goSum with
  | Err err => Err (Errorf "failed to parse go.sum" err)
  | Ok goSumEntries => Ok (enrich modFile goSumEntries)
  end.

(** ** DetectVersionConflicts *)

(** One iteration of [for _, entry := range g.GoSumEntries]. *)
Definition group_step (versionMap : gmap string (list string))
    (kv : string * GoSumEntry.t) : gmap string (list string) :=
  let entry := kv.2 in
  <[GoSumEntry.ModulePath entry :=
      default [] (versionMap !! GoSumEntry.ModulePath entry)
        ++ [GoSumEntry.Version entry]]> versionMap.

(** One iteration of [for i := 0; i < len(versions)-1; i++].  The
    append to [node.Conflicts] happens when the name has an enhanced node,
    which is what [alter] does. *)
Definition conflict_step (modulePath : string) (versions : list string)
    (st : list VersionConflict.t * gmap string EnhancedNode.t) (i : nat)
    : list VersionConflict.t * gmap string EnhancedNode.t :=
  let '(conflicts, ens) := st in
  let conflict :=
    VersionConflict.mk modulePath
      (versions !!! (length versions - 1)%nat)
      (versions !!! i)
      "Multiple versions in go.sum" in
  (conflicts ++ [conflict],
   alter (EnhancedNode.add_Conflict conflict) modulePath ens).

(** One iteration of [for modulePath, versions := range versionMap]. *)
Definition module_step
    (st : list VersionConflict.t * gmap string EnhancedNode.t)
    (kv : string * list string)
    : list VersionConflict.t * gmap string EnhancedNode.t :=
  let '(modulePath, versions) := kv in
  if decide (1 < len versions)
  then let sorted := sort_Strings versions in
       foldl (conflict_step modulePath sorted) st
             (seq 0 (length sorted - 1))
  else st.

Definition DetectVersionConflicts `{MapRange} (g : EnhancedDependencyGraph.t)
    : EnhancedDependencyGraph.t :=
  let versionMap :=
    foldl group_step ∅ (range (EnhancedDependencyGraph.GoSumEntries g)) in
  let '(conflicts, ens) :=
    foldl module_step
      (EnhancedDependencyGraph.Conflicts g,
       EnhancedDependencyGraph.EnhancedNodes g)
      (range versionMap) in
  EnhancedDependencyGraph.mk
    (EnhancedDependencyGraph.graph g) ens
    (EnhancedDependencyGraph.GoSumEntries g) conflicts
    (EnhancedDependencyGraph.SecurityIssues g)
    (EnhancedDependencyGraph.TotalSize g)
    (EnhancedDependencyGraph.BuildTime g)
    (EnhancedDependencyGraph.LicensesSummary g).

(** ** AnalyzeLicenses *)

Definition knownLicenses : gmap string string :=
  list_to_map [
    ("github.com/spf13/cobra", "Apache-2.0");
    ("github.com/spf13/pflag", "BSD-3-Clause");
    ("github.com/awalterschulze/gographviz", "Apache-2.0");
    ("github.com/inconshreveable/mousetrap", "Apache-2.0");
    ("golang.org/x/mod", "BSD-3-Clause");
    ("gopkg.in/yaml.v3", "Apache-2.0");
    ("github.com/google/licensecheck", "BSD-3-Clause");
    ("github.com/fatih/color", "MIT")
  ].

(** [m[k]++] on a [map[string]int]. *)
Definition incr (m : gmap string Z) (k : string) : gmap string Z :=
  <[k := int_wrap (default 0 (m !! k) + 1)]> m.

(** One iteration of [for name, node := range g.EnhancedNodes]. *)
Definition license_step
    (st : gmap string EnhancedNode.t * gmap string Z)
    (kv : string * EnhancedNode.t)
    : gmap string EnhancedNode.t * gmap string Z :=
  let '(ens, summary) := st in
  let name := kv.1 in
  match knownLicenses !! name with
  | Some license =>
      (alter (EnhancedNode.set_License license) name ens, incr summary license)
  | None =>
      if Contains name "golang.org/x/"
      then (alter (EnhancedNode.set_License "BSD-3-Clause") name ens,
            incr summary "BSD-3-Clause")
      else if Contains name "github.com/mattn/"
      then (alter (EnhancedNode.set_License "MIT") name ens,
            incr summary "MIT")
      else (alter (EnhancedNode.set_License "Unknown") name ens,
            incr summary "Unknown")
  end.

Definition AnalyzeLicenses `{MapRange} (g : EnhancedDependencyGraph.t)
    : EnhancedDependencyGraph.t :=
  let '(ens, summary) :=
    foldl license_step
      (EnhancedDependencyGraph.EnhancedNodes g,
       EnhancedDependencyGraph.LicensesSummary g)
      (range (EnhancedDependencyGraph.EnhancedNodes g)) in
  EnhancedDependencyGraph.mk
    (EnhancedDependencyGraph.graph g) ens
    (EnhancedDependencyGraph.GoSumEntries g)
    (EnhancedDependencyGraph.Conflicts g)
    (EnhancedDependencyGraph.SecurityIssues g)
    (EnhancedDependencyGraph.TotalSize g)
    (EnhancedDependencyGraph.BuildTime g)
    summary.

(** ** CheckSecurity *)

Definition vulnerablePatterns : gmap string SecurityIssue.t :=
  list_to_map [
    ("github.com/gin-gonic/gin",
     SecurityIssue.mk "GHSA-example" "MEDIUM"
       "Check for latest version with security fixes" "v1.9.1+");
    ("github.com/gorilla/websocket",
     SecurityIssue.mk "CVE-2023-example" "HIGH"
       "WebSocket vulnerability in older versions" "v1.5.0+")
  ].

Definition issue_DEV_VERSION : SecurityIssue.t :=
  SecurityIssue.mk "DEV-VERSION" "LOW"
    "Development version detected in dependencies"
    "Use stable release version".

Definition issue_OLD_VERSION : SecurityIssue.t :=
  SecurityIssue.mk "OLD-VERSION" "MEDIUM"
    "Very old package version may have security vulnerabilities"
    "Update to latest version".

Definition issue_INSECURE_CRYPTO : SecurityIssue.t :=
  SecurityIssue.mk "INSECURE-CRYPTO" "HIGH"
    "Package uses insecure cryptographic functions"
    "Use secure alternatives (SHA-256, bcrypt, etc.)".

Definition issue_NO_VERSION : SecurityIssue.t :=
  SecurityIssue.mk "NO-VERSION" "LOW"
    "Package without proper versioning detected"
    "Use properly versioned packages".

Definition insecurePatterns : list string :=
  ["crypto/md5"; "crypto/sha1"; "net/http/httputil"].

(** [node.SecurityIssues = append(node.SecurityIssues, issue)] followed by
    [g.SecurityIssues = append(g.SecurityIssues, issue)], for the node
    of [name]. *)
Definition report (name : string) (issue : SecurityIssue.t)
    (st : gmap string EnhancedNode.t * list SecurityIssue.t)
    : gmap string EnhancedNode.t * list SecurityIssue.t :=
  (alter (EnhancedNode.add_SecurityIssue issue) name st.1, st.2 ++ [issue]).

(** One iteration of [for name, node := range g.EnhancedNodes]. *)
Definition security_step (h : list Node.t) (rootName : string)
    (st : gmap string EnhancedNode.t * list SecurityIssue.t)
    (kv : string * EnhancedNode.t)
    : gmap string EnhancedNode.t * list SecurityIssue.t :=
  let '(name, node) := kv in
  if decide (name = rootName) then st
  else
    let version := Node.Version (deref h (EnhancedNode.node node)) in
    let st :=
      match vulnerablePatterns !! name with
      | Some issue =>
          if Contains version "v1.8" || Contains version "v1.7"
             || Contains version "v1.4"
          then report name issue st else st
      | None => st
      end in
    let st :=
      if Contains version "dev" || Contains version "alpha"
         || Contains version "beta" || Contains version "rc"
         || Contains version "snapshot"
      then report name issue_DEV_VERSION st else st in
    let st :=
      if Contains version "20161208" || Contains version "20170"
         || Contains version "20180"
      then report name issue_OLD_VERSION st else st in
    let st :=
      foldl (λ st pattern,
               if Contains name pattern
               then report name issue_INSECURE_CRYPTO st else st)
            st insecurePatterns in
    if decide (version = "" ∨ version = "v0.0.0")
    then report name issue_NO_VERSION st else st.

Definition CheckSecurity `{MapRange} (g : EnhancedDependencyGraph.t)
    : EnhancedDependencyGraph.t :=
  let '(ens, issues) :=
    foldl (security_step (store g) (Node.Name (deref (store g) (Root g))))
      (EnhancedDependencyGraph.EnhancedNodes g,
       EnhancedDependencyGraph.SecurityIssues g)
      (range (EnhancedDependencyGraph.EnhancedNodes g)) in
  EnhancedDependencyGraph.mk
    (EnhancedDependencyGraph.graph g) ens
    (EnhancedDependencyGraph.GoSumEntries g)
    (EnhancedDependencyGraph.Conflicts g)
    issues
    (EnhancedDependencyGraph.TotalSize g)
    (EnhancedDependencyGraph.BuildTime g)
    (EnhancedDependencyGraph.LicensesSummary g).

(** ** GetStatistics *)

(** The values stored in the [map[string]any] of the statistics. *)
Inductive any :=
  | any_int (z : Z)
  | any_map (m : gmap string Z).

Definition GetStatistics `{MapRange} (g : EnhancedDependencyGraph.t)
    : gmap string any :=
  let '(direct, indirect) :=
    GetDependencyCount (EnhancedDependencyGraph.graph g) in
  let transitive :=
    int_wrap (int_wrap (len_map (EnhancedDependencyGraph.GoSumEntries g)
                        - direct) - indirect) in
  list_to_map [
    ("total_dependencies", any_int (int_wrap (len_map (AllNodes g) - 1)));
    ("direct_dependencies", any_int direct);
    ("indirect_dependencies", any_int indirect);
    ("transitive_dependencies", any_int transitive);
    ("version_conflicts", any_int (len (EnhancedDependencyGraph.Conflicts g)));
    ("security_issues", any_int (len (EnhancedDependencyGraph.SecurityIssues g)));
    ("unique_licenses",
     any_int (len_map (EnhancedDependencyGraph.LicensesSummary g)));
    ("licenses_breakdown",
     any_map (EnhancedDependencyGraph.LicensesSummary g))
  ].

(** ** Trial runs on the scenario of section 8 of the specification *)

Definition scenario_manifest : File.t :=
  File.mk "example.com/app" (Some "1.21")
    [Require.mk "moduleA" "v1.2.0" false; Require.mk "moduleB" "v0.3.0" true].

Definition scenario_lock : gmap string GoSumEntry.t :=
  list_to_map [
    ("moduleA@v1.2.0", GoSumEntry.mk "moduleA" "v1.2.0" "h1:a");
    ("moduleB@v0.3.0", GoSumEntry.mk "moduleB" "v0.3.0" "h1:b");
    ("moduleC@v1.0.0", GoSumEntry.mk "moduleC" "v1.0.0" "h1:c")
  ].

Definition scenario_graph : EnhancedDependencyGraph.t :=
  @enrich canonical_range scenario_manifest scenario_lock.

(** ** Predicates used to state the properties *)

Definition is_direct (r : Require.t) : Prop := Require.Indirect r = false.
Definition is_indirect (r : Require.t) : Prop := Require.Indirect r = true.

Global Instance is_direct_dec r : Decision (is_direct r).
Proof. unfold is_direct. apply _. Defined.
Global Instance is_indirect_dec r : Decision (is_indirect r).
Proof. unfold is_indirect. apply _. Defined.

(** The state of the loop of [BuildDependencyGraph] once the requirements
    [done] have been visited. *)
Record build_inv (modFile : File.t) (done : list Require.t)
    (st : list Node.t * gmap string nat) : Prop := {
  bi_root : ∃ cs, st.1 !! 0%nat = Some (Node.mk (File.Module modFile) "main" true cs)
                  ∧ length cs = length (filter is_direct done);
  bi_names : ∀ k p, st.2 !! k = Some p →
               ∃ n, st.1 !! p = Some n ∧ Node.Name n = k;
  bi_dom : dom st.2 = {[File.Module modFile]} ∪ list_to_set (Require.Path <$> done);
  bi_self : File.Module modFile ∉ Require.Path <$> done →
            st.2 !! File.Module modFile = Some 0%nat;
  bi_store : ∀ n, n ∈ st.1 → Node.Name n ∈ dom st.2
}.

(** The module paths that occur in the lock entries. *)
Definition lock_paths (m : gmap string GoSumEntry.t) : gset string :=
  list_to_set (GoSumEntry.ModulePath <$> (map_to_list m).*2).

(** The state of the loop of [GetTransitiveDependencies] once the entries
    [done] have been visited. *)
Record transitive_inv (directDepMap : gmap string bool)
    (done : list (string * GoSumEntry.t))
    (st : list GoSumEntry.t * gmap string bool) : Prop := {
  ti_seen : ∀ p, get_bool st.2 p = true ↔ p ∈ GoSumEntry.ModulePath <$> st.1;
  ti_nodup : NoDup (GoSumEntry.ModulePath <$> st.1);
  ti_sound : ∀ e, e ∈ st.1 →
               e ∈ done.*2 ∧ get_bool directDepMap (GoSumEntry.ModulePath e) = false;
  ti_complete : ∀ e, e ∈ done.*2 →
               get_bool directDepMap (GoSumEntry.ModulePath e) = false →
               GoSumEntry.ModulePath e ∈ GoSumEntry.ModulePath <$> st.1
}.

(** The enhanced node built for [name] by the first loop of
    [BuildEnhancedDependencyGraph]. *)
Definition wrap_node (h : list Node.t) (m : gmap string GoSumEntry.t)
    (name : string) (p : nat) : EnhancedNode.t :=
  EnhancedNode.new p
    match m !! (name +:+ "@" +:+ Node.Version (deref h p)) with
    | Some entry => GoSumEntry.Hash entry
    | None => ""
    end.

(** The state of the second loop of [BuildEnhancedDependencyGraph] once
    the transitive entries [done] have been visited, from the state
    [(h0, all0, ens0)]. *)
Record synth_inv (h0 : list Node.t) (all0 : gmap string nat)
    (ens0 : gmap string EnhancedNode.t) (done : list GoSumEntry.t)
    (st : list Node.t * gmap string nat * gmap string EnhancedNode.t)
    : Prop := {
  si_store : ∃ hs, st.1.1 = h0 ++ hs
               ∧ Node.Name <$> hs
                 = filter (λ p, p ∉ dom ens0) (GoSumEntry.ModulePath <$> done);
  si_all : all0 ⊆ st.1.2;
  si_ens : ens0 ⊆ st.2;
  si_dom_all : dom st.1.2
               = dom all0 ∪ (list_to_set (GoSumEntry.ModulePath <$> done) ∖ dom ens0);
  si_dom_ens : dom st.2
               = dom ens0 ∪ list_to_set (GoSumEntry.ModulePath <$> done);
  si_new : ∀ e, e ∈ done → GoSumEntry.ModulePath e ∉ dom ens0 →
             ∃ ptr, st.1.2 !! GoSumEntry.ModulePath e = Some ptr
               ∧ st.1.1 !! ptr
                 = Some (Node.mk (GoSumEntry.ModulePath e)
                                 (GoSumEntry.Version e) false [])
               ∧ st.2 !! GoSumEntry.ModulePath e
                 = Some (EnhancedNode.new ptr (GoSumEntry.Hash e))
}.

(** The strict order of strings. *)
Definition string_lt (s t : string) : Prop := String.ltb s t = true.

Global Instance string_lt_dec : RelDecision string_lt.
Proof. intros s t. unfold string_lt. apply _. Defined.

(** The lock entries are keyed by "path@version", as [ParseGoSum] stores
    them. *)
Definition well_keyed (m : gmap string GoSumEntry.t) : Prop :=
  map_Forall (λ k e, k = GoSumEntry.ModulePath e +:+ "@" +:+ GoSumEntry.Version e) m.

(** Every module path of the lock entries has an enhanced node, as in the
    graphs [BuildEnhancedDependencyGraph] returns. *)
Definition lock_covered (g : EnhancedDependencyGraph.t) : Prop :=
  map_Forall
    (λ _ e, is_Some (EnhancedDependencyGraph.EnhancedNodes g
                       !! GoSumEntry.ModulePath e))
    (EnhancedDependencyGraph.GoSumEntries g).

(** The versions of the entries of module path [p], in the order of [l]. *)
Definition versions_in (l : list (string * GoSumEntry.t)) (p : string)
    : list string :=
  GoSumEntry.Version <$> filter (λ e, GoSumEntry.ModulePath e = p) l.*2.

(** The set of distinct versions of module path [p] in the lock entries. *)
Definition versions_of (m : gmap string GoSumEntry.t) (p : string)
    : gset string :=
  list_to_set (versions_in (map_to_list m) p).

(** The conflicts of a module path whose versions, in ascending order, are
    [vs]: every version but the last against the last. *)
Definition conflicts_of (p : string) (vs : list string)
    : list VersionConflict.t :=
  (λ v, VersionConflict.mk p (default "" (last vs)) v
          "Multiple versions in go.sum")
  <$> take (length vs - 1) vs.

(** Several appends to [node.Conflicts]. *)
Definition add_Conflicts (cs : list VersionConflict.t) (n : EnhancedNode.t)
    : EnhancedNode.t :=
  EnhancedNode.mk (EnhancedNode.node n) (EnhancedNode.Hash n)
    (EnhancedNode.Transitive n) (EnhancedNode.Conflicts n ++ cs)
    (EnhancedNode.SecurityIssues n) (EnhancedNode.License n)
    (EnhancedNode.LastUpdate n) (EnhancedNode.IsOutdated n)
    (EnhancedNode.UpdateAvailable n).

(** What one iteration of the loop over [versionMap] emits. *)
Definition module_conflicts (kv : string * list string)
    : list VersionConflict.t :=
  if decide (1 < len kv.2) then conflicts_of kv.1 (sort_Strings kv.2) else [].

(** The versions of a module path as the first loop of
    [DetectVersionConflicts] collects them. *)
Definition raw_versions `{MapRange} (g : EnhancedDependencyGraph.t)
    (p : string) : list string :=
  versions_in (range (EnhancedDependencyGraph.GoSumEntries g)) p.

(** The lock entries {A@v1, A@v2, A@v3} of section 8 of the
    specification, for a module without requirements. *)
Definition three_versions_lock : gmap string GoSumEntry.t :=
  list_to_map [
    ("A@v1", GoSumEntry.mk "A" "v1" "h1:1");
    ("A@v2", GoSumEntry.mk "A" "v2" "h1:2");
    ("A@v3", GoSumEntry.mk "A" "v3" "h1:3")
  ].

Definition three_versions_graph : EnhancedDependencyGraph.t :=
  @enrich canonical_range (File.mk "example.com/app" None []) three_versions_lock.

(** ** The security rules, as the specification lists them *)

Inductive Rule :=
  | KnownVulnerable   (* known-vulnerable table, old minor version *)
  | PreRelease        (* pre-release marker in the version *)
  | OldDate           (* very old date-stamped pseudo-version *)
  | InsecureName      (* insecure primitive in the module path *)
  | NoVersion.        (* missing or zero version *)

Global Instance Rule_eq_dec : EqDecision Rule.
Proof. solve_decision. Defined.

Definition all_rules : list Rule :=
  [KnownVulnerable; PreRelease; OldDate; InsecureName; NoVersion].

(** The issues one rule raises for a node of the given name and version. *)
Definition rule_issues (r : Rule) (name version : string)
    : list SecurityIssue.t :=
  match r with
  | KnownVulnerable =>
      match vulnerablePatterns !! name with
      | Some issue =>
          if Contains version "v1.8" || Contains version "v1.7"
             || Contains version "v1.4"
          then [issue] else []
      | None => []
      end
  | PreRelease =>
      if Contains version "dev" || Contains version "alpha"
         || Contains version "beta" || Contains version "rc"
         || Contains version "snapshot"
      then [issue_DEV_VERSION] else []
  | OldDate =>
      if Contains version "20161208" || Contains version "20170"
         || Contains version "20180"
      then [issue_OLD_VERSION] else []
  | InsecureName =>
      insecurePatterns ≫=
        (λ pattern, if Contains name pattern then [issue_INSECURE_CRYPTO] else [])
  | NoVersion =>
      if decide (version = "" ∨ version = "v0.0.0")
      then [issue_NO_VERSION] else []
  end.

(** All rules, one after the other. *)
Definition node_issues (name version : string) : list SecurityIssue.t :=
  all_rules ≫= (λ r, rule_issues r name version).

(** Several appends to [node.SecurityIssues]. *)
Definition add_SecurityIssues (iss : list SecurityIssue.t) (n : EnhancedNode.t)
    : EnhancedNode.t :=
  EnhancedNode.mk (EnhancedNode.node n) (EnhancedNode.Hash n)
    (EnhancedNode.Transitive n) (EnhancedNode.Conflicts n)
    (EnhancedNode.SecurityIssues n ++ iss) (EnhancedNode.License n)
    (EnhancedNode.LastUpdate n) (EnhancedNode.IsOutdated n)
    (EnhancedNode.UpdateAvailable n).

(** The issues of one entry of [EnhancedNodes]: none for the root. *)
Definition issues_for (h : list Node.t) (rootName : string)
    (kv : string * EnhancedNode.t) : list SecurityIssue.t :=
  if decide (kv.1 = rootName) then []
  else node_issues kv.1 (Node.Version (deref h (EnhancedNode.node kv.2))).

(** The state of one iteration of [CheckSecurity] on the node [name],
    once the issues [acc] have been appended. *)
Definition sec_state (name : string) (ens : gmap string EnhancedNode.t)
    (issues acc : list SecurityIssue.t)
    : gmap string EnhancedNode.t * list SecurityIssue.t :=
  (alter (add_SecurityIssues acc) name ens, issues ++ acc).

(** Every pointer of the graph is the address of a [Node] of its store. *)
Definition wf_graph (g : EnhancedDependencyGraph.t) : Prop :=
  is_Some (store g !! Root g)
  ∧ map_Forall (λ _ p, is_Some (store g !! p)) (AllNodes g)
  ∧ map_Forall (λ _ en, is_Some (store g !! EnhancedNode.node en))
      (EnhancedDependencyGraph.EnhancedNodes g).

Global Instance wf_graph_dec g : Decision (wf_graph g).
Proof. unfold wf_graph. apply _. Defined.

Global Instance well_keyed_dec m : Decision (well_keyed m).
Proof. unfold well_keyed. apply _. Defined.

Global Instance lock_covered_dec g : Decision (lock_covered g).
Proof. unfold lock_covered. apply _. Defined.

(** A module with one requirement without a version, of a path that names
    an insecure primitive, and one pre-release requirement with an old
    date stamp; no go.sum. *)
Definition insecure_manifest : File.t :=
  File.mk "example.com/app" None
    [Require.mk "example.com/crypto/md5" "" false;
     Require.mk "example.com/lib" "v1.0.0-rc1.20170301" false].

Definition insecure_graph : EnhancedDependencyGraph.t :=
  @enrich canonical_range insecure_manifest ∅.

(** ** The frame of the analysis passes *)

(** [en'] is [en] with conflicts and issues appended, if any. *)
Definition same_but_lists (en en' : EnhancedNode.t) : Prop :=
  EnhancedNode.node en' = EnhancedNode.node en
  ∧ EnhancedNode.Hash en' = EnhancedNode.Hash en
  ∧ EnhancedNode.Transitive en' = EnhancedNode.Transitive en
  ∧ EnhancedNode.License en' = EnhancedNode.License en
  ∧ EnhancedNode.LastUpdate en' = EnhancedNode.LastUpdate en
  ∧ EnhancedNode.IsOutdated en' = EnhancedNode.IsOutdated en
  ∧ EnhancedNode.UpdateAvailable en' = EnhancedNode.UpdateAvailable en
  ∧ EnhancedNode.Conflicts en `prefix_of` EnhancedNode.Conflicts en'
  ∧ EnhancedNode.SecurityIssues en `prefix_of` EnhancedNode.SecurityIssues en'.

(** [g'] is [g] with conflicts and issues appended, if any: the same
    embedded graph (store of nodes, root, AllNodes), the same keys of
    EnhancedNodes, the same lock entries and license histogram. *)
Definition only_appends (g g' : EnhancedDependencyGraph.t) : Prop :=
  EnhancedDependencyGraph.graph g' = EnhancedDependencyGraph.graph g
  ∧ EnhancedDependencyGraph.GoSumEntries g' = EnhancedDependencyGraph.GoSumEntries g
  ∧ EnhancedDependencyGraph.TotalSize g' = EnhancedDependencyGraph.TotalSize g
  ∧ EnhancedDependencyGraph.BuildTime g' = EnhancedDependencyGraph.BuildTime g
  ∧ EnhancedDependencyGraph.LicensesSummary g'
    = EnhancedDependencyGraph.LicensesSummary g
  ∧ dom (EnhancedDependencyGraph.EnhancedNodes g')
    = dom (EnhancedDependencyGraph.EnhancedNodes g)
  ∧ (∀ k en', EnhancedDependencyGraph.EnhancedNodes g' !! k = Some en' →
       ∃ en, EnhancedDependencyGraph.EnhancedNodes g !! k = Some en
             ∧ same_but_lists en en')
  ∧ EnhancedDependencyGraph.Conflicts g
      `prefix_of` EnhancedDependencyGraph.Conflicts g'
  ∧ EnhancedDependencyGraph.SecurityIssues g
      `prefix_of` EnhancedDependencyGraph.SecurityIssues g'.

(** ** License classification, as a function of the name *)

Definition license_of (name : string) : string :=
  match knownLicenses !! name with
  | Some license => license
  | None =>
      if Contains name "golang.org/x/" then "BSD-3-Clause"
      else if Contains name "github.com/mattn/" then "MIT"
      else "Unknown"
  end.

(** The number of entries of [EnhancedNodes] classified as [license]. *)
Definition license_count (ens : gmap string EnhancedNode.t) (license : string)
    : nat :=
  length (filter (λ k, license_of k = license) (map_to_list ens).*1).

(** The sum of the counts of the histogram. *)
Definition summary_total (summary : gmap string Z) : Z :=
  map_fold (λ _ c acc, c + acc) 0 summary.

(** The nodes other than the root: the entries of [EnhancedNodes] under
    another name than the root's. *)
Definition non_root_nodes (g : EnhancedDependencyGraph.t)
    : gmap string EnhancedNode.t :=
  filter (λ kv, kv.1 ≠ Node.Name (deref (store g) (Root g)))
         (EnhancedDependencyGraph.EnhancedNodes g).

(** A module without requirements and without go.sum. *)
Definition lonely_graph : EnhancedDependencyGraph.t :=
  @enrich canonical_range (File.mk "example.com/app" None []) ∅.

(** A module that requires a mirror of golang.org/x/text and a fork that
    embeds github.com/mattn/ in the middle of its path. *)
Definition mirror_manifest : File.t :=
  File.mk "example.com/app" None
    [Require.mk "example.com/mirror/golang.org/x/text" "v0.14.0" false;
     Require.mk "example.com/forks/github.com/mattn/go-isatty" "v0.0.20" true].

Definition mirror_graph : EnhancedDependencyGraph.t :=
  @enrich canonical_range mirror_manifest ∅.

(** The histogram [summary] counts [n] increments. *)
Definition counts_total (summary : gmap string Z) (n : Z) : Prop :=
  summary_total summary = n
  ∧ map_Forall (λ _ v, 0 < v ≤ n) summary.

(** ** The counts of [GetDependencyCount], as sizes *)

(** The number of nodes of [AllNodes], other than those named as the root,
    whose direct flag is [d]. *)
Definition count_direct (g : DependencyGraph.t) (d : bool) : nat :=
  let h := DependencyGraph.store g in
  let rootName := Node.Name (deref h (DependencyGraph.Root g)) in
  length (filter (λ kv : string * nat,
                    Node.Name (deref h kv.2) ≠ rootName
                    ∧ Node.Direct (deref h kv.2) = d)
                 (map_to_list (DependencyGraph.AllNodes g))).

(** The keys of the statistics. *)
Definition statistics_keys : list string :=
  ["total_dependencies"; "direct_dependencies"; "indirect_dependencies";
   "transitive_dependencies"; "version_conflicts"; "security_issues";
   "unique_licenses"; "licenses_breakdown"].

(** A module with one direct requirement and no go.sum. *)
Definition no_lock_graph : EnhancedDependencyGraph.t :=
  @enrich canonical_range
    (File.mk "example.com/app" None [Require.mk "moduleA" "v1.2.0" false]) ∅.

(** ** The analysis of a project, as the commands run it *)

(** The steps of the generate and analyze commands between the parse of
    go.mod and the output: enrichment, then the three passes. *)
Definition run_analysis `{MapRange}
    (TrimSpace : string → string) (Fields : string → list string)
    (modFile : File.t) (goSum : FileState) : result EnhancedDependencyGraph.t :=
  match BuildEnhancedDependencyGraph TrimSpace Fields modFile goSum with
  | Err err => Err (Errorf "failed to build enhanced dependency graph" err)
  | Ok enhancedGraph =>
      Ok (CheckSecurity (AnalyzeLicenses (DetectVersionConflicts enhancedGraph)))
  end.

(** The lock file exists. *)
Definition file_present (fs : FileState) : Prop := fs ≠ Absent.

(** The lock file cannot be read to its end: it cannot be opened, or the
    scanner stops with an error. *)
Definition file_unreadable (fs : FileState) : Prop :=
  match fs with
  | Absent => False
  | Unopenable => True
  | Opened _ scanErr => scanErr = true
  end.

(** The load of the lock file fails. *)
Definition load_fails (TrimSpace : string → string)
    (Fields : string → list string) (fs : FileState) : Prop :=
  ∃ e, ParseGoSum TrimSpace Fields fs = Err e.

(** A tokenizer for trial runs: spaces separate the fields. *)
Fixpoint fields_aux (cur : string) (s : string) : list string :=
  match s with
  | EmptyString => if decide (cur = "") then [] else [String.rev cur]
  | String a s' =>
      if Ascii.eqb a Ascii.Space
      then (if decide (cur = "") then [] else [String.rev cur]) ++ fields_aux "" s'
      else fields_aux (String a cur) s'
  end.

Definition space_fields (s : string) : list string := fields_aux "" s.

(** No two lock entries share a module path. *)
Definition single_versions (m : gmap string GoSumEntry.t) : Prop :=
  NoDup (GoSumEntry.ModulePath <$> (map_to_list m).*2).

(** Another admissible order: that of [map_to_list], reversed. *)
Definition reverse_range : MapRange :=
  {| range := λ V m, reverse (map_to_list m);
     range_perm := λ V m, reverse_Permutation (map_to_list m) |}.

(** ** The accessors of DependencyGraph and of package parser *)

(** [parser.GetAllDependencies]. *)
Definition parser_GetAllDependencies (modFile : File.t) : list string :=
  Require.Path <$> File.Require modFile.

(** The method [GetDirectDependencies] of [DependencyGraph]: the children
    of the root. *)
Definition graph_GetDirectDependencies (g : DependencyGraph.t) : list nat :=
  Node.Children (deref (DependencyGraph.store g) (DependencyGraph.Root g)).

(** The method [GetAllDependencies] of [DependencyGraph]: the nodes
    registered under another name than the root's, in the order of the
    iteration. *)
Definition graph_GetAllDependencies `{MapRange} (g : DependencyGraph.t)
    : list nat :=
  let rootName :=
    Node.Name (deref (DependencyGraph.store g) (DependencyGraph.Root g)) in
  foldl (λ deps kv, if decide (kv.1 ≠ rootName) then deps ++ [kv.2] else deps)
        [] (range (DependencyGraph.AllNodes g)).

(** The node [BuildDependencyGraph] allocates for a requirement. *)
Definition node_of (r : Require.t) : Node.t :=
  Node.mk (Require.Path r) (Require.Version r) (negb (Require.Indirect r)) [].

(** The addresses of the direct requirements among [rs], when the first of
    [rs] is allocated at [base]. *)
Fixpoint child_addrs (base : nat) (rs : list Require.t) : list nat :=
  match rs with
  | [] => []
  | r :: rs' =>
      (if Require.Indirect r then [] else [base]) ++ child_addrs (S base) rs'
  end.

(** ** buildDependencyReport (package output) *)

Module DependencyInfo.
Record t := mk {
    Name : string;
    Version : string;
    Direct : bool;
    Hash : string;
    License : string;
    Conflicts : list VersionConflict.t;
    SecurityIssues : list SecurityIssue.t;
    IsOutdated : bool;
    UpdateAvailable : string
  }.
End DependencyInfo.

Module ReportMetadata.
Record t := mk {
    GeneratedAt : Z;
    Tool : string;
    Version : string
  }.
End ReportMetadata.

Module ModuleInfo.
Record t := mk {
    Name : string;
    GoVersion : string;
    Path : string
  }.
End ModuleInfo.

Module DependencyReport.
  (** [Module_] is the field [Module] of the source. *)
Record t := mk {
    Metadata : ReportMetadata.t;
    Module_ : ModuleInfo.t;
    Statistics : gmap string any;
    Dependencies : list DependencyInfo.t;
    Conflicts : list VersionConflict.t;
    SecurityIssues : list SecurityIssue.t;
    LicensesSummary : gmap string Z
  }.
End DependencyReport.

(** The [DependencyInfo] literal of the loop: name, version and direct flag
    are read through the embedded node pointer. *)
Definition dependency_info (h : list Node.t) (en : EnhancedNode.t)
    : DependencyInfo.t :=
  DependencyInfo.mk
    (Node.Name (deref h (EnhancedNode.node en)))
    (Node.Version (deref h (EnhancedNode.node en)))
    (Node.Direct (deref h (EnhancedNode.node en)))
    (EnhancedNode.Hash en)
    (EnhancedNode.License en)
    (EnhancedNode.Conflicts en)
    (EnhancedNode.SecurityIssues en)
    (EnhancedNode.IsOutdated en)
    (EnhancedNode.UpdateAvailable en).

(** One iteration of the loop of [buildDependencyReport]. *)
Definition report_step (h : list Node.t) (rootName : string)
    (dependencies : list DependencyInfo.t) (kv : string * EnhancedNode.t)
    : list DependencyInfo.t :=
  if decide (kv.1 = rootName) then dependencies
  else dependencies ++ [dependency_info h kv.2].

(** [now] is the value of [time.Now()]. *)
Definition buildDependencyReport `{MapRange} (now : Z)
    (depGraph : EnhancedDependencyGraph.t) (projectPath : string)
    : DependencyReport.t :=
  let h := store depGraph in
  let rootName := Node.Name (deref h (Root depGraph)) in
  let dependencies :=
    foldl (report_step h rootName) []
          (range (EnhancedDependencyGraph.EnhancedNodes depGraph)) in
  DependencyReport.mk
    (ReportMetadata.mk now "goviz" "v0.1.0")
    (ModuleInfo.mk
       (DependencyGraph.ModuleName (EnhancedDependencyGraph.graph depGraph))
       (DependencyGraph.ModuleGoVersion (EnhancedDependencyGraph.graph depGraph))
       projectPath)
    (GetStatistics depGraph)
    dependencies
    (EnhancedDependencyGraph.Conflicts depGraph)
    (EnhancedDependencyGraph.SecurityIssues depGraph)
    (EnhancedDependencyGraph.LicensesSummary depGraph).

(** A module with one requirement without version, of a plain path; no
    go.sum. *)
Definition unversioned_graph : EnhancedDependencyGraph.t :=
  @enrich canonical_range
    (File.mk "example.com/app" None [Require.mk "example.com/lib" "" false]) ∅.

(** * Properties *)

(** ** The base graph *)

Section BaseGraph.
Variable modFile : File.t.

Lemma build_inv_init :
    build_inv modFile [] ([Node.mk (File.Module modFile) "main" true []],
                  <[File.Module modFile := 0%nat]> ∅).
  Proof.
    split; simpl.
    - by exists [].
    - intros k p Hk. apply lookup_insert_Some in Hk as [[<- <-]|[_ Hk]].
      + by eexists.
      + by rewrite lookup_empty in Hk.
    - rewrite dom_insert_L. set_solver.
    - intros _. by rewrite lookup_insert_eq.
    - intros n Hn. apply list_elem_of_singleton in Hn. subst n. simpl.
      rewrite dom_insert_L. set_solver.
  Qed.

Lemma build_inv_step done st r :
    build_inv modFile done st → build_inv modFile (done ++ [r]) (add_require 0 st r).
  Proof.
    destruct st as [h all]. intros [(cs & Hroot & Hcs) Hnames Hdom Hself Hstore].
    simpl in *.
    assert (Hlen : (0 < length h)%nat) by (by apply lookup_lt_Some in Hroot).
    unfold add_require, alloc.
    destruct r as [path version indirect]; simpl.
    destruct indirect; simpl.
    - split; simpl.
      + exists cs. split.
        * by rewrite lookup_app_l.
        * rewrite filter_app, length_app, filter_cons_False, filter_nil
            by (by unfold is_direct).
          simpl. lia.
      + intros k p Hk. apply lookup_insert_Some in Hk as [[<- <-]|[_ Hk]].
        * eexists. split; [apply list_lookup_middle; done|done].
        * destruct (Hnames k p Hk) as (n & Hn & Hname).
          exists n. split; [|done].
          rewrite lookup_app_l; [done|by apply lookup_lt_Some in Hn].
      + rewrite dom_insert_L, Hdom, fmap_app, list_to_set_app_L. simpl.
        set_solver.
      + intros Hnot. rewrite fmap_app in Hnot. simpl in Hnot.
        rewrite lookup_insert_ne; [|set_solver]. apply Hself. set_solver.
      + intros n Hn. rewrite dom_insert_L.
        apply elem_of_app in Hn as [Hn|Hn].
        * apply Hstore in Hn. set_solver.
        * apply list_elem_of_singleton in Hn. subst n. set_solver.
    - split; simpl.
      + exists (cs ++ [length h]). split.
        * rewrite list_lookup_alter_eq, lookup_app_l, Hroot by done. done.
        * rewrite filter_app, !length_app, filter_cons_True, filter_nil
            by (by unfold is_direct).
          simpl. lia.
      + intros k p Hk. destruct (decide (p = 0%nat)) as [->|Hp].
        * rewrite list_lookup_alter_eq, lookup_app_l, Hroot by done. simpl.
          eexists. split; [done|]. simpl.
          apply lookup_insert_Some in Hk as [[<- Heq]|[_ Hk]]; [lia|].
          destruct (Hnames k 0%nat Hk) as (n & Hn & Hname).
          rewrite Hroot in Hn. by simplify_eq.
        * rewrite list_lookup_alter_ne by done.
          apply lookup_insert_Some in Hk as [[<- <-]|[_ Hk]].
          -- eexists. split; [apply list_lookup_middle; done|done].
          -- destruct (Hnames k p Hk) as (n & Hn & Hname).
             exists n. split; [|done].
             rewrite lookup_app_l; [done|by apply lookup_lt_Some in Hn].
      + rewrite dom_insert_L, Hdom, fmap_app, list_to_set_app_L. simpl.
        set_solver.
      + intros Hnot. rewrite fmap_app in Hnot. simpl in Hnot.
        rewrite lookup_insert_ne; [|set_solver]. apply Hself. set_solver.
      + intros n Hn. rewrite dom_insert_L.
        apply list_elem_of_lookup in Hn as [i Hi].
        destruct (decide (i = 0%nat)) as [->|Hi0].
        * rewrite list_lookup_alter_eq, lookup_app_l, Hroot in Hi by done.
          simpl in Hi. injection Hi as <-. simpl.
          assert (Hin : Node.mk (File.Module modFile) "main" true cs ∈ h)
            by (apply list_elem_of_lookup; eauto).
          apply Hstore in Hin. set_solver.
        * rewrite list_lookup_alter_ne in Hi by done.
          assert (Hin : n ∈ h ++ [Node.mk path version true []])
            by (apply list_elem_of_lookup; eauto).
          apply elem_of_app in Hin as [Hin|Hin].
          -- apply Hstore in Hin. set_solver.
          -- apply list_elem_of_singleton in Hin. subst n. set_solver.
  Qed.

Lemma build_inv_foldl rs done st :
    build_inv modFile done st →
    build_inv modFile (done ++ rs) (foldl (add_require 0) st rs).
  Proof.
    revert done st. induction rs as [|r rs IH]; intros done st Hinv; simpl.
    - by rewrite app_nil_r.
    - replace (done ++ r :: rs) with ((done ++ [r]) ++ rs)
        by (by rewrite <- app_assoc).
      apply IH. by apply build_inv_step.
  Qed.

Lemma BuildDependencyGraph_inv :
    build_inv modFile (File.Require modFile)
      (DependencyGraph.store (BuildDependencyGraph modFile),
       DependencyGraph.AllNodes (BuildDependencyGraph modFile))
    ∧ DependencyGraph.Root (BuildDependencyGraph modFile) = 0%nat.
  Proof.
    unfold BuildDependencyGraph, alloc. simpl.
    pose proof (build_inv_foldl (File.Require modFile) [] _ build_inv_init) as H.
    simpl in H.
    destruct (foldl _ _ _) as [h all]. simpl. done.
  Qed.
End BaseGraph.

Lemma filter_direct_indirect_length (rs : list Require.t) :
  (length (filter is_direct rs) + length (filter is_indirect rs))%nat = length rs.
Proof.
  induction rs as [|[p v []] rs IH]; [done| |].
  - rewrite filter_cons_False, filter_cons_True by done. simpl. lia.
  - rewrite filter_cons_True, filter_cons_False by done. simpl. lia.
Qed.

(** C5.  For a manifest whose requirement paths are pairwise distinct and
    differ from the module's own path, with N direct and M indirect
    requirements: the base graph has N+M+1 nodes, its root is registered
    under the module path, has that path as name, version "main",
    direct=true and exactly N children, every node is registered under its
    own name, and no two entries of AllNodes carry the same name. *)
Theorem C5_base_graph_shape (modFile : File.t) :
  NoDup (Require.Path <$> File.Require modFile) →
  File.Module modFile ∉ Require.Path <$> File.Require modFile →
  let g := BuildDependencyGraph modFile in
  let N := length (filter is_direct (File.Require modFile)) in
  let M := length (filter is_indirect (File.Require modFile)) in
  size (DependencyGraph.AllNodes g) = (N + M + 1)%nat
  ∧ (∃ root, DependencyGraph.store g !! DependencyGraph.Root g = Some root
       ∧ Node.Name root = File.Module modFile
       ∧ Node.Version root = "main"
       ∧ Node.Direct root = true
       ∧ length (Node.Children root) = N)
  ∧ DependencyGraph.AllNodes g !! File.Module modFile
      = Some (DependencyGraph.Root g)
  ∧ (∀ k p, DependencyGraph.AllNodes g !! k = Some p →
       ∃ n, DependencyGraph.store g !! p = Some n ∧ Node.Name n = k)
  ∧ (∀ k1 k2 p1 p2 n1 n2,
       DependencyGraph.AllNodes g !! k1 = Some p1 →
       DependencyGraph.AllNodes g !! k2 = Some p2 →
       DependencyGraph.store g !! p1 = Some n1 →
       DependencyGraph.store g !! p2 = Some n2 →
       Node.Name n1 = Node.Name n2 → k1 = k2 ∧ p1 = p2).
Proof.
  intros Hnodup Hself g N M.
  destruct (BuildDependencyGraph_inv modFile)
    as [[(cs & Hroot & Hcs) Hnames Hdom Hmod _] Hr].
  fold g in Hroot, Hnames, Hdom, Hmod, Hr. simpl in *.
  split; [|split; [|split; [|split]]].
  - rewrite <- size_dom, Hdom, size_union, size_singleton, size_list_to_set
      by (done || set_solver).
    rewrite length_fmap. subst N M.
    pose proof (filter_direct_indirect_length (File.Require modFile)). lia.
  - rewrite Hr. eexists. split; [exact Hroot|]. done.
  - rewrite Hr. by apply Hmod.
  - exact Hnames.
  - intros k1 k2 p1 p2 n1 n2 H1 H2 Hn1 Hn2 Heq.
    destruct (Hnames _ _ H1) as (m1 & Hm1 & <-).
    destruct (Hnames _ _ H2) as (m2 & Hm2 & <-).
    assert (Node.Name m1 = Node.Name m2) by congruence.
    split; [done|]. congruence.
Qed.

Lemma C5_base_graph_shape_witness :
  let g := BuildDependencyGraph scenario_manifest in
  size (DependencyGraph.AllNodes g) = 3%nat
  ∧ DependencyGraph.AllNodes g !! "example.com/app"
      = Some (DependencyGraph.Root g).
Proof.
  pose proof (C5_base_graph_shape scenario_manifest) as H.
  simpl in H. destruct H as (Hsize & _ & Hroot & _).
  - apply (bool_decide_unpack _). vm_compute. reflexivity.
  - apply (bool_decide_unpack _). vm_compute. reflexivity.
  - split; [exact Hsize | exact Hroot].
Defined.

(** ** The order of [range] *)

Section Range.
Context `{MapRange}.

Lemma range_elem_of {V} (m : gmap string V) k v :
    (k, v) ∈ range m ↔ m !! k = Some v.
  Proof. rewrite (range_perm V m). apply elem_of_map_to_list. Qed.

Lemma range_NoDup_fst {V} (m : gmap string V) : NoDup (range m).*1.
  Proof. rewrite (range_perm V m). apply NoDup_fst_map_to_list. Qed.

Lemma range_NoDup {V} (m : gmap string V) : NoDup (range m).
  Proof. rewrite (range_perm V m). apply NoDup_map_to_list. Qed.

Lemma range_length {V} (m : gmap string V) : length (range m) = size m.
  Proof. rewrite (range_perm V m). by rewrite length_map_to_list. Qed.

Lemma range_elem_of_snd {V} (m : gmap string V) v :
    v ∈ (range m).*2 ↔ ∃ k, m !! k = Some v.
  Proof.
    rewrite list_elem_of_fmap. split.
    - intros ([k v'] & -> & Hin). exists k. by apply range_elem_of.
    - intros (k & Hk). exists (k, v). split; [done|]. by apply range_elem_of.
  Qed.
End Range.

Lemma elem_of_lock_paths (m : gmap string GoSumEntry.t) p :
  p ∈ lock_paths m ↔ ∃ k e, m !! k = Some e ∧ GoSumEntry.ModulePath e = p.
Proof.
  unfold lock_paths. rewrite elem_of_list_to_set, list_elem_of_fmap. split.
  - intros (e & -> & He). apply list_elem_of_fmap in He as ([k e'] & -> & Hin).
    apply elem_of_map_to_list in Hin. by exists k, e'.
  - intros (k & e & Hk & <-). exists e. split; [done|].
    apply list_elem_of_fmap. exists (k, e). split; [done|].
    by apply elem_of_map_to_list.
Qed.

(** ** GetTransitiveDependencies *)

Lemma directDepMap_get (directDeps : list string) (m0 : gmap string bool) p :
  get_bool (foldl (λ m dep, <[dep := true]> m) m0 directDeps) p = true
  ↔ p ∈ directDeps ∨ get_bool m0 p = true.
Proof.
  revert m0. induction directDeps as [|d ds IH]; intros m0; simpl.
  - set_solver.
  - rewrite IH. unfold get_bool. destruct (decide (d = p)) as [->|Hne].
    + rewrite lookup_insert_eq. simpl. set_solver.
    + rewrite lookup_insert_ne by done. set_solver.
Qed.

Lemma transitive_inv_init dm : transitive_inv dm [] ([], ∅).
Proof.
  split; simpl.
  - intros p. unfold get_bool. rewrite lookup_empty. simpl. set_solver.
  - constructor.
  - intros e He. by apply elem_of_nil in He.
  - intros e He. by apply elem_of_nil in He.
Qed.

Lemma transitive_inv_step dm done st kv :
  transitive_inv dm done st →
  transitive_inv dm (done ++ [kv]) (transitive_step dm st kv).
Proof.
  destruct st as [T seen]. destruct kv as [k e].
  intros [Hseen Hnd Hsound Hcompl]. simpl in *.
  unfold transitive_step. simpl.
  destruct (get_bool dm (GoSumEntry.ModulePath e)) eqn:Hd; simpl.
  { split; simpl; [done|done| |].
    - intros e' He'. destruct (Hsound e' He'). rewrite fmap_app. set_solver.
    - intros e' He' Hd'. rewrite fmap_app in He'. simpl in He'.
      apply elem_of_app in He' as [He'|He']; [by apply Hcompl|].
      apply list_elem_of_singleton in He'. congruence. }
  destruct (get_bool seen (GoSumEntry.ModulePath e)) eqn:Hs; simpl.
  { split; simpl; [done|done| |].
    - intros e' He'. destruct (Hsound e' He'). rewrite fmap_app. set_solver.
    - intros e' He' Hd'. rewrite fmap_app in He'. simpl in He'.
      apply elem_of_app in He' as [He'|He']; [by apply Hcompl|].
      apply list_elem_of_singleton in He'. subst e'. by apply Hseen. }
  split; simpl.
  - intros p. rewrite fmap_app, elem_of_app. simpl.
    rewrite list_elem_of_singleton, <- Hseen. unfold get_bool.
    destruct (decide (GoSumEntry.ModulePath e = p)) as [->|Hne].
    + rewrite lookup_insert_eq. simpl. tauto.
    + rewrite lookup_insert_ne by done. split; [tauto|].
      intros [?|?]; [done|congruence].
  - rewrite fmap_app. apply NoDup_app. split; [done|]. split.
    + intros p Hp Hp'. apply list_elem_of_singleton in Hp'. subst p.
      apply Hseen in Hp. congruence.
    + apply NoDup_singleton.
  - intros e' He'. rewrite fmap_app. simpl.
    apply elem_of_app in He' as [He'|He'].
    + destruct (Hsound e' He'). set_solver.
    + apply list_elem_of_singleton in He'. subst e'. set_solver.
  - intros e' He' Hd'. rewrite fmap_app in He'. simpl in He'.
    rewrite fmap_app, elem_of_app.
    apply elem_of_app in He' as [He'|He']; [left; by apply Hcompl|].
    apply list_elem_of_singleton in He'. subst e'. right. set_solver.
Qed.

Lemma transitive_inv_foldl dm l done st :
  transitive_inv dm done st →
  transitive_inv dm (done ++ l) (foldl (transitive_step dm) st l).
Proof.
  revert done st. induction l as [|kv l IH]; intros done st Hinv; simpl.
  - by rewrite app_nil_r.
  - replace (done ++ kv :: l) with ((done ++ [kv]) ++ l)
      by (by rewrite <- app_assoc).
    apply IH. by apply transitive_inv_step.
Qed.

Section Transitive.
Context `{MapRange}.

  (** The transitive entries: lock entries outside the direct
      requirements, one per module path. *)
Lemma GetTransitiveDependencies_spec
      (m : gmap string GoSumEntry.t) (directDeps : list string) :
    let T := GetTransitiveDependencies m directDeps in
    NoDup (GoSumEntry.ModulePath <$> T)
    ∧ (∀ e, e ∈ T → (∃ k, m !! k = Some e)
                     ∧ GoSumEntry.ModulePath e ∉ directDeps)
    ∧ (∀ k e, m !! k = Some e → GoSumEntry.ModulePath e ∉ directDeps →
              GoSumEntry.ModulePath e ∈ GoSumEntry.ModulePath <$> T).
  Proof.
    unfold GetTransitiveDependencies.
    set (dm := foldl _ ∅ directDeps).
    assert (Hdm : ∀ p, get_bool dm p = false ↔ p ∉ directDeps).
    { intros p. pose proof (directDepMap_get directDeps ∅ p) as Hg.
      fold dm in Hg. unfold get_bool at 2 in Hg. rewrite lookup_empty in Hg.
      simpl in Hg. destruct (get_bool dm p); split; intros Hp; try done.
      - exfalso. apply Hp. by destruct (proj1 Hg eq_refl).
      - intros Hin. by discriminate (proj2 Hg (or_introl Hin)). }
    pose proof (transitive_inv_foldl dm (range m) [] _ (transitive_inv_init dm))
      as [Hseen Hnd Hsound Hcompl].
    simpl in *. destruct (foldl _ _ _) as [T]. simpl in *.
    split; [done|]. split.
    - intros e He. destruct (Hsound e He) as [Hin Hd]. split.
      + by apply range_elem_of_snd.
      + by apply Hdm.
    - intros k e Hk Hd. apply Hcompl.
      + apply range_elem_of_snd. by exists k.
      + by apply Hdm.
  Qed.
End Transitive.

(** ** BuildEnhancedDependencyGraph *)

Lemma wrap_foldl_lookup h (m : gmap string GoSumEntry.t)
    (l : list (string * nat)) (ens0 : gmap string EnhancedNode.t) k :
  NoDup l.*1 →
  foldl (wrap_step h m) ens0 l !! k
  = match (list_to_map l : gmap string nat) !! k with
    | Some p => Some (wrap_node h m k p)
    | None => ens0 !! k
    end.
Proof.
  revert ens0. induction l as [|[name p] l IH]; intros ens0 Hnd; simpl.
  - by rewrite lookup_empty.
  - apply NoDup_cons in Hnd as [Hnotin Hnd]. rewrite IH by done.
    destruct (decide (name = k)) as [->|Hne].
    + rewrite lookup_insert_eq.
      rewrite (not_elem_of_list_to_map_1 l k Hnotin).
      by rewrite lookup_insert_eq.
    + rewrite (lookup_insert_ne (list_to_map l)) by done.
      destruct (list_to_map l !! k); [done|].
      by rewrite lookup_insert_ne.
Qed.

Lemma filter_name_nil {A} (f : A → string) (l : list A) p :
  p ∉ f <$> l → filter (λ n, f n = p) l = [].
Proof.
  induction l as [|a l IH]; intros Hp; [done|].
  rewrite fmap_cons, not_elem_of_cons in Hp. destruct Hp as [Hne Hp].
  rewrite filter_cons_False by congruence. by apply IH.
Qed.

Lemma filter_name_once {A} (f : A → string) (l : list A) p :
  NoDup (f <$> l) → p ∈ f <$> l → length (filter (λ n, f n = p) l) = 1%nat.
Proof.
  induction l as [|a l IH]; intros Hnd Hp.
  - by apply elem_of_nil in Hp.
  - rewrite fmap_cons in Hnd, Hp. apply NoDup_cons in Hnd as [Hnotin Hnd].
    destruct (decide (f a = p)) as [Heq|Hne].
    + rewrite filter_cons_True by done. subst p.
      by rewrite filter_name_nil.
    + rewrite filter_cons_False by done. apply IH; [done|].
      apply elem_of_cons in Hp as [Hp|Hp]; [congruence|done].
Qed.

Lemma synth_inv_init h0 all0 ens0 : synth_inv h0 all0 ens0 [] (h0, all0, ens0).
Proof.
  split; simpl; try done.
  - exists []. by rewrite app_nil_r.
  - set_solver.
  - set_solver.
  - intros e He. by apply elem_of_nil in He.
Qed.

Lemma synth_inv_step h0 all0 ens0 done st e :
  dom all0 ⊆ dom ens0 →
  synth_inv h0 all0 ens0 done st →
  GoSumEntry.ModulePath e ∉ GoSumEntry.ModulePath <$> done →
  synth_inv h0 all0 ens0 (done ++ [e]) (synth_step st e).
Proof.
  destruct st as [[h all] ens].
  intros Hsub [(hs & Hh & Hhs) Hall Hens Hdall Hdens Hnew] Hfresh.
  simpl in *. unfold synth_step.
  destruct (ens !! GoSumEntry.ModulePath e) as [en|] eqn:Hlook.
  - (* the path has an enhanced node already: one of the base graph *)
    assert (Hin0 : GoSumEntry.ModulePath e ∈ dom ens0).
    { assert (Hd : GoSumEntry.ModulePath e ∈ dom ens)
        by (apply elem_of_dom; eauto).
      rewrite Hdens in Hd. apply elem_of_union in Hd as [Hd|Hd]; [done|].
      by apply elem_of_list_to_set in Hd. }
    split; simpl; try done.
    + exists hs. split; [done|].
      rewrite fmap_app, filter_app. simpl.
      rewrite filter_cons_False, filter_nil by (intros Hc; by apply Hc).
      by rewrite app_nil_r.
    + rewrite Hdall, fmap_app, list_to_set_app_L. simpl. set_solver.
    + rewrite Hdens, fmap_app, list_to_set_app_L. simpl.
      assert (GoSumEntry.ModulePath e ∈ dom ens) by (apply elem_of_dom; eauto).
      set_solver.
    + intros e' He' Hn'. apply elem_of_app in He' as [He'|He'].
      * by apply Hnew.
      * apply list_elem_of_singleton in He'. by subst e'.
  - (* a new node is synthesized *)
    assert (Hnot : GoSumEntry.ModulePath e ∉ dom ens)
      by (by apply not_elem_of_dom).
    assert (Hnot0 : GoSumEntry.ModulePath e ∉ dom ens0)
      by (rewrite Hdens in Hnot; set_solver).
    assert (Hnota : all !! GoSumEntry.ModulePath e = None).
    { apply not_elem_of_dom. rewrite Hdall. set_solver. }
    unfold alloc. split; simpl.
    + exists (hs ++ [Node.mk (GoSumEntry.ModulePath e) (GoSumEntry.Version e)
                             false []]).
      split; [by rewrite Hh, app_assoc|].
      rewrite !fmap_app, filter_app, Hhs. simpl.
      by rewrite filter_cons_True, filter_nil by done.
    + etrans; [exact Hall|]. by apply insert_subseteq.
    + etrans; [exact Hens|]. by apply insert_subseteq.
    + rewrite dom_insert_L, Hdall, fmap_app, list_to_set_app_L. simpl.
      set_solver.
    + rewrite dom_insert_L, Hdens, fmap_app, list_to_set_app_L. simpl.
      set_solver.
    + intros e' He' Hn'. apply elem_of_app in He' as [He'|He'].
      * destruct (Hnew e' He' Hn') as (ptr & Hp1 & Hp2 & Hp3).
        assert (GoSumEntry.ModulePath e' ≠ GoSumEntry.ModulePath e).
        { intros Heq. apply Hfresh. rewrite <- Heq.
          apply list_elem_of_fmap. eauto. }
        exists ptr. rewrite !lookup_insert_ne by done.
        split; [done|]. split; [|done].
        rewrite lookup_app_l; [done|by apply lookup_lt_Some in Hp2].
      * apply list_elem_of_singleton in He'. subst e'.
        exists (length h). rewrite !lookup_insert_eq.
        split; [done|]. split; [|done]. by apply list_lookup_middle.
Qed.

Lemma synth_inv_foldl h0 all0 ens0 l done st :
  dom all0 ⊆ dom ens0 →
  NoDup (GoSumEntry.ModulePath <$> (done ++ l)) →
  synth_inv h0 all0 ens0 done st →
  synth_inv h0 all0 ens0 (done ++ l) (foldl synth_step st l).
Proof.
  intros Hsub. revert done st.
  induction l as [|e l IH]; intros done st Hnd Hinv; simpl.
  - by rewrite app_nil_r.
  - replace (done ++ e :: l) with ((done ++ [e]) ++ l) in *
      by (by rewrite <- app_assoc).
    apply IH; [done|]. apply synth_inv_step; [done|done|].
    rewrite !fmap_app in Hnd. apply NoDup_app in Hnd as [Hnd _].
    apply NoDup_app in Hnd as (_ & Hdis & _).
    intros Hin. apply (Hdis _ Hin). simpl. set_solver.
Qed.

Section Enrich.
Context `{MapRange}.
Variable modFile : File.t.
Variable m : gmap string GoSumEntry.t.

Let b := BuildDependencyGraph modFile.
Let g := enrich modFile m.
Let ens0 := foldl (wrap_step (DependencyGraph.store b) m) ∅
                    (range (DependencyGraph.AllNodes b)).
Let T := GetTransitiveDependencies m (GetDirectDependencies modFile).

Lemma ens0_lookup k :
    ens0 !! k
    = wrap_node (DependencyGraph.store b) m k <$> DependencyGraph.AllNodes b !! k.
  Proof.
    unfold ens0. rewrite wrap_foldl_lookup by apply range_NoDup_fst.
    rewrite (list_to_map_proper _ (map_to_list (DependencyGraph.AllNodes b)))
      by (apply range_NoDup_fst || apply range_perm).
    rewrite list_to_map_to_list.
    destruct (DependencyGraph.AllNodes b !! k); [done|]. by rewrite lookup_empty.
  Qed.

Lemma ens0_dom : dom ens0 = dom (DependencyGraph.AllNodes b).
  Proof.
    apply set_eq. intros k. rewrite !elem_of_dom, ens0_lookup.
    by rewrite fmap_is_Some.
  Qed.

Lemma enrich_fields :
    Root g = DependencyGraph.Root b
    ∧ EnhancedDependencyGraph.GoSumEntries g = m
    ∧ EnhancedDependencyGraph.Conflicts g = []
    ∧ EnhancedDependencyGraph.SecurityIssues g = []
    ∧ EnhancedDependencyGraph.LicensesSummary g = ∅.
  Proof.
    unfold g, enrich, Root. by destruct (foldl synth_step _ _) as [[h all] ens].
  Qed.

Lemma enrich_inv :
    synth_inv (DependencyGraph.store b) (DependencyGraph.AllNodes b) ens0 T
      (store g, AllNodes g, EnhancedDependencyGraph.EnhancedNodes g).
  Proof.
    pose proof (synth_inv_foldl (DependencyGraph.store b)
                  (DependencyGraph.AllNodes b) ens0 T []
                  (DependencyGraph.store b, DependencyGraph.AllNodes b, ens0))
      as Hinv.
    simpl in Hinv.
    assert (Hgoal : synth_inv (DependencyGraph.store b)
                      (DependencyGraph.AllNodes b) ens0 T
                      (foldl synth_step
                         (DependencyGraph.store b, DependencyGraph.AllNodes b, ens0) T)).
    { apply Hinv.
      - by rewrite ens0_dom.
      - apply (GetTransitiveDependencies_spec m (GetDirectDependencies modFile)).
      - apply synth_inv_init. }
    clear Hinv. unfold g, enrich, store, AllNodes. fold b. fold ens0. fold T.
    by destruct (foldl synth_step _ T) as [[h all] ens].
  Qed.

Lemma direct_deps_declared p :
    p ∈ GetDirectDependencies modFile → p ∈ dom (DependencyGraph.AllNodes b).
  Proof.
    intros Hp. destruct (BuildDependencyGraph_inv modFile) as [[_ _ Hdom _ _] _].
    simpl in Hdom. fold b in Hdom. rewrite Hdom.
    apply elem_of_union_r, elem_of_list_to_set.
    unfold GetDirectDependencies in Hp.
    apply list_elem_of_fmap in Hp as (r & -> & Hr).
    apply list_elem_of_filter in Hr as [_ Hr].
    apply list_elem_of_fmap. eauto.
  Qed.

Lemma lock_only_transitive p :
    p ∈ lock_paths m → p ∉ dom (DependencyGraph.AllNodes b) →
    p ∈ GoSumEntry.ModulePath <$> T.
  Proof.
    intros Hp Hnot. apply elem_of_lock_paths in Hp as (k & e & Hk & <-).
    destruct (GetTransitiveDependencies_spec m (GetDirectDependencies modFile))
      as (_ & _ & Hc).
    apply (Hc k e Hk). intros Hd. by apply Hnot, direct_deps_declared.
  Qed.

Lemma transitive_lock_paths p :
    p ∈ GoSumEntry.ModulePath <$> T → p ∈ lock_paths m.
  Proof.
    intros Hp. apply list_elem_of_fmap in Hp as (e & -> & He).
    destruct (GetTransitiveDependencies_spec m (GetDirectDependencies modFile))
      as (_ & Hs & _).
    destruct (Hs e He) as [[k Hk] _]. apply elem_of_lock_paths. eauto.
  Qed.

Lemma enrich_dom_AllNodes :
    dom (AllNodes g)
    = dom (DependencyGraph.AllNodes b)
      ∪ (lock_paths m ∖ dom (DependencyGraph.AllNodes b)).
  Proof.
    destruct enrich_inv as [_ _ _ Hdall _ _]. simpl in Hdall.
    rewrite Hdall, ens0_dom. apply set_eq. intros p.
    rewrite !elem_of_union, !elem_of_difference, elem_of_list_to_set.
    split; (intros [?|[? ?]]; [by left|right; split; [|done]]).
    - by apply transitive_lock_paths.
    - by apply lock_only_transitive.
  Qed.

Lemma enrich_dom_EnhancedNodes :
    dom (EnhancedDependencyGraph.EnhancedNodes g) = dom (AllNodes g).
  Proof.
    destruct enrich_inv as [_ _ _ Hdall Hdens _]. simpl in Hdall, Hdens.
    rewrite Hdall, Hdens, ens0_dom. apply set_eq. intros p.
    rewrite !elem_of_union, elem_of_difference.
    destruct (decide (p ∈ dom (DependencyGraph.AllNodes b))); tauto.
  Qed.

  (** Every module path of the lock entries has an enhanced node. *)
Lemma enrich_covers_lock k e :
    m !! k = Some e →
    is_Some (EnhancedDependencyGraph.EnhancedNodes g !! GoSumEntry.ModulePath e).
  Proof.
    intros Hk. apply elem_of_dom.
    rewrite enrich_dom_EnhancedNodes, enrich_dom_AllNodes.
    assert (GoSumEntry.ModulePath e ∈ lock_paths m)
      by (apply elem_of_lock_paths; eauto).
    rewrite elem_of_union, elem_of_difference.
    destruct (decide (GoSumEntry.ModulePath e ∈ dom (DependencyGraph.AllNodes b)));
      tauto.
  Qed.
End Enrich.

(** C1.  The node set of the enriched graph is the union of the nodes of
    the base graph (the root and the modules the manifest declares) and of
    the module paths that occur in the lock entries only; AllNodes and
    EnhancedNodes have the same keys; every lock-only module path has one
    node, direct=false, whose version and hash are those of one lock entry
    of that path, and the store holds exactly one Node object of that name
    however many versions the lock entries hold; the base graph's nodes are
    all kept, so the node count does not decrease. *)
Theorem C1_enriched_node_set `{MapRange}
    (modFile : File.t) (m : gmap string GoSumEntry.t) :
  let b := BuildDependencyGraph modFile in
  let g := enrich modFile m in
  dom (DependencyGraph.AllNodes b)
    = {[File.Module modFile]} ∪ list_to_set (Require.Path <$> File.Require modFile)
  ∧ dom (AllNodes g)
    = dom (DependencyGraph.AllNodes b)
      ∪ (lock_paths m ∖ dom (DependencyGraph.AllNodes b))
  ∧ dom (EnhancedDependencyGraph.EnhancedNodes g) = dom (AllNodes g)
  ∧ (∀ p, p ∈ lock_paths m → p ∉ dom (DependencyGraph.AllNodes b) →
       ∃ k e ptr,
         m !! k = Some e ∧ GoSumEntry.ModulePath e = p
         ∧ AllNodes g !! p = Some ptr
         ∧ store g !! ptr = Some (Node.mk p (GoSumEntry.Version e) false [])
         ∧ EnhancedDependencyGraph.EnhancedNodes g !! p
           = Some (EnhancedNode.new ptr (GoSumEntry.Hash e))
         ∧ length (filter (λ n, Node.Name n = p) (store g)) = 1%nat)
  ∧ DependencyGraph.AllNodes b ⊆ AllNodes g
  ∧ DependencyGraph.store b `prefix_of` store g
  ∧ (size (DependencyGraph.AllNodes b) ≤ size (AllNodes g))%nat.
Proof.
  intros b g. subst b g.
  pose proof (enrich_inv modFile m) as [(hs & Hh & Hhs) Hall Hens Hdall Hdens Hnew].
  simpl in *.
  destruct (BuildDependencyGraph_inv modFile) as [[_ _ Hdom _ Hstore] _].
  simpl in *.
  pose proof (GetTransitiveDependencies_spec m (GetDirectDependencies modFile))
    as (Hnd & Hsound & _). simpl in *.
  split; [done|]. split; [apply enrich_dom_AllNodes|].
  split; [apply enrich_dom_EnhancedNodes|].
  split; [|split; [done|split; [by exists hs|by apply map_subseteq_size]]].
  intros p Hp Hnot.
  pose proof (lock_only_transitive modFile m p Hp Hnot) as HpT.
  apply list_elem_of_fmap in HpT as (e & -> & He).
  destruct (Hsound e He) as [[k Hk] _].
  rewrite <- (ens0_dom modFile m) in Hnot.
  destruct (Hnew e He Hnot) as (ptr & Hp1 & Hp2 & Hp3).
  exists k, e, ptr. do 5 (split; [done|]).
  rewrite Hh, filter_app, length_app.
  rewrite (filter_name_nil Node.Name (DependencyGraph.store (BuildDependencyGraph modFile))).
  - simpl. apply filter_name_once.
    + rewrite Hhs. by apply NoDup_filter.
    + rewrite Hhs. apply list_elem_of_filter. split; [done|].
      apply list_elem_of_fmap. eauto.
  - intros Hin. apply list_elem_of_fmap in Hin as (n & Hn & Hin).
    apply Hstore in Hin. rewrite <- Hn in Hin.
    by rewrite (ens0_dom modFile m) in Hnot.
Qed.

(** ** The order of strings and [sort.Strings] *)

Lemma string_compare_refl s : String.compare s s = Eq.
Proof.
  induction s as [|a s IH]; [done|]. simpl.
  unfold Ascii.compare. by rewrite N.compare_refl.
Qed.

Lemma string_compare_Lt_trans s1 s2 s3 :
  String.compare s1 s2 = Lt → String.compare s2 s3 = Lt →
  String.compare s1 s3 = Lt.
Proof.
  revert s2 s3. induction s1 as [|a1 s1 IH]; intros [|a2 s2] [|a3 s3];
    simpl; try done.
  unfold Ascii.compare.
  destruct (N.compare_spec (Ascii.N_of_ascii a1) (Ascii.N_of_ascii a2)) as [E12|L12|G12];
    try done;
  destruct (N.compare_spec (Ascii.N_of_ascii a2) (Ascii.N_of_ascii a3)) as [E23|L23|G23];
    try done; intros H12 H23.
  - rewrite E12, E23, N.compare_refl. by eapply IH.
  - rewrite E12. by apply N.compare_lt_iff in L23 as ->.
  - rewrite <- E23. by apply N.compare_lt_iff in L12 as ->.
  - assert (Ascii.N_of_ascii a1 < Ascii.N_of_ascii a3)%N as Hlt by lia.
    by apply N.compare_lt_iff in Hlt as ->.
Qed.

Lemma string_le_lt_eq s t : string_le s t ↔ string_lt s t ∨ s = t.
Proof.
  unfold string_le, string_lt, String.leb, String.ltb.
  destruct (String.compare s t) eqn:Hc.
  - apply String.compare_eq_iff in Hc. naive_solver.
  - naive_solver.
  - split; [done|]. intros [?| ->]; [done|].
    by rewrite string_compare_refl in Hc.
Qed.

Lemma string_lt_irrefl s : ¬ string_lt s s.
Proof. unfold string_lt, String.ltb. by rewrite string_compare_refl. Qed.

Global Instance string_lt_trans : Transitive string_lt.
Proof.
  intros s1 s2 s3. unfold string_lt, String.ltb. intros H1 H2.
  destruct (String.compare s1 s2) eqn:H12; try done.
  destruct (String.compare s2 s3) eqn:H23; try done.
  by rewrite (string_compare_Lt_trans s1 s2 s3).
Qed.

Global Instance string_le_trans : Transitive string_le.
Proof.
  intros s1 s2 s3. rewrite !string_le_lt_eq.
  intros [H1| ->] [H2| ->]; try tauto.
  left. by trans s2.
Qed.

Global Instance string_le_antisym : AntiSymm (=) string_le.
Proof. intros s t. apply String.leb_antisym. Qed.

Global Instance string_le_total : Total string_le.
Proof. intros s t. apply String.leb_total. Qed.

Lemma sort_Strings_perm l : sort_Strings l ≡ₚ l.
Proof. apply merge_sort_Permutation. Qed.

Lemma sort_Strings_length l : length (sort_Strings l) = length l.
Proof. by rewrite sort_Strings_perm. Qed.

Lemma sort_Strings_sorted l : Sorted string_le (sort_Strings l).
Proof. apply Sorted_merge_sort, _. Qed.

Lemma StronglySorted_lt_le l :
  StronglySorted string_lt l → Sorted string_le l.
Proof.
  intros Hs. apply StronglySorted_Sorted.
  induction Hs as [|x l Hs IH Hall]; constructor; [done|].
  eapply Forall_impl; [exact Hall|]. intros y Hy.
  apply string_le_lt_eq. by left.
Qed.

Lemma StronglySorted_lt_NoDup l : StronglySorted string_lt l → NoDup l.
Proof.
  induction 1 as [|x l Hs IH Hall]; constructor; [|done].
  intros Hin. rewrite Forall_forall in Hall.
  by apply (string_lt_irrefl x), Hall.
Qed.

(** [sort.Strings] of distinct strings is the strictly ascending list of
    the same strings. *)
Lemma sort_Strings_unique raw vs :
  NoDup raw → StronglySorted string_lt vs →
  (list_to_set raw : gset string) = list_to_set vs →
  sort_Strings raw = vs.
Proof.
  intros Hnd Hs Hset.
  apply (Sorted_unique string_le).
  - apply sort_Strings_sorted.
  - by apply StronglySorted_lt_le.
  - rewrite sort_Strings_perm. apply NoDup_Permutation.
    + done.
    + by apply StronglySorted_lt_NoDup.
    + intros x.
      rewrite <- (elem_of_list_to_set (C := gset string) x raw), Hset.
      by rewrite elem_of_list_to_set.
Qed.

(** ** DetectVersionConflicts *)

Lemma versions_in_cons k e l p :
  versions_in ((k, e) :: l) p
  = if decide (GoSumEntry.ModulePath e = p)
    then GoSumEntry.Version e :: versions_in l p
    else versions_in l p.
Proof.
  unfold versions_in. rewrite fmap_cons. simpl snd. case_decide.
  - by rewrite filter_cons_True.
  - by rewrite filter_cons_False.
Qed.

Lemma group_foldl (vm : gmap string (list string))
    (l : list (string * GoSumEntry.t)) p :
  foldl group_step vm l !! p
  = if decide (versions_in l p = []) then vm !! p
    else Some (default [] (vm !! p) ++ versions_in l p).
Proof.
  revert vm. induction l as [|[k e] l IH]; intros vm.
  - done.
  - rewrite versions_in_cons. simpl foldl. rewrite IH. unfold group_step.
    simpl snd.
    destruct (decide (GoSumEntry.ModulePath e = p)) as [Heq|Hne].
    + rewrite Heq, lookup_insert_eq. simpl default.
      rewrite (decide_False (P := _ :: _ = [])) by done.
      case_decide as Hnil.
      * by rewrite Hnil.
      * by rewrite <- app_assoc.
    + by rewrite lookup_insert_ne by done.
Qed.

Lemma add_Conflicts_nil n : add_Conflicts [] n = n.
Proof. destruct n. unfold add_Conflicts. simpl. by rewrite app_nil_r. Qed.

Lemma add_Conflicts_snoc cs c n :
  EnhancedNode.add_Conflict c (add_Conflicts cs n) = add_Conflicts (cs ++ [c]) n.
Proof.
  unfold EnhancedNode.add_Conflict, add_Conflicts. simpl.
  by rewrite app_assoc.
Qed.

Lemma add_Conflicts_app cs1 cs2 n :
  add_Conflicts cs2 (add_Conflicts cs1 n) = add_Conflicts (cs1 ++ cs2) n.
Proof. unfold add_Conflicts. simpl. by rewrite app_assoc. Qed.

Lemma alter_add_Conflicts_nil p (ens : gmap string EnhancedNode.t) :
  alter (add_Conflicts []) p ens = ens.
Proof.
  apply map_eq. intros q. rewrite lookup_alter. case_decide; [|done].
  subst q. destruct (ens !! p); [|done]. simpl. by rewrite add_Conflicts_nil.
Qed.

Lemma conflict_loop p (sorted : list string) cs ens (n : nat) :
  (n < length sorted)%nat →
  foldl (conflict_step p sorted) (cs, ens) (seq 0 n)
  = (cs ++ ((λ v, VersionConflict.mk p (default "" (last sorted)) v
                    "Multiple versions in go.sum") <$> take n sorted),
     alter (add_Conflicts
              ((λ v, VersionConflict.mk p (default "" (last sorted)) v
                       "Multiple versions in go.sum") <$> take n sorted))
           p ens).
Proof.
  induction n as [|n IH]; intros Hn.
  - simpl. by rewrite app_nil_r, alter_add_Conflicts_nil.
  - rewrite seq_S, foldl_app, IH by lia. simpl.
    destruct (lookup_lt_is_Some_2 sorted n) as [v Hv]; [lia|].
    rewrite (take_S_r sorted n v Hv), fmap_app. simpl.
    assert (Hlast : sorted !!! (length sorted - 1)%nat = default "" (last sorted)).
    { rewrite last_lookup.
      replace (Nat.pred (length sorted)) with (length sorted - 1)%nat by lia.
      rewrite list_lookup_total_alt. done. }
    assert (Hi : sorted !!! n = v) by (by apply list_lookup_total_correct).
    rewrite Hlast, Hi. f_equal.
    + by rewrite <- app_assoc.
    + rewrite alter_alter_eq. apply alter_ext.
      intros en _. simpl. apply add_Conflicts_snoc.
Qed.

Lemma module_step_eq cs ens kv :
  module_step (cs, ens) kv
  = (cs ++ module_conflicts kv, alter (add_Conflicts (module_conflicts kv)) kv.1 ens).
Proof.
  destruct kv as [p vs]. unfold module_step, module_conflicts. simpl.
  case_decide as Hlen.
  - unfold conflicts_of. apply conflict_loop.
    rewrite sort_Strings_length. unfold len in Hlen. lia.
  - by rewrite app_nil_r, alter_add_Conflicts_nil.
Qed.

Lemma module_conflicts_path kv c :
  c ∈ module_conflicts kv → VersionConflict.ModulePath c = kv.1.
Proof.
  unfold module_conflicts, conflicts_of. case_decide; intros Hc.
  - by apply list_elem_of_fmap in Hc as (v & -> & _).
  - by apply elem_of_nil in Hc.
Qed.

Lemma filter_module_conflicts_eq kv :
  filter (λ c, VersionConflict.ModulePath c = kv.1) (module_conflicts kv)
  = module_conflicts kv.
Proof.
  pose proof (module_conflicts_path kv) as H.
  induction (module_conflicts kv) as [|c l IH]; [done|].
  rewrite filter_cons_True by (apply H; left).
  f_equal. apply IH. intros c' Hc'. apply H. by right.
Qed.

Lemma filter_module_conflicts_ne kv p :
  kv.1 ≠ p →
  filter (λ c, VersionConflict.ModulePath c = p) (module_conflicts kv) = [].
Proof.
  intros Hne. pose proof (module_conflicts_path kv) as H.
  induction (module_conflicts kv) as [|c l IH]; [done|].
  rewrite filter_cons_False by (rewrite H; [done|left]).
  apply IH. intros c' Hc'. apply H. by right.
Qed.

(** The loop over [versionMap], for a list [l] of its entries. *)
Lemma module_loop (l : list (string * list string)) cs ens :
  NoDup l.*1 →
  ∃ new ens',
    foldl module_step (cs, ens) l = (cs ++ new, ens')
    ∧ (∀ p, filter (λ c, VersionConflict.ModulePath c = p) new
            = match (list_to_map l : gmap string (list string)) !! p with
              | Some vs => module_conflicts (p, vs)
              | None => []
              end)
    ∧ (∀ p, ens' !! p
            = match (list_to_map l : gmap string (list string)) !! p with
              | Some vs => add_Conflicts (module_conflicts (p, vs)) <$> ens !! p
              | None => ens !! p
              end).
Proof.
  revert cs ens. induction l as [|[q vs] l IH]; intros cs ens Hnd.
  - exists [], ens. simpl. rewrite app_nil_r. split; [done|].
    split; intros p; by rewrite lookup_empty.
  - rewrite fmap_cons in Hnd. apply NoDup_cons in Hnd as [Hq Hnd].
    cbn [foldl fst snd]. rewrite module_step_eq. cbn [fst snd list_to_map foldr].
    destruct (IH (cs ++ module_conflicts (q, vs))
                 (alter (add_Conflicts (module_conflicts (q, vs))) q ens) Hnd)
      as (new & ens' & Hfold & Hnew & Hens).
    exists (module_conflicts (q, vs) ++ new), ens'.
    split; [by rewrite Hfold, app_assoc|].
    pose proof (not_elem_of_list_to_map_1 (M := gmap string) l q Hq) as Hnone.
    split; intros p.
    + rewrite filter_app, Hnew.
      destruct (decide (q = p)) as [->|Hne].
      * rewrite lookup_insert_eq, Hnone, app_nil_r.
        apply (filter_module_conflicts_eq (p, vs)).
      * rewrite lookup_insert_ne by done.
        by rewrite (filter_module_conflicts_ne (q, vs) p Hne).
    + rewrite Hens. destruct (decide (q = p)) as [->|Hne].
      * by rewrite lookup_insert_eq, Hnone, lookup_alter_eq.
      * by rewrite lookup_insert_ne, lookup_alter_ne by done.
Qed.

Lemma versions_in_perm l1 l2 p :
  l1 ≡ₚ l2 → versions_in l1 p ≡ₚ versions_in l2 p.
Proof. intros Hp. unfold versions_in. by rewrite Hp. Qed.

Lemma elem_of_versions_in l p v :
  v ∈ versions_in l p ↔
  ∃ k e, (k, e) ∈ l ∧ GoSumEntry.ModulePath e = p ∧ GoSumEntry.Version e = v.
Proof.
  unfold versions_in. rewrite list_elem_of_fmap. split.
  - intros (e & -> & He). apply list_elem_of_filter in He as [Hp He].
    apply list_elem_of_fmap in He as ([k e'] & -> & Hin). by exists k, e'.
  - intros (k & e & Hin & Hp & <-). exists e. split; [done|].
    apply list_elem_of_filter. split; [done|].
    apply list_elem_of_fmap. by exists (k, e).
Qed.

(** Entries keyed by "path@version" under distinct keys have distinct
    versions within one module path. *)
Lemma versions_in_NoDup (l : list (string * GoSumEntry.t)) p :
  NoDup l.*1 →
  (∀ k e, (k, e) ∈ l →
          k = GoSumEntry.ModulePath e +:+ "@" +:+ GoSumEntry.Version e) →
  NoDup (versions_in l p).
Proof.
  induction l as [|[k e] l IH]; intros Hnd Hkey.
  - constructor.
  - rewrite fmap_cons in Hnd. apply NoDup_cons in Hnd as [Hk Hnd].
    assert (IH' : NoDup (versions_in l p)).
    { apply IH; [done|]. intros k' e' Hin. apply Hkey. by right. }
    rewrite versions_in_cons. case_decide as Hp; [|done].
    constructor; [|done]. intros Hin.
    apply elem_of_versions_in in Hin as (k' & e' & Hin & Hp' & Hv').
    apply Hk. apply list_elem_of_fmap. exists (k', e'). split; [|done]. simpl.
    rewrite (Hkey k e) by left. rewrite (Hkey k' e') by (by right).
    by rewrite Hp, Hp', Hv'.
Qed.

Section Detect.
Context `{MapRange}.
Variable g : EnhancedDependencyGraph.t.

Lemma versionMap_lookup p :
    foldl group_step ∅ (range (EnhancedDependencyGraph.GoSumEntries g)) !! p
    = if decide (raw_versions g p = []) then None else Some (raw_versions g p).
  Proof. rewrite group_foldl. by rewrite lookup_empty. Qed.

  (** What the pass does: conflicts are appended to the list of the graph,
      the conflicts of a module path also to the node of that path, and
      nothing else changes. *)
Lemma DetectVersionConflicts_spec :
    ∃ new ens',
      DetectVersionConflicts g
      = EnhancedDependencyGraph.mk
          (EnhancedDependencyGraph.graph g) ens'
          (EnhancedDependencyGraph.GoSumEntries g)
          (EnhancedDependencyGraph.Conflicts g ++ new)
          (EnhancedDependencyGraph.SecurityIssues g)
          (EnhancedDependencyGraph.TotalSize g)
          (EnhancedDependencyGraph.BuildTime g)
          (EnhancedDependencyGraph.LicensesSummary g)
      ∧ (∀ p, filter (λ c, VersionConflict.ModulePath c = p) new
              = module_conflicts (p, raw_versions g p))
      ∧ (∀ p, ens' !! p
              = add_Conflicts (module_conflicts (p, raw_versions g p))
                <$> EnhancedDependencyGraph.EnhancedNodes g !! p).
  Proof.
    unfold DetectVersionConflicts.
    set (vm := foldl group_step ∅ _).
    destruct (module_loop (range vm) (EnhancedDependencyGraph.Conflicts g)
                (EnhancedDependencyGraph.EnhancedNodes g) (range_NoDup_fst vm))
      as (new & ens' & Hfold & Hnew & Hens).
    rewrite Hfold. exists new, ens'. split; [done|].
    assert (Hvm : (list_to_map (range vm) : gmap string (list string)) = vm).
    { rewrite (list_to_map_proper _ (map_to_list vm))
        by (apply range_NoDup_fst || apply range_perm).
      apply list_to_map_to_list. }
    rewrite Hvm in Hnew, Hens.
    split; intros p.
    - rewrite Hnew. unfold vm. rewrite versionMap_lookup.
      case_decide as Hraw; [|done]. by rewrite Hraw.
    - rewrite Hens. unfold vm. rewrite versionMap_lookup.
      case_decide as Hraw; [|done]. rewrite Hraw.
      destruct (_ !! p); [|done]. simpl. by rewrite add_Conflicts_nil.
  Qed.

Lemma raw_versions_set p :
    list_to_set (raw_versions g p)
    = versions_of (EnhancedDependencyGraph.GoSumEntries g) p.
  Proof.
    unfold versions_of, raw_versions. apply set_eq. intros v.
    rewrite !elem_of_list_to_set.
    by rewrite (versions_in_perm _ _ p (range_perm _ _)).
  Qed.

Lemma raw_versions_NoDup p :
    well_keyed (EnhancedDependencyGraph.GoSumEntries g) →
    NoDup (raw_versions g p).
  Proof.
    intros Hwk. apply versions_in_NoDup; [apply range_NoDup_fst|].
    intros k e Hin. apply range_elem_of in Hin. by apply (Hwk k e).
  Qed.

Lemma raw_versions_sorted p vs :
    well_keyed (EnhancedDependencyGraph.GoSumEntries g) →
    StronglySorted string_lt vs →
    list_to_set vs = versions_of (EnhancedDependencyGraph.GoSumEntries g) p →
    sort_Strings (raw_versions g p) = vs ∧ length (raw_versions g p) = length vs.
  Proof.
    intros Hwk Hs Hset.
    assert (Hsort : sort_Strings (raw_versions g p) = vs).
    { apply sort_Strings_unique; [by apply raw_versions_NoDup|done|].
      by rewrite raw_versions_set. }
    split; [done|]. by rewrite <- Hsort, sort_Strings_length.
  Qed.
End Detect.

Lemma conflicts_of_length p vs :
  length (conflicts_of p vs) = (length vs - 1)%nat.
Proof. unfold conflicts_of. rewrite length_fmap, length_take. lia. Qed.

(** The last element of an ascending list is its maximum. *)
Lemma sorted_last_max vs v :
  StronglySorted string_lt vs → v ∈ vs → string_le v (default "" (last vs)).
Proof.
  intros Hs. revert v. induction Hs as [|x l Hs IH Hall]; intros v Hv.
  - by apply elem_of_nil in Hv.
  - destruct l as [|y l'].
    + apply list_elem_of_singleton in Hv. subst v. simpl.
      apply string_le_lt_eq. by right.
    + change (last (x :: y :: l')) with (last (y :: l')).
      apply elem_of_cons in Hv as [->|Hv]; [|by apply IH].
      trans y.
      * apply string_le_lt_eq. left. by apply Forall_cons_1 in Hall as [? _].
      * apply IH. by left.
Qed.

(** C2.  On a graph whose lock entries are keyed by "path@version" and
    whose lock module paths all have an enhanced node, conflict detection
    appends to the graph-level list, for every module path p whose k distinct
    versions in ascending order are vs: when k >= 2, exactly the k-1
    records that pair each version but the last with the last one (the
    lexicographic maximum), in ascending order, with the reason
    "Multiple versions in go.sum", and appends the same records to the
    conflict list of the enhanced node of p; when k <= 1, no record for p,
    and the node of p is unchanged. *)
Theorem C2_version_conflicts `{MapRange} (g : EnhancedDependencyGraph.t) :
  well_keyed (EnhancedDependencyGraph.GoSumEntries g) →
  lock_covered g →
  ∃ new,
    EnhancedDependencyGraph.Conflicts (DetectVersionConflicts g)
    = EnhancedDependencyGraph.Conflicts g ++ new
    ∧ ∀ p vs,
        StronglySorted string_lt vs →
        list_to_set vs = versions_of (EnhancedDependencyGraph.GoSumEntries g) p →
        length vs = size (versions_of (EnhancedDependencyGraph.GoSumEntries g) p)
        ∧ (∀ v, v ∈ vs → string_le v (default "" (last vs)))
        ∧ ((2 ≤ length vs)%nat →
             filter (λ c, VersionConflict.ModulePath c = p) new
             = (λ v, VersionConflict.mk p (default "" (last vs)) v
                       "Multiple versions in go.sum")
               <$> take (length vs - 1) vs
             ∧ length (filter (λ c, VersionConflict.ModulePath c = p) new)
               = (length vs - 1)%nat
             ∧ ∃ en,
                 EnhancedDependencyGraph.EnhancedNodes g !! p = Some en
                 ∧ EnhancedDependencyGraph.EnhancedNodes
                     (DetectVersionConflicts g) !! p
                   = Some (add_Conflicts (conflicts_of p vs) en))
        ∧ ((length vs ≤ 1)%nat →
             filter (λ c, VersionConflict.ModulePath c = p) new = []
             ∧ EnhancedDependencyGraph.EnhancedNodes
                 (DetectVersionConflicts g) !! p
               = EnhancedDependencyGraph.EnhancedNodes g !! p).
Proof.
  intros Hwk Hcov.
  destruct (DetectVersionConflicts_spec g) as (new & ens' & -> & Hnew & Hens).
  exists new. split; [done|]. simpl.
  intros p vs Hs Hset.
  destruct (raw_versions_sorted g p vs Hwk Hs Hset) as [Hsort Hlen].
  split; [|split; [|split]].
  - rewrite <- Hset. symmetry. apply size_list_to_set.
    by apply StronglySorted_lt_NoDup.
  - intros v. by apply sorted_last_max.
  - intros Hk. rewrite Hnew, Hens. unfold module_conflicts. cbn [fst snd].
    assert (Hgt : 1 < len (raw_versions g p)) by (unfold len; lia).
    rewrite (decide_True (P := 1 < len (raw_versions g p))) by done.
    rewrite Hsort.
    split; [done|]. split; [apply conflicts_of_length|].
    assert (Hin : default "" (last vs) ∈ raw_versions g p).
    { rewrite <- (elem_of_list_to_set (C := gset string)).
      rewrite raw_versions_set, <- Hset, elem_of_list_to_set.
      destruct (last vs) as [x|] eqn:Hl.
      - simpl. rewrite last_lookup in Hl. eapply list_elem_of_lookup_2, Hl.
      - apply last_None in Hl. rewrite Hl in Hk. simpl in Hk. lia. }
    apply elem_of_versions_in in Hin as (k & e & Hin & Hp & _).
    apply range_elem_of in Hin.
    destruct (Hcov k e Hin) as [en Hen]. simpl in Hen. rewrite Hp in Hen.
    exists en. by rewrite Hen.
  - intros Hk. rewrite Hnew, Hens. unfold module_conflicts. cbn [fst snd].
    assert (Hgt : ¬ 1 < len (raw_versions g p)) by (unfold len; lia).
    rewrite (decide_False (P := 1 < len (raw_versions g p))) by done.
    split; [done|]. destruct (_ !! p); [|done]. simpl.
    by rewrite add_Conflicts_nil.
Qed.

(** The instance of section 8: {A@v1, A@v2, A@v3} gives two conflicts,
    both against v3. *)
Lemma C2_version_conflicts_witness :
  ∃ new,
    EnhancedDependencyGraph.Conflicts
      (@DetectVersionConflicts canonical_range three_versions_graph)
    = EnhancedDependencyGraph.Conflicts three_versions_graph ++ new
    ∧ filter (λ c, VersionConflict.ModulePath c = "A") new
      = [VersionConflict.mk "A" "v3" "v1" "Multiple versions in go.sum";
         VersionConflict.mk "A" "v3" "v2" "Multiple versions in go.sum"].
Proof.
  destruct (@C2_version_conflicts canonical_range three_versions_graph)
    as (new & Hnew & Hspec).
  - apply (bool_decide_unpack _). vm_compute. reflexivity.
  - apply (bool_decide_unpack _). vm_compute. reflexivity.
  - exists new. split; [exact Hnew|].
    destruct (Hspec "A" ["v1"; "v2"; "v3"]) as (_ & _ & Hk & _).
    + apply (bool_decide_unpack _). vm_compute. reflexivity.
    + apply (bool_decide_unpack _). vm_compute. reflexivity.
    + destruct Hk as (Hf & _); [simpl; lia|]. exact Hf.
Defined.

Example three_versions_conflicts :
  EnhancedDependencyGraph.Conflicts
    (@DetectVersionConflicts canonical_range three_versions_graph)
  = [VersionConflict.mk "A" "v3" "v1" "Multiple versions in go.sum";
     VersionConflict.mk "A" "v3" "v2" "Multiple versions in go.sum"].
Proof. vm_compute. reflexivity. Qed.

(** ** CheckSecurity *)

Lemma add_SecurityIssues_nil n : add_SecurityIssues [] n = n.
Proof. destruct n. unfold add_SecurityIssues. simpl. by rewrite app_nil_r. Qed.

Lemma sec_state_nil name ens issues : sec_state name ens issues [] = (ens, issues).
Proof.
  unfold sec_state. rewrite app_nil_r. f_equal.
  apply map_eq. intros q. rewrite lookup_alter. case_decide; [|done].
  subst q. destruct (ens !! name); [|done]. simpl.
  by rewrite add_SecurityIssues_nil.
Qed.

Lemma report_sec_state name i ens issues acc :
  report name i (sec_state name ens issues acc)
  = sec_state name ens issues (acc ++ [i]).
Proof.
  unfold report, sec_state. simpl. f_equal.
  - rewrite alter_alter_eq. apply alter_ext. intros en _.
    unfold EnhancedNode.add_SecurityIssue, add_SecurityIssues. simpl.
    by rewrite app_assoc.
  - by rewrite app_assoc.
Qed.

Lemma report_if (c : bool) name i ens issues acc :
  (if c then report name i (sec_state name ens issues acc)
   else sec_state name ens issues acc)
  = sec_state name ens issues (acc ++ if c then [i] else []).
Proof.
  destruct c; [apply report_sec_state|by rewrite app_nil_r].
Qed.

Lemma report_if_dec P `{Decision P} name i ens issues acc :
  (if decide P then report name i (sec_state name ens issues acc)
   else sec_state name ens issues acc)
  = sec_state name ens issues (acc ++ if decide P then [i] else []).
Proof.
  destruct (decide P); [apply report_sec_state|by rewrite app_nil_r].
Qed.

Lemma security_step_eq h rootName ens issues name node :
  security_step h rootName (ens, issues) (name, node)
  = sec_state name ens issues (issues_for h rootName (name, node)).
Proof.
  unfold security_step, issues_for. cbn [fst snd].
  destruct (decide (name = rootName)); [by rewrite sec_state_nil|].
  rewrite <- (sec_state_nil name ens issues).
  unfold node_issues, all_rules, rule_issues, insecurePatterns.
  cbn [mbind list_bind foldl app].
  destruct (vulnerablePatterns !! name) as [issue|].
  - rewrite !report_if, report_if_dec. f_equal.
    rewrite !app_nil_r, <- !app_assoc. done.
  - rewrite !report_if, report_if_dec. f_equal.
    rewrite !app_nil_r, <- !app_assoc. done.
Qed.

(** The loop of [CheckSecurity], for a list [l] of entries of the map. *)
Lemma security_loop h rootName (l : list (string * EnhancedNode.t)) ens issues :
  NoDup l.*1 →
  ∃ ens',
    foldl (security_step h rootName) (ens, issues) l
    = (ens', issues ++ (l ≫= issues_for h rootName))
    ∧ ∀ q, ens' !! q
           = match (list_to_map l : gmap string EnhancedNode.t) !! q with
             | Some en =>
                 add_SecurityIssues (issues_for h rootName (q, en)) <$> ens !! q
             | None => ens !! q
             end.
Proof.
  revert ens issues. induction l as [|[name en] l IH]; intros ens issues Hnd.
  - exists ens. simpl. rewrite app_nil_r. split; [done|].
    intros q. by rewrite lookup_empty.
  - rewrite fmap_cons in Hnd. apply NoDup_cons in Hnd as [Hname Hnd].
    cbn [foldl]. rewrite security_step_eq. unfold sec_state.
    destruct (IH (alter (add_SecurityIssues (issues_for h rootName (name, en)))
                        name ens)
                 (issues ++ issues_for h rootName (name, en)) Hnd)
      as (ens' & Hfold & Hens).
    exists ens'. split.
    + rewrite Hfold. f_equal. rewrite <- app_assoc. done.
    + intros q. rewrite Hens. cbn [list_to_map foldr fst snd].
      pose proof (not_elem_of_list_to_map_1 (M := gmap string) l name Hname)
        as Hnone.
      destruct (decide (name = q)) as [->|Hne].
      * by rewrite lookup_insert_eq, Hnone, lookup_alter_eq.
      * by rewrite lookup_insert_ne, lookup_alter_ne by done.
Qed.

Section CheckSecurity.
Context `{MapRange}.
Variable g : EnhancedDependencyGraph.t.

  (** What the pass does: the issues of every entry are appended to the
      node of the entry and to the list of the graph, and nothing else
      changes. *)
Lemma CheckSecurity_spec :
    let h := store g in
    let rootName := Node.Name (deref h (Root g)) in
    ∃ ens',
      CheckSecurity g
      = EnhancedDependencyGraph.mk
          (EnhancedDependencyGraph.graph g) ens'
          (EnhancedDependencyGraph.GoSumEntries g)
          (EnhancedDependencyGraph.Conflicts g)
          (EnhancedDependencyGraph.SecurityIssues g
             ++ (range (EnhancedDependencyGraph.EnhancedNodes g)
                   ≫= issues_for h rootName))
          (EnhancedDependencyGraph.TotalSize g)
          (EnhancedDependencyGraph.BuildTime g)
          (EnhancedDependencyGraph.LicensesSummary g)
      ∧ ∀ q, ens' !! q
             = (λ en, add_SecurityIssues (issues_for h rootName (q, en)) en)
               <$> EnhancedDependencyGraph.EnhancedNodes g !! q.
  Proof.
    intros h rootName. unfold CheckSecurity. fold h. fold rootName.
    set (ens := EnhancedDependencyGraph.EnhancedNodes g).
    destruct (security_loop h rootName (range ens) ens
                (EnhancedDependencyGraph.SecurityIssues g) (range_NoDup_fst ens))
      as (ens' & Hfold & Hens).
    rewrite Hfold. exists ens'. split; [done|].
    intros q. rewrite Hens.
    rewrite (list_to_map_proper _ (map_to_list ens))
      by (apply range_NoDup_fst || apply range_perm).
    rewrite list_to_map_to_list. by destruct (ens !! q).
  Qed.
End CheckSecurity.

(** Issues of different rules differ. *)
Lemma rule_issues_ID r name version i :
  i ∈ rule_issues r name version →
  match r with
  | KnownVulnerable =>
      SecurityIssue.ID i = "GHSA-example" ∨ SecurityIssue.ID i = "CVE-2023-example"
  | PreRelease => SecurityIssue.ID i = "DEV-VERSION"
  | OldDate => SecurityIssue.ID i = "OLD-VERSION"
  | InsecureName => SecurityIssue.ID i = "INSECURE-CRYPTO"
  | NoVersion => SecurityIssue.ID i = "NO-VERSION"
  end.
Proof.
  destruct r; simpl.
  - destruct (vulnerablePatterns !! name) as [issue|] eqn:Hv;
      [|by intros ?%elem_of_nil].
    destruct (_ || _); [|by intros ?%elem_of_nil].
    intros ->%list_elem_of_singleton.
    unfold vulnerablePatterns in Hv. simpl in Hv.
    apply lookup_insert_Some in Hv as [[_ <-]|[_ Hv]]; [by left|].
    apply lookup_insert_Some in Hv as [[_ <-]|[_ Hv]]; [by right|].
    by rewrite lookup_empty in Hv.
  - destruct (_ || _); [|by intros ?%elem_of_nil].
    by intros ->%list_elem_of_singleton.
  - destruct (_ || _); [|by intros ?%elem_of_nil].
    by intros ->%list_elem_of_singleton.
  - unfold insecurePatterns. cbn [mbind list_bind].
    rewrite !elem_of_app.
    intros [Hi|[Hi|[Hi|Hi]]]; [| | |by apply elem_of_nil in Hi];
      (destruct (Contains name _); [|by apply elem_of_nil in Hi]);
      by apply list_elem_of_singleton in Hi as ->.
  - case_decide; [|by intros ?%elem_of_nil].
    by intros ->%list_elem_of_singleton.
Qed.

Lemma rule_issues_distinct r1 r2 name version i1 i2 :
  r1 ≠ r2 →
  i1 ∈ rule_issues r1 name version → i2 ∈ rule_issues r2 name version →
  SecurityIssue.ID i1 ≠ SecurityIssue.ID i2.
Proof.
  intros Hne H1%rule_issues_ID H2%rule_issues_ID Heq.
  destruct r1, r2; try done; rewrite Heq in H1;
    repeat match goal with H : _ ∨ _ |- _ => destruct H end; congruence.
Qed.

Lemma rule_issues_node_issues r name version i :
  i ∈ rule_issues r name version → i ∈ node_issues name version.
Proof.
  intros Hi. unfold node_issues. apply list_elem_of_bind.
  exists r. split; [done|]. unfold all_rules. destruct r; set_solver.
Qed.

(** The issues of a node whose version is empty or "v0.0.0": the rules
    on the version raise nothing. *)
Lemma node_issues_no_version name version :
  version = "" ∨ version = "v0.0.0" →
  node_issues name version
  = rule_issues InsecureName name version ++ [issue_NO_VERSION].
Proof.
  intros Hv. unfold node_issues, all_rules. cbn [mbind list_bind].
  assert (Hk : rule_issues KnownVulnerable name version = []).
  { simpl. destruct (vulnerablePatterns !! name); [|done].
    by destruct Hv as [-> | ->]. }
  assert (Hp : rule_issues PreRelease name version = [])
    by (simpl; by destruct Hv as [-> | ->]).
  assert (Ho : rule_issues OldDate name version = [])
    by (simpl; by destruct Hv as [-> | ->]).
  assert (Hn : rule_issues NoVersion name version = [issue_NO_VERSION])
    by (simpl; by rewrite decide_True).
  rewrite Hk, Hp, Ho, Hn. simpl. by rewrite app_nil_r.
Qed.

Lemma no_version_no_DEV_VERSION name version :
  version = "" ∨ version = "v0.0.0" →
  issue_NO_VERSION ∈ node_issues name version
  ∧ issue_DEV_VERSION ∉ node_issues name version.
Proof.
  intros Hv. rewrite node_issues_no_version by done. split.
  - apply elem_of_app. right. apply list_elem_of_singleton. done.
  - intros [Hin|Hin]%elem_of_app.
    + apply rule_issues_ID in Hin. simpl in Hin. discriminate Hin.
    + apply list_elem_of_singleton in Hin. discriminate Hin.
Qed.

(** C8, as the code has it.  [CheckSecurity] evaluates every rule on every
    node but the root and appends the issues of all rules that match, in
    the order of the rules: the node's list becomes its former list followed
    by those issues, every issue raised by a rule is in the node's list and
    in the list of the graph, issues raised by different rules are different
    records, the node registered under the root's name receives nothing,
    and the list of the graph grows by the issues of all nodes.  A version
    with a pre-release marker and an old date stamp receives the two issues
    DEV-VERSION and OLD-VERSION.  The rule on missing versions and the rule
    on pre-release markers never meet: a node whose version is empty or
    "v0.0.0" receives NO-VERSION and no DEV-VERSION. *)
Theorem C8_security_rules_additive `{MapRange} (g : EnhancedDependencyGraph.t) :
  wf_graph g →
  let g' := CheckSecurity g in
  let rootName := Node.Name (deref (store g) (Root g)) in
  (∀ name en,
     EnhancedDependencyGraph.EnhancedNodes g !! name = Some en →
     name ≠ rootName →
     let version := Node.Version (deref (store g) (EnhancedNode.node en)) in
     EnhancedDependencyGraph.EnhancedNodes g' !! name
     = Some (add_SecurityIssues (all_rules ≫= λ r, rule_issues r name version) en)
     ∧ (∀ r i, i ∈ rule_issues r name version →
          i ∈ EnhancedNode.SecurityIssues
                (add_SecurityIssues (all_rules ≫= λ r, rule_issues r name version) en)
          ∧ i ∈ EnhancedDependencyGraph.SecurityIssues g')
     ∧ (∀ r1 r2 i1 i2, r1 ≠ r2 →
          i1 ∈ rule_issues r1 name version →
          i2 ∈ rule_issues r2 name version →
          i1 ≠ i2)
     ∧ (rule_issues PreRelease name version ≠ [] →
        rule_issues OldDate name version ≠ [] →
        ∃ l1 l2 l3,
          all_rules ≫= (λ r, rule_issues r name version)
          = l1 ++ issue_DEV_VERSION :: l2 ++ issue_OLD_VERSION :: l3
          ∧ issue_DEV_VERSION ≠ issue_OLD_VERSION)
     ∧ (version = "" ∨ version = "v0.0.0" →
        issue_NO_VERSION ∈ all_rules ≫= (λ r, rule_issues r name version)
        ∧ issue_DEV_VERSION ∉ all_rules ≫= (λ r, rule_issues r name version)))
  ∧ (∀ en,
       EnhancedDependencyGraph.EnhancedNodes g !! rootName = Some en →
       EnhancedDependencyGraph.EnhancedNodes g' !! rootName = Some en)
  ∧ ∃ new,
      EnhancedDependencyGraph.SecurityIssues g'
      = EnhancedDependencyGraph.SecurityIssues g ++ new
      ∧ new ≡ₚ map_to_list (EnhancedDependencyGraph.EnhancedNodes g)
                 ≫= issues_for (store g) rootName.
Proof.
  intros _ g' rootName. subst g' rootName.
  destruct (CheckSecurity_spec g) as (ens' & -> & Hens).
  set (rootName := Node.Name (deref (store g) (Root g))) in *.
  cbn [EnhancedDependencyGraph.EnhancedNodes
         EnhancedDependencyGraph.SecurityIssues].
  split; [|split].
  - intros name en Hen Hne.
    set (version := Node.Version (deref (store g) (EnhancedNode.node en))).
    assert (Hfor : issues_for (store g) rootName (name, en)
                   = node_issues name version).
    { unfold issues_for. cbn [fst snd]. by rewrite decide_False. }
    split; [|split; [|split; [|split]]].
    + rewrite Hens, Hen. simpl. by rewrite Hfor.
    + intros r i Hi. apply rule_issues_node_issues in Hi. split.
      * unfold add_SecurityIssues. simpl. apply elem_of_app. by right.
      * apply elem_of_app. right. apply list_elem_of_bind.
        exists (name, en). split; [by rewrite Hfor|]. by apply range_elem_of.
    + intros r1 r2 i1 i2 Hr H1 H2 Heq.
      apply (rule_issues_distinct r1 r2 name version i1 i2 Hr H1 H2).
      by rewrite Heq.
    + intros Hp Ho. unfold all_rules. cbn [mbind list_bind].
      assert (Hp' : rule_issues PreRelease name version = [issue_DEV_VERSION]).
      { simpl in *. by destruct (_ || _). }
      assert (Ho' : rule_issues OldDate name version = [issue_OLD_VERSION]).
      { simpl in *. by destruct (Contains version "20161208" || _ || _). }
      rewrite Hp', Ho'.
      exists (rule_issues KnownVulnerable name version), [],
        (rule_issues InsecureName name version
           ++ rule_issues NoVersion name version ++ []).
      split; [done|]. intros Heq. discriminate Heq.
    + intros Hv. by apply no_version_no_DEV_VERSION.
  - intros en Hen. rewrite Hens, Hen. simpl. unfold issues_for. cbn [fst snd].
    rewrite decide_True by done. by rewrite add_SecurityIssues_nil.
  - eexists. split; [done|]. by rewrite (range_perm _ _).
Qed.

(** A node without version whose path names an insecure primitive receives
    the two issues INSECURE-CRYPTO and NO-VERSION; a node whose version has
    a pre-release marker and an old date stamp receives the two issues
    DEV-VERSION and OLD-VERSION. *)
Lemma C8_security_rules_additive_witness :
  EnhancedDependencyGraph.EnhancedNodes
    (@CheckSecurity canonical_range insecure_graph) !! "example.com/crypto/md5"
  = Some (add_SecurityIssues [issue_INSECURE_CRYPTO; issue_NO_VERSION]
            (EnhancedNode.new 1 ""))
  ∧ EnhancedDependencyGraph.EnhancedNodes
      (@CheckSecurity canonical_range insecure_graph) !! "example.com/lib"
    = Some (add_SecurityIssues [issue_DEV_VERSION; issue_OLD_VERSION]
              (EnhancedNode.new 2 "")).
Proof.
  destruct (@C8_security_rules_additive canonical_range insecure_graph)
    as (Hnodes & _ & _).
  - apply (bool_decide_unpack _). vm_compute. reflexivity.
  - split.
    + destruct (Hnodes "example.com/crypto/md5" (EnhancedNode.new 1 ""))
        as (Hnode & _ & _).
      * vm_compute. reflexivity.
      * vm_compute. discriminate.
      * vm_compute in Hnode. vm_compute. exact Hnode.
    + destruct (Hnodes "example.com/lib" (EnhancedNode.new 2 ""))
        as (Hnode & _ & _).
      * vm_compute. reflexivity.
      * vm_compute. discriminate.
      * vm_compute in Hnode. vm_compute. exact Hnode.
Defined.

(** A pre-release version with an old date stamp receives DEV-VERSION and
    OLD-VERSION. *)
Example prerelease_and_old :
  node_issues "example.com/lib" "v1.0.0-rc1.20170301"
  = [issue_DEV_VERSION; issue_OLD_VERSION].
Proof. vm_compute. reflexivity. Qed.

(** C8, the instance of the specification.  No version is empty (or
    "v0.0.0") and contains a pre-release marker, so no node is in the case
    the specification describes.  Whatever the graph and the order of the
    iteration, the issues the pass appends to a node without version never
    include DEV-VERSION; a node without version whose path is plain receives
    one issue, NO-VERSION, not two. *)
Lemma C8_empty_version_never_prerelease :
  ¬ (∃ version,
       (version = "" ∨ version = "v0.0.0")
       ∧ Contains version "dev" || Contains version "alpha"
         || Contains version "beta" || Contains version "rc"
         || Contains version "snapshot" = true)
  ∧ ¬ (∃ (R : MapRange) (g : EnhancedDependencyGraph.t) name en en' new,
         EnhancedDependencyGraph.EnhancedNodes g !! name = Some en
         ∧ name ≠ Node.Name (deref (store g) (Root g))
         ∧ (Node.Version (deref (store g) (EnhancedNode.node en)) = ""
            ∨ Node.Version (deref (store g) (EnhancedNode.node en)) = "v0.0.0")
         ∧ EnhancedDependencyGraph.EnhancedNodes (@CheckSecurity R g) !! name
           = Some en'
         ∧ EnhancedNode.SecurityIssues en'
           = EnhancedNode.SecurityIssues en ++ new
         ∧ issue_DEV_VERSION ∈ new)
  ∧ EnhancedDependencyGraph.EnhancedNodes
      (@CheckSecurity canonical_range unversioned_graph) !! "example.com/lib"
    = Some (add_SecurityIssues [issue_NO_VERSION] (EnhancedNode.new 1 "")).
Proof.
  split; [|split].
  - intros (version & [-> | ->] & Hc); vm_compute in Hc; discriminate Hc.
  - intros (R & g & name & en & en' & new & Hen & Hne & Hv & Hen' & Hnew & Hin).
    destruct (@CheckSecurity_spec R g) as (ens' & Hg' & Hens).
    rewrite Hg' in Hen'. cbn [EnhancedDependencyGraph.EnhancedNodes] in Hen'.
    rewrite Hens, Hen in Hen'. simpl in Hen'. injection Hen' as <-.
    cbn [add_SecurityIssues EnhancedNode.SecurityIssues] in Hnew.
    apply app_inv_head in Hnew. subst new.
    unfold issues_for in Hin. cbn [fst snd] in Hin.
    rewrite decide_False in Hin by done.
    by apply (no_version_no_DEV_VERSION name _ Hv).
  - vm_compute. reflexivity.
Qed.

(** An empty version contains no pre-release marker: NO-VERSION and
    DEV-VERSION never meet on one node. *)
Lemma no_version_excludes_prerelease name version :
  rule_issues NoVersion name version ≠ [] →
  rule_issues PreRelease name version = [].
Proof.
  simpl. case_decide as Hv; [|done]. intros _.
  by destruct Hv as [-> | ->].
Qed.

(** ** The frame of conflict detection and of the security pass *)

Lemma same_but_lists_add_Conflicts cs en : same_but_lists en (add_Conflicts cs en).
Proof.
  unfold same_but_lists, add_Conflicts. simpl.
  do 7 (split; [done|]). split; [by eexists|done].
Qed.

Lemma same_but_lists_add_SecurityIssues iss en :
  same_but_lists en (add_SecurityIssues iss en).
Proof.
  unfold same_but_lists, add_SecurityIssues. simpl.
  do 7 (split; [done|]). split; [done|by eexists].
Qed.

Lemma fmap_lookup_dom {A} (f : string → A → A) (m m' : gmap string A) :
  (∀ k, m' !! k = f k <$> m !! k) → dom m' = dom m.
Proof.
  intros Hm. apply set_eq. intros k.
  by rewrite !elem_of_dom, Hm, fmap_is_Some.
Qed.

(** C10.  On a well-formed graph, conflict detection and the security
    pass leave the embedded graph (the store of nodes with their names,
    versions, direct flags and children, the root and AllNodes), the keys of
    EnhancedNodes, the lock entries and the license histogram as they are,
    and of every enhanced node the node pointer, hash, license and health
    fields; they only append to the conflict and issue lists of the graph
    and of the nodes.  Conflict detection appends no issue, the security
    pass no conflict. *)
Theorem C10_passes_frame `{MapRange} (g : EnhancedDependencyGraph.t) :
  wf_graph g →
  only_appends g (DetectVersionConflicts g)
  ∧ EnhancedDependencyGraph.SecurityIssues (DetectVersionConflicts g)
    = EnhancedDependencyGraph.SecurityIssues g
  ∧ (∀ k en', EnhancedDependencyGraph.EnhancedNodes (DetectVersionConflicts g)
                !! k = Some en' →
       ∃ en, EnhancedDependencyGraph.EnhancedNodes g !! k = Some en
             ∧ EnhancedNode.SecurityIssues en' = EnhancedNode.SecurityIssues en)
  ∧ only_appends g (CheckSecurity g)
  ∧ EnhancedDependencyGraph.Conflicts (CheckSecurity g)
    = EnhancedDependencyGraph.Conflicts g
  ∧ (∀ k en', EnhancedDependencyGraph.EnhancedNodes (CheckSecurity g)
                !! k = Some en' →
       ∃ en, EnhancedDependencyGraph.EnhancedNodes g !! k = Some en
             ∧ EnhancedNode.Conflicts en' = EnhancedNode.Conflicts en).
Proof.
  intros _.
  destruct (DetectVersionConflicts_spec g) as (new & ens1 & -> & _ & Hens1).
  destruct (CheckSecurity_spec g) as (ens2 & -> & Hens2).
  unfold only_appends.
  cbn [EnhancedDependencyGraph.graph EnhancedDependencyGraph.EnhancedNodes
       EnhancedDependencyGraph.GoSumEntries EnhancedDependencyGraph.Conflicts
       EnhancedDependencyGraph.SecurityIssues EnhancedDependencyGraph.TotalSize
       EnhancedDependencyGraph.BuildTime EnhancedDependencyGraph.LicensesSummary].
  split; [|split; [done|split; [|split; [|split; [done|]]]]].
  - do 5 (split; [done|]).
    split.
    { apply (fmap_lookup_dom
               (λ p, add_Conflicts (module_conflicts (p, raw_versions g p)))).
      exact Hens1. }
    split; [|split; [by eexists|done]].
    intros k en' Hk. rewrite Hens1 in Hk.
    destruct (EnhancedDependencyGraph.EnhancedNodes g !! k) as [en|]; [|done].
    simpl in Hk. injection Hk as <-. exists en. split; [done|].
    apply same_but_lists_add_Conflicts.
  - intros k en' Hk. rewrite Hens1 in Hk.
    destruct (EnhancedDependencyGraph.EnhancedNodes g !! k) as [en|]; [|done].
    simpl in Hk. injection Hk as <-. by exists en.
  - do 5 (split; [done|]).
    split.
    { apply (fmap_lookup_dom
               (λ q en, add_SecurityIssues
                          (issues_for (store g)
                             (Node.Name (deref (store g) (Root g))) (q, en)) en)).
      exact Hens2. }
    split; [|split; [done|by eexists]].
    intros k en' Hk. rewrite Hens2 in Hk.
    destruct (EnhancedDependencyGraph.EnhancedNodes g !! k) as [en|]; [|done].
    simpl in Hk. injection Hk as <-. exists en. split; [done|].
    apply same_but_lists_add_SecurityIssues.
  - intros k en' Hk. rewrite Hens2 in Hk.
    destruct (EnhancedDependencyGraph.EnhancedNodes g !! k) as [en|]; [|done].
    simpl in Hk. injection Hk as <-. by exists en.
Qed.

Lemma C10_passes_frame_witness :
  only_appends insecure_graph (@DetectVersionConflicts canonical_range insecure_graph)
  ∧ only_appends insecure_graph (@CheckSecurity canonical_range insecure_graph).
Proof.
  destruct (@C10_passes_frame canonical_range insecure_graph)
    as (Hd & _ & _ & Hs & _).
  - apply (bool_decide_unpack _). vm_compute. reflexivity.
  - split; [exact Hd | exact Hs].
Defined.

(** ** strings.Contains *)

Lemma append_String a s t : String a s +:+ t = String a (s +:+ t).
Proof. reflexivity. Qed.

Lemma append_empty t : "" +:+ t = t.
Proof. reflexivity. Qed.

Lemma HasPrefix_spec s p : HasPrefix s p = true ↔ ∃ post, s = p +:+ post.
Proof.
  revert s. induction p as [|b p IH]; intros s; simpl.
  - split; [intros _; by exists s|done].
  - destruct s as [|a s].
    + split; [done|]. intros (post & Hs). by rewrite append_String in Hs.
    + destruct (Ascii.eqb_spec a b) as [->|Hne].
      * rewrite IH. split; intros (post & Hs); exists post.
        -- by rewrite append_String, Hs.
        -- rewrite append_String in Hs. congruence.
      * split; [done|]. intros (post & Hs).
        rewrite append_String in Hs. congruence.
Qed.

Lemma Contains_spec s substr :
  Contains s substr = true ↔ ∃ pre post, s = pre +:+ substr +:+ post.
Proof.
  induction s as [|a s IH]; simpl.
  - rewrite orb_false_r, HasPrefix_spec. split.
    + intros (post & Hs). by exists "", post.
    + intros ([|c pre] & post & Hs); [by exists post|].
      by rewrite append_String in Hs.
  - rewrite orb_true_iff, HasPrefix_spec, IH. split.
    + intros [(post & Hs)|(pre & post & Hs)].
      * by exists "", post.
      * exists (String a pre), post. by rewrite append_String, Hs.
    + intros ([|c pre] & post & Hs).
      * left. by exists post.
      * right. exists pre, post. rewrite append_String in Hs. congruence.
Qed.

(** ** AnalyzeLicenses *)

Lemma license_step_eq ens summary kv :
  license_step (ens, summary) kv
  = (alter (EnhancedNode.set_License (license_of kv.1)) kv.1 ens,
     incr summary (license_of kv.1)).
Proof.
  unfold license_step, license_of.
  destruct (knownLicenses !! kv.1); [done|].
  destruct (Contains kv.1 "golang.org/x/"); [done|].
  by destruct (Contains kv.1 "github.com/mattn/").
Qed.

Lemma license_of_nonempty name : license_of name ≠ "".
Proof.
  unfold license_of. destruct (knownLicenses !! name) as [l|] eqn:Hl.
  - unfold knownLicenses in Hl. simpl in Hl.
    repeat (apply lookup_insert_Some in Hl as [[_ <-]|[_ Hl]]; [done|]).
    by rewrite lookup_empty in Hl.
  - destruct (Contains name "golang.org/x/"); [done|].
    by destruct (Contains name "github.com/mattn/").
Qed.

Lemma int_wrap_id z : - 2 ^ 63 ≤ z < 2 ^ 63 → int_wrap z = z.
Proof. intros Hz. unfold int_wrap. rewrite Z.mod_small; lia. Qed.

(** The histogram after the increments for the licenses [ls]. *)
Lemma foldl_incr_lookup (ls : list string) (summary : gmap string Z) L :
  let c := length (filter (λ l, l = L) ls) in
  0 ≤ default 0 (summary !! L) →
  default 0 (summary !! L) + Z.of_nat c ≤ int_max →
  foldl incr summary ls !! L
  = if decide (c = 0%nat) then summary !! L
    else Some (default 0 (summary !! L) + Z.of_nat c).
Proof.
  revert summary. induction ls as [|x ls IH]; intros summary c H0 Hmax.
  - done.
  - cbn [foldl]. subst c. unfold int_max in *.
    destruct (decide (x = L)) as [->|Hne].
    + rewrite filter_cons_True in * by done. cbn [length] in *.
      rewrite decide_False by done.
      assert (Hw : int_wrap (default 0 (summary !! L) + 1)
                   = default 0 (summary !! L) + 1)
        by (apply int_wrap_id; lia).
      rewrite IH; unfold incr; rewrite lookup_insert_eq, Hw; simpl; [|lia|lia].
      case_decide as Hc; [rewrite Hc|]; f_equal; lia.
    + rewrite filter_cons_False in * by done.
      rewrite IH; unfold incr; rewrite lookup_insert_ne by done; done.
Qed.

Lemma license_loop (l : list (string * EnhancedNode.t)) ens summary :
  NoDup l.*1 →
  ∃ ens',
    foldl license_step (ens, summary) l
    = (ens', foldl incr summary (license_of <$> l.*1))
    ∧ ∀ k, ens' !! k
           = if decide (k ∈ l.*1)
             then EnhancedNode.set_License (license_of k) <$> ens !! k
             else ens !! k.
Proof.
  revert ens summary. induction l as [|[name en] l IH]; intros ens summary Hnd.
  - exists ens. split; [done|]. intros k. rewrite decide_False; [done|].
    apply not_elem_of_nil.
  - rewrite fmap_cons in Hnd. apply NoDup_cons in Hnd as [Hname Hnd].
    cbn [foldl]. rewrite license_step_eq. cbn [fst snd].
    destruct (IH (alter (EnhancedNode.set_License (license_of name)) name ens)
                 (incr summary (license_of name)) Hnd)
      as (ens' & Hfold & Hens).
    exists ens'. split; [by rewrite Hfold|].
    intros k. rewrite Hens, fmap_cons. cbn [fst].
    destruct (decide (name = k)) as [->|Hne].
    + rewrite (decide_False (P := k ∈ l.*1)) by done.
      rewrite decide_True by left. by rewrite lookup_alter_eq.
    + rewrite lookup_alter_ne by done.
      destruct (decide (k ∈ l.*1)) as [Hin|Hnin].
      * by rewrite decide_True by (by right).
      * rewrite decide_False; [done|].
        intros [?|?]%elem_of_cons; [congruence|done].
Qed.

Lemma filter_fmap_length {A B} (f : A → B) (P : B → Prop)
    `{∀ x, Decision (P x)} (l : list A) :
  length (filter P (f <$> l)) = length (filter (λ x, P (f x)) l).
Proof.
  induction l as [|a l IH]; [done|]. rewrite fmap_cons.
  destruct (decide (P (f a))).
  - rewrite !filter_cons_True by done. simpl. by rewrite IH.
  - by rewrite !filter_cons_False by done.
Qed.

Section AnalyzeLicenses.
Context `{MapRange}.
Variable g : EnhancedDependencyGraph.t.

Lemma range_license_count L :
    length (filter (λ l, l = L)
              (license_of <$> (range (EnhancedDependencyGraph.EnhancedNodes g)).*1))
    = license_count (EnhancedDependencyGraph.EnhancedNodes g) L.
  Proof.
    unfold license_count. rewrite filter_fmap_length.
    by rewrite (range_perm _ _).
  Qed.

  (** What the pass does: every entry receives the license of its name,
      the histogram one increment per entry, and nothing else changes. *)
Lemma AnalyzeLicenses_spec :
    ∃ ens',
      AnalyzeLicenses g
      = EnhancedDependencyGraph.mk
          (EnhancedDependencyGraph.graph g) ens'
          (EnhancedDependencyGraph.GoSumEntries g)
          (EnhancedDependencyGraph.Conflicts g)
          (EnhancedDependencyGraph.SecurityIssues g)
          (EnhancedDependencyGraph.TotalSize g)
          (EnhancedDependencyGraph.BuildTime g)
          (foldl incr (EnhancedDependencyGraph.LicensesSummary g)
             (license_of
                <$> (range (EnhancedDependencyGraph.EnhancedNodes g)).*1))
      ∧ ∀ k, ens' !! k
             = EnhancedNode.set_License (license_of k)
               <$> EnhancedDependencyGraph.EnhancedNodes g !! k.
  Proof.
    unfold AnalyzeLicenses.
    set (ens := EnhancedDependencyGraph.EnhancedNodes g).
    destruct (license_loop (range ens) ens
                (EnhancedDependencyGraph.LicensesSummary g) (range_NoDup_fst ens))
      as (ens' & Hfold & Hens).
    rewrite Hfold. exists ens'. split; [done|].
    intros k. rewrite Hens. case_decide as Hin; [done|].
    destruct (ens !! k) as [en|] eqn:Hk; [|done].
    exfalso. apply Hin. apply list_elem_of_fmap. exists (k, en).
    split; [done|]. by apply range_elem_of.
  Qed.
End AnalyzeLicenses.

Lemma license_count_le ens L : (license_count ens L ≤ size ens)%nat.
Proof.
  unfold license_count.
  etrans; [apply length_filter|]. by rewrite length_fmap, length_map_to_list.
Qed.

Lemma license_count_dom (ens1 ens2 : gmap string EnhancedNode.t) L :
  dom ens1 = dom ens2 → license_count ens1 L = license_count ens2 L.
Proof.
  intros Hdom. unfold license_count.
  assert (Hperm : (map_to_list ens1).*1 ≡ₚ (map_to_list ens2).*1).
  { apply NoDup_Permutation; try apply NoDup_fst_map_to_list.
    intros k. rewrite !list_elem_of_fmap. 
    assert (Hk : ∀ (m : gmap string EnhancedNode.t),
               (∃ y : string * EnhancedNode.t, k = y.1 ∧ y ∈ map_to_list m)
               ↔ k ∈ dom m).
    { intros m. rewrite elem_of_dom. split.
      - intros ([k' v] & -> & Hin). apply elem_of_map_to_list in Hin. eauto.
      - intros [v Hv]. exists (k, v). split; [done|].
        by apply elem_of_map_to_list. }
    by rewrite !Hk, Hdom. }
  by rewrite Hperm.
Qed.

(** C9.  For a name outside the table of known licenses, the pass
    classifies by containment: a name that contains "golang.org/x/" at any
    offset is BSD-3-Clause, otherwise a name that contains
    "github.com/mattn/" at any offset is MIT, otherwise the license is
    "Unknown". *)
Theorem C9_license_by_containment `{MapRange}
    (g : EnhancedDependencyGraph.t) (name : string) (en : EnhancedNode.t) :
  EnhancedDependencyGraph.EnhancedNodes g !! name = Some en →
  knownLicenses !! name = None →
  ∃ license,
    EnhancedDependencyGraph.EnhancedNodes (AnalyzeLicenses g) !! name
    = Some (EnhancedNode.set_License license en)
    ∧ ((∃ pre post, name = pre +:+ "golang.org/x/" +:+ post) →
         license = "BSD-3-Clause")
    ∧ (¬ (∃ pre post, name = pre +:+ "golang.org/x/" +:+ post) →
       (∃ pre post, name = pre +:+ "github.com/mattn/" +:+ post) →
         license = "MIT")
    ∧ (¬ (∃ pre post, name = pre +:+ "golang.org/x/" +:+ post) →
       ¬ (∃ pre post, name = pre +:+ "github.com/mattn/" +:+ post) →
         license = "Unknown").
Proof.
  intros Hen Hknown.
  destruct (AnalyzeLicenses_spec g) as (ens' & -> & Hens).
  exists (license_of name). simpl. rewrite Hens, Hen. split; [done|].
  unfold license_of. rewrite Hknown.
  rewrite <- !Contains_spec.
  destruct (Contains name "golang.org/x/"),
           (Contains name "github.com/mattn/"); naive_solver.
Qed.

(** A path with "golang.org/x/" in the middle is BSD-3-Clause. *)
Lemma C9_license_by_containment_witness :
  EnhancedDependencyGraph.EnhancedNodes
    (@AnalyzeLicenses canonical_range mirror_graph)
    !! "example.com/mirror/golang.org/x/text"
  = Some (EnhancedNode.set_License "BSD-3-Clause" (EnhancedNode.new 1 "")).
Proof.
  destruct (@C9_license_by_containment canonical_range mirror_graph
              "example.com/mirror/golang.org/x/text" (EnhancedNode.new 1 ""))
    as (license & Hnode & Hbsd & _).
  - vm_compute. reflexivity.
  - vm_compute. reflexivity.
  - rewrite Hnode, Hbsd; [reflexivity|].
    exists "example.com/mirror/", "text". reflexivity.
Defined.

Example mattn_in_the_middle :
  license_of "example.com/forks/github.com/mattn/go-isatty" = "MIT".
Proof. vm_compute. reflexivity. Qed.

Example both_patterns_first_wins :
  license_of "golang.org/x/github.com/mattn/x" = "BSD-3-Clause".
Proof. vm_compute. reflexivity. Qed.

(** The histogram of a pass that starts from the histogram [summary]. *)
Lemma AnalyzeLicenses_summary `{MapRange} (g : EnhancedDependencyGraph.t) L :
  let c := license_count (EnhancedDependencyGraph.EnhancedNodes g) L in
  let v := default 0 (EnhancedDependencyGraph.LicensesSummary g !! L) in
  0 ≤ v → v + Z.of_nat c ≤ int_max →
  EnhancedDependencyGraph.LicensesSummary (AnalyzeLicenses g) !! L
  = if decide (c = 0%nat)
    then EnhancedDependencyGraph.LicensesSummary g !! L
    else Some (v + Z.of_nat c).
Proof.
  intros c v H0 Hmax.
  destruct (AnalyzeLicenses_spec g) as (ens' & -> & _). simpl.
  pose proof (foldl_incr_lookup
                (license_of <$> (range (EnhancedDependencyGraph.EnhancedNodes g)).*1)
                (EnhancedDependencyGraph.LicensesSummary g) L) as Hf.
  simpl in Hf. rewrite range_license_count in Hf. by apply Hf.
Qed.

(** C7.  On a graph whose histogram is empty, as enrichment leaves it, one
    invocation of the pass counts every enhanced node once under the license
    of its name: a license borne by c > 0 nodes gets the count c, a license
    borne by no node stays absent.  A second invocation resets nothing and
    counts every node again: the count of the license is then 2c, so that
    the histogram of two invocations has the keys of the histogram of one
    invocation and twice its counts. *)
Theorem C7_second_pass_doubles `{MapRange} (g : EnhancedDependencyGraph.t) :
  EnhancedDependencyGraph.LicensesSummary g = ∅ →
  2 * len_map (EnhancedDependencyGraph.EnhancedNodes g) ≤ int_max →
  ∀ license,
    let c := Z.of_nat (license_count
                         (EnhancedDependencyGraph.EnhancedNodes g) license) in
    EnhancedDependencyGraph.LicensesSummary (AnalyzeLicenses g) !! license
    = (if decide (c = 0) then None else Some c)
    ∧ EnhancedDependencyGraph.LicensesSummary
        (AnalyzeLicenses (AnalyzeLicenses g)) !! license
      = (if decide (c = 0) then None else Some (2 * c))
    ∧ EnhancedDependencyGraph.LicensesSummary
        (AnalyzeLicenses (AnalyzeLicenses g)) !! license
      = (λ count, 2 * count)
        <$> EnhancedDependencyGraph.LicensesSummary (AnalyzeLicenses g)
              !! license.
Proof.
  intros Hempty Hsize L c. subst c. unfold len_map in Hsize.
  pose proof (license_count_le (EnhancedDependencyGraph.EnhancedNodes g) L) as Hle.
  assert (H1 : EnhancedDependencyGraph.LicensesSummary (AnalyzeLicenses g) !! L
               = if decide (license_count
                              (EnhancedDependencyGraph.EnhancedNodes g) L = 0%nat)
                 then None
                 else Some (Z.of_nat (license_count
                              (EnhancedDependencyGraph.EnhancedNodes g) L))).
  { rewrite AnalyzeLicenses_summary; rewrite Hempty, lookup_empty; simpl;
      [done|lia|lia]. }
  assert (Hdom : dom (EnhancedDependencyGraph.EnhancedNodes (AnalyzeLicenses g))
                 = dom (EnhancedDependencyGraph.EnhancedNodes g)).
  { destruct (AnalyzeLicenses_spec g) as (ens' & -> & Hens). simpl.
    apply (fmap_lookup_dom (λ k, EnhancedNode.set_License (license_of k))).
    exact Hens. }
  pose proof (AnalyzeLicenses_summary (AnalyzeLicenses g) L) as H2.
  cbv zeta in H2. rewrite (license_count_dom _ _ L Hdom), H1 in H2.
  rewrite H1. revert H2.
  destruct (decide (license_count
                      (EnhancedDependencyGraph.EnhancedNodes g) L = 0%nat))
    as [Hc|Hc]; intros H2.
  - rewrite !decide_True by lia. rewrite H2; simpl; [done|lia|lia].
  - rewrite !decide_False by lia. rewrite H2; simpl; [|lia|lia].
    split; [done|]. split; f_equal; lia.
Qed.

(** The scenario graph has four nodes, the root among them, all of
    unknown license: 4 after one invocation, 8 after two. *)
Lemma C7_second_pass_doubles_witness :
  EnhancedDependencyGraph.LicensesSummary
    (@AnalyzeLicenses canonical_range scenario_graph) !! "Unknown" = Some 4
  ∧ EnhancedDependencyGraph.LicensesSummary
      (@AnalyzeLicenses canonical_range
         (@AnalyzeLicenses canonical_range scenario_graph)) !! "Unknown"
    = Some 8.
Proof.
  assert (Hempty : EnhancedDependencyGraph.LicensesSummary scenario_graph = ∅)
    by (vm_compute; reflexivity).
  assert (Hsize : 2 * len_map (EnhancedDependencyGraph.EnhancedNodes
                                 scenario_graph) ≤ int_max)
    by (vm_compute; discriminate).
  pose proof (@C7_second_pass_doubles canonical_range scenario_graph
                Hempty Hsize "Unknown") as Hc.
  cbv zeta in Hc. destruct Hc as (Hone & Htwo & _). split.
  - rewrite Hone. vm_compute. reflexivity.
  - rewrite Htwo. vm_compute. reflexivity.
Defined.

Example scenario_licenses_once :
  map_to_list (EnhancedDependencyGraph.LicensesSummary
                 (@AnalyzeLicenses canonical_range scenario_graph))
  = [("Unknown", 4)].
Proof. vm_compute. reflexivity. Qed.

Example scenario_licenses_twice :
  map_to_list (EnhancedDependencyGraph.LicensesSummary
                 (@AnalyzeLicenses canonical_range
                    (@AnalyzeLicenses canonical_range scenario_graph)))
  = [("Unknown", 8)].
Proof. vm_compute. reflexivity. Qed.

(** ** The sum of the histogram *)

Lemma summary_total_insert (S : gmap string Z) k v :
  S !! k = None → summary_total (<[k := v]> S) = v + summary_total S.
Proof.
  intros Hk. unfold summary_total.
  rewrite map_fold_insert_L; [done| |done]. intros. lia.
Qed.

Lemma summary_total_delete (S : gmap string Z) k v :
  S !! k = Some v → summary_total S = v + summary_total (delete k S).
Proof.
  intros Hk. unfold summary_total.
  rewrite (map_fold_delete_L _ _ k v S); [done| |done]. intros. lia.
Qed.

Lemma counts_total_incr S n x :
  0 ≤ n → n + 1 ≤ int_max →
  counts_total S n → counts_total (incr S x) (n + 1).
Proof.
  unfold int_max. intros Hn Hmax [Htot Hvals]. unfold incr.
  assert (Hv : 0 ≤ default 0 (S !! x) ≤ n
               ∧ summary_total S
                 = default 0 (S !! x) + summary_total (delete x S)).
  { destruct (S !! x) as [v|] eqn:Hx; simpl.
    - pose proof (Hvals x v Hx) as Hb. simpl in Hb.
      split; [lia|]. by apply summary_total_delete.
    - split; [lia|]. by rewrite delete_id. }
  destruct Hv as [Hb Hsplit].
  rewrite int_wrap_id by lia. split.
  - rewrite <- insert_delete_eq, summary_total_insert
      by apply lookup_delete_eq. lia.
  - intros k v Hk. apply lookup_insert_Some in Hk as [[<- <-]|[_ Hk]].
    + simpl. lia.
    + pose proof (Hvals k v Hk) as Hkv. simpl in *. lia.
Qed.

Lemma counts_total_foldl (ls : list string) S n :
  0 ≤ n → n + len ls ≤ int_max →
  counts_total S n → counts_total (foldl incr S ls) (n + len ls).
Proof.
  unfold len. revert S n. induction ls as [|x ls IH]; intros S n Hn Hmax Hc.
  - simpl. by rewrite Z.add_0_r.
  - cbn [foldl length] in *.
    replace (n + Z.of_nat (Datatypes.S (length ls)))
      with ((n + 1) + Z.of_nat (length ls)) in * by lia.
    apply IH; [lia|lia|]. apply counts_total_incr; [done|lia|done].
Qed.

(** One pass on an empty histogram counts every entry of EnhancedNodes:
    the root as well. *)
Lemma AnalyzeLicenses_total `{MapRange} (g : EnhancedDependencyGraph.t) :
  EnhancedDependencyGraph.LicensesSummary g = ∅ →
  len_map (EnhancedDependencyGraph.EnhancedNodes g) ≤ int_max →
  summary_total (EnhancedDependencyGraph.LicensesSummary (AnalyzeLicenses g))
  = len_map (EnhancedDependencyGraph.EnhancedNodes g).
Proof.
  intros Hempty Hsize.
  destruct (AnalyzeLicenses_spec g) as (ens' & -> & _). simpl. rewrite Hempty.
  set (ls := license_of <$> _).
  assert (Hlen : len ls = len_map (EnhancedDependencyGraph.EnhancedNodes g)).
  { unfold len, len_map, ls. by rewrite !length_fmap, range_length. }
  destruct (counts_total_foldl ls ∅ 0) as [Htot _]; [done|lia| |lia].
  split; [done|]. apply map_Forall_empty.
Qed.

(** Every node, the root included, has a license after the pass. *)
Lemma AnalyzeLicenses_nonempty `{MapRange} (g : EnhancedDependencyGraph.t) k en :
  EnhancedDependencyGraph.EnhancedNodes (AnalyzeLicenses g) !! k = Some en →
  EnhancedNode.License en = license_of k ∧ EnhancedNode.License en ≠ "".
Proof.
  destruct (AnalyzeLicenses_spec g) as (ens' & -> & Hens). simpl.
  rewrite Hens. destruct (_ !! k) as [en0|]; [|done]. simpl.
  intros [= <-]. simpl. split; [done|]. apply license_of_nonempty.
Qed.

(** ** Graphs built by enrichment are well formed *)

Section EnrichWf.
Context `{MapRange}.
Variable modFile : File.t.
Variable m : gmap string GoSumEntry.t.

Lemma enrich_root :
    Root (enrich modFile m) = 0%nat
    ∧ ∃ cs, store (enrich modFile m) !! 0%nat
            = Some (Node.mk (File.Module modFile) "main" true cs).
  Proof.
    destruct (enrich_fields modFile m) as (Hroot & _).
    destruct (BuildDependencyGraph_inv modFile)
      as [[(cs & Hcs & _) _ _ _ _] Hr].
    destruct (enrich_inv modFile m) as [(hs & Hh & _) _ _ _ _ _].
    simpl in *. split; [by rewrite Hroot|].
    exists cs. rewrite Hh. by apply lookup_app_l_Some.
  Qed.

Lemma enrich_rootName :
    Node.Name (deref (store (enrich modFile m)) (Root (enrich modFile m)))
    = File.Module modFile.
  Proof.
    destruct enrich_root as (-> & cs & Hcs). unfold deref.
    by rewrite (list_lookup_total_correct _ _ _ Hcs).
  Qed.

Lemma enrich_root_enhanced :
    File.Module modFile
    ∈ dom (EnhancedDependencyGraph.EnhancedNodes (enrich modFile m)).
  Proof.
    rewrite enrich_dom_EnhancedNodes, enrich_dom_AllNodes.
    destruct (BuildDependencyGraph_inv modFile) as [[_ _ Hdom _ _] _].
    simpl in Hdom. rewrite Hdom. set_solver.
  Qed.

Lemma enrich_wf : wf_graph (enrich modFile m).
  Proof.
    destruct (BuildDependencyGraph_inv modFile)
      as [[_ Hnames _ _ _] _].
    destruct (enrich_inv modFile m)
      as [(hs & Hh & _) Hall Hens Hdall Hdens Hnew].
    simpl in *.
    assert (Hbase : ∀ k p, DependencyGraph.AllNodes (BuildDependencyGraph modFile)
                             !! k = Some p →
                           is_Some (store (enrich modFile m) !! p)).
    { intros k p Hk. destruct (Hnames k p Hk) as (n & Hn & _).
      exists n. rewrite Hh. by apply lookup_app_l_Some. }
    assert (Hsynth : ∀ k, k ∈ dom (AllNodes (enrich modFile m)) →
              k ∉ dom (DependencyGraph.AllNodes (BuildDependencyGraph modFile)) →
              ∃ e ptr, AllNodes (enrich modFile m) !! k = Some ptr
                ∧ is_Some (store (enrich modFile m) !! ptr)
                ∧ EnhancedDependencyGraph.EnhancedNodes (enrich modFile m) !! k
                  = Some (EnhancedNode.new ptr (GoSumEntry.Hash e))).
    { intros k Hk Hnot. rewrite Hdall in Hk.
      apply elem_of_union in Hk as [Hk|Hk]; [done|].
      apply elem_of_difference in Hk as [Hk Hk0].
      apply elem_of_list_to_set, list_elem_of_fmap in Hk as (e & -> & He).
      destruct (Hnew e He Hk0) as (ptr & Hp1 & Hp2 & Hp3).
      exists e, ptr. split; [done|]. split; [by eexists|done]. }
    split; [|split].
    - destruct enrich_root as (-> & cs & Hcs). by eexists.
    - intros k p Hk.
      destruct (decide (k ∈ dom (DependencyGraph.AllNodes
                                   (BuildDependencyGraph modFile)))) as [Hin|Hnot].
      + apply elem_of_dom in Hin as [p' Hp'].
        pose proof (lookup_weaken _ _ _ _ Hp' Hall) as Hp''.
        rewrite Hk in Hp''. injection Hp'' as ->. by eapply Hbase.
      + destruct (Hsynth k) as (e & ptr & Hp1 & Hp2 & _);
          [apply elem_of_dom; eauto|done|].
        rewrite Hk in Hp1. by injection Hp1 as ->.
    - intros k en Hk.
      destruct (decide (k ∈ dom (DependencyGraph.AllNodes
                                   (BuildDependencyGraph modFile)))) as [Hin|Hnot].
      + apply elem_of_dom in Hin as [p' Hp'].
        assert (Hen : foldl (wrap_step
                        (DependencyGraph.store (BuildDependencyGraph modFile)) m) ∅
                        (range (DependencyGraph.AllNodes
                                  (BuildDependencyGraph modFile))) !! k
                      = Some (wrap_node
                                (DependencyGraph.store (BuildDependencyGraph modFile))
                                m k p'))
          by (by rewrite ens0_lookup, Hp').
        pose proof (lookup_weaken _ _ _ _ Hen Hens) as Hen'.
        rewrite Hk in Hen'. injection Hen' as ->. simpl. by eapply Hbase.
      + destruct (Hsynth k) as (e & ptr & _ & Hp2 & Hp3); [|done|].
        * rewrite <- enrich_dom_EnhancedNodes. apply elem_of_dom. eauto.
        * rewrite Hk in Hp3. by injection Hp3 as ->.
  Qed.

Lemma enrich_lock_covered : lock_covered (enrich modFile m).
  Proof.
    intros k e Hk. destruct (enrich_fields modFile m) as (_ & Hm & _).
    rewrite Hm in Hk. by apply (enrich_covers_lock modFile m k e).
  Qed.

  (** The nodes other than the root are all enhanced nodes but one. *)
Lemma enrich_non_root_size :
    (size (non_root_nodes (enrich modFile m)) + 1)%nat
    = size (EnhancedDependencyGraph.EnhancedNodes (enrich modFile m)).
  Proof.
    unfold non_root_nodes. rewrite enrich_rootName.
    set (ens := EnhancedDependencyGraph.EnhancedNodes (enrich modFile m)).
    assert (Hdel : filter (λ kv : string * EnhancedNode.t,
                             kv.1 ≠ File.Module modFile) ens
                   = delete (File.Module modFile) ens).
    { apply map_eq. intros k. apply option_eq. intros en.
      rewrite map_lookup_filter_Some, lookup_delete_Some. simpl. naive_solver. }
    rewrite Hdel.
    pose proof enrich_root_enhanced as Hin. fold ens in Hin.
    apply elem_of_dom in Hin as [en Hen].
    rewrite map_size_delete_Some by eauto.
    assert (size ens ≠ 0%nat); [|lia].
    intros Hz. apply map_size_empty_inv in Hz. rewrite Hz in Hen.
    by rewrite lookup_empty in Hen.
  Qed.
End EnrichWf.

(** C3, the code at the smallest input.  For a module without
    requirements and without go.sum the graph has no node but the root, yet
    one pass of license classification leaves the histogram
    {"Unknown": 1}, of sum 1: the pass counts the root, so the sum is
    the number of non-root nodes plus one. *)
Theorem C3_license_sum_counts_root :
  let g := @AnalyzeLicenses canonical_range lonely_graph in
  size (non_root_nodes g) = 0%nat
  ∧ EnhancedDependencyGraph.LicensesSummary g = {[ "Unknown" := 1 ]}
  ∧ summary_total (EnhancedDependencyGraph.LicensesSummary g) = 1.
Proof. vm_compute. done. Qed.

Lemma non_root_size (g : EnhancedDependencyGraph.t) :
  Node.Name (deref (store g) (Root g))
    ∈ dom (EnhancedDependencyGraph.EnhancedNodes g) →
  (size (non_root_nodes g) + 1)%nat
  = size (EnhancedDependencyGraph.EnhancedNodes g).
Proof.
  intros Hin. unfold non_root_nodes.
  set (r := Node.Name (deref (store g) (Root g))) in *.
  set (ens := EnhancedDependencyGraph.EnhancedNodes g) in *.
  assert (Hdel : filter (λ kv : string * EnhancedNode.t, kv.1 ≠ r) ens
                 = delete r ens).
  { apply map_eq. intros k. apply option_eq. intros en.
    rewrite map_lookup_filter_Some, lookup_delete_Some. simpl. naive_solver. }
  rewrite Hdel. apply elem_of_dom in Hin as [en Hen].
  rewrite map_size_delete_Some by eauto.
  assert (size ens ≠ 0%nat); [|lia].
  intros Hz. apply map_size_empty_inv in Hz. rewrite Hz in Hen.
  by rewrite lookup_empty in Hen.
Qed.

(** On every graph built by enrichment, one pass of license
    classification gives every node a license and a histogram whose sum is
    the number of non-root nodes plus one. *)
Lemma AnalyzeLicenses_counts_root `{MapRange}
    (modFile : File.t) (m : gmap string GoSumEntry.t) :
  let g := enrich modFile m in
  len_map (EnhancedDependencyGraph.EnhancedNodes g) ≤ int_max →
  (∀ k en, non_root_nodes (AnalyzeLicenses g) !! k = Some en →
           EnhancedNode.License en ≠ "")
  ∧ summary_total (EnhancedDependencyGraph.LicensesSummary (AnalyzeLicenses g))
    = Z.of_nat (size (non_root_nodes (AnalyzeLicenses g))) + 1.
Proof.
  intros g Hsize. split.
  - intros k en Hk. unfold non_root_nodes in Hk.
    apply map_lookup_filter_Some in Hk as [Hk _].
    by apply (AnalyzeLicenses_nonempty g k en).
  - destruct (enrich_fields modFile m) as (_ & _ & _ & _ & Hempty).
    rewrite AnalyzeLicenses_total by done.
    pose proof (non_root_size (AnalyzeLicenses g)) as Hnr.
    destruct (AnalyzeLicenses_spec g) as (ens' & Heq & Hens).
    assert (Hdom : dom ens' = dom (EnhancedDependencyGraph.EnhancedNodes g)).
    { apply (fmap_lookup_dom (λ k, EnhancedNode.set_License (license_of k))).
      exact Hens. }
    rewrite Heq in *. unfold store, Root in Hnr. simpl in Hnr.
    pose proof (enrich_rootName modFile m) as Hr. unfold store, Root in Hr.
    fold g in Hr. rewrite Hr, Hdom in Hnr.
    rewrite <- (size_dom ens'), Hdom, size_dom in Hnr.
    unfold len_map. rewrite <- Hnr; [lia|].
    apply enrich_root_enhanced.
Qed.

(** ** GetDependencyCount and GetStatistics *)

Lemma count_loop h rootName (l : list (string * nat)) (d i : Z) :
  let P (b : bool) := λ kv : string * nat,
        Node.Name (deref h kv.2) ≠ rootName ∧ Node.Direct (deref h kv.2) = b in
  0 ≤ d → 0 ≤ i → d + i + len l ≤ int_max →
  foldl (count_step h rootName) (d, i) l
  = (d + len (filter (P true) l), i + len (filter (P false) l)).
Proof.
  unfold len, int_max. revert d i.
  induction l as [|kv l IH]; intros d i Hd Hi Hmax.
  - simpl. by rewrite !Z.add_0_r.
  - cbn [foldl length] in *. unfold count_step at 2.
    pose proof (length_filter
      (λ kv : string * nat, Node.Name (deref h kv.2) ≠ rootName
                            ∧ Node.Direct (deref h kv.2) = true) l).
    pose proof (length_filter
      (λ kv : string * nat, Node.Name (deref h kv.2) ≠ rootName
                            ∧ Node.Direct (deref h kv.2) = false) l).
    case_decide as Hname.
    + destruct (Node.Direct (deref h kv.2)) eqn:Hdir.
      * rewrite int_wrap_id, IH by lia.
        rewrite filter_cons_True by done.
        rewrite filter_cons_False by (intros [_ ?]; congruence).
        cbn [length]. f_equal; lia.
      * rewrite int_wrap_id, IH by lia.
        rewrite filter_cons_False by (intros [_ ?]; congruence).
        rewrite filter_cons_True by done.
        cbn [length]. f_equal; lia.
    + rewrite IH by lia.
      rewrite !filter_cons_False by (by intros [? _]). done.
Qed.

Lemma filter_direct_split h rootName (l : list (string * nat)) :
  let P (b : bool) := λ kv : string * nat,
        Node.Name (deref h kv.2) ≠ rootName ∧ Node.Direct (deref h kv.2) = b in
  (length (filter (P true) l) + length (filter (P false) l) ≤ length l)%nat.
Proof.
  induction l as [|kv l IH]; [done|]. simpl in *.
  destruct (decide (Node.Name (deref h kv.2) ≠ rootName)) as [Hn|Hn];
    destruct (Node.Direct (deref h kv.2)) eqn:Hd.
  - rewrite filter_cons_True by done.
    rewrite filter_cons_False by (intros [_ ?]; congruence). simpl. lia.
  - rewrite filter_cons_False by (intros [_ ?]; congruence).
    rewrite filter_cons_True by done. simpl. lia.
  - rewrite !filter_cons_False by (by intros [? _]). simpl. lia.
  - rewrite !filter_cons_False by (by intros [? _]). simpl. lia.
Qed.

Lemma GetDependencyCount_spec `{MapRange} (g : DependencyGraph.t) :
  len_map (DependencyGraph.AllNodes g) ≤ int_max →
  GetDependencyCount g
  = (Z.of_nat (count_direct g true), Z.of_nat (count_direct g false))
  ∧ (count_direct g true + count_direct g false
     ≤ size (DependencyGraph.AllNodes g))%nat.
Proof.
  intros Hsize. unfold GetDependencyCount, count_direct, len_map in *.
  split.
  - rewrite count_loop; unfold len; rewrite ?range_length; [|done|done|lia].
    by rewrite !(range_perm _ _).
  - etrans; [apply filter_direct_split|]. by rewrite length_map_to_list.
Qed.

(** C6.  The statistics of a well-formed graph whose maps have sizes in
    the range of [int] have exactly the eight keys of section 4.6;
    total_dependencies is the size of AllNodes minus one, the direct and
    indirect counts are those of the nodes other than the root,
    transitive_dependencies is the number of lock entries minus the direct
    and the indirect count, an integer that is not clamped and is -1 for a
    module with one direct requirement and no go.sum; version_conflicts,
    security_issues and unique_licenses are the lengths of the lists and
    the size of the histogram, and licenses_breakdown is the histogram. *)
Theorem C6_statistics `{MapRange} :
  (∀ g : EnhancedDependencyGraph.t,
     wf_graph g →
     len_map (AllNodes g) ≤ int_max →
     len_map (EnhancedDependencyGraph.GoSumEntries g) ≤ int_max →
     let stats := GetStatistics g in
     let direct := Z.of_nat (count_direct (EnhancedDependencyGraph.graph g) true) in
     let indirect := Z.of_nat (count_direct (EnhancedDependencyGraph.graph g) false) in
     dom stats = list_to_set statistics_keys
     ∧ stats !! "total_dependencies" = Some (any_int (len_map (AllNodes g) - 1))
     ∧ stats !! "direct_dependencies" = Some (any_int direct)
     ∧ stats !! "indirect_dependencies" = Some (any_int indirect)
     ∧ stats !! "transitive_dependencies"
       = Some (any_int (len_map (EnhancedDependencyGraph.GoSumEntries g)
                        - direct - indirect))
     ∧ stats !! "version_conflicts"
       = Some (any_int (len (EnhancedDependencyGraph.Conflicts g)))
     ∧ stats !! "security_issues"
       = Some (any_int (len (EnhancedDependencyGraph.SecurityIssues g)))
     ∧ stats !! "unique_licenses"
       = Some (any_int (len_map (EnhancedDependencyGraph.LicensesSummary g)))
     ∧ stats !! "licenses_breakdown"
       = Some (any_map (EnhancedDependencyGraph.LicensesSummary g)))
  ∧ @GetStatistics canonical_range no_lock_graph !! "transitive_dependencies"
    = Some (any_int (-1)).
Proof.
  split; [|vm_compute; reflexivity].
  intros g _ Hall Hsum stats direct indirect. subst stats.
  unfold GetStatistics.
  destruct (GetDependencyCount_spec (EnhancedDependencyGraph.graph g) Hall)
    as [-> Hle].
  fold direct. fold indirect.
  assert (Hkeys : NoDup statistics_keys)
    by (apply (bool_decide_unpack _); vm_compute; reflexivity).
  assert (Hd : 0 ≤ direct ∧ 0 ≤ indirect
               ∧ direct + indirect ≤ len_map (AllNodes g))
    by (unfold direct, indirect, len_map, AllNodes; lia).
  unfold int_max, len_map in *.
  rewrite (int_wrap_id (_ - 1)) by lia.
  rewrite (int_wrap_id (_ - direct)) by lia.
  rewrite (int_wrap_id (_ - indirect)) by lia.
  split; [by rewrite dom_list_to_map_L|].
  repeat split;
    (apply elem_of_list_to_map_1; [exact Hkeys|];
     apply list_elem_of_In; simpl; auto 10).
Qed.

Lemma C6_statistics_witness :
  @GetStatistics canonical_range scenario_graph !! "total_dependencies"
    = Some (any_int 3)
  ∧ @GetStatistics canonical_range scenario_graph !! "direct_dependencies"
    = Some (any_int 1)
  ∧ @GetStatistics canonical_range scenario_graph !! "indirect_dependencies"
    = Some (any_int 2)
  ∧ @GetStatistics canonical_range scenario_graph !! "transitive_dependencies"
    = Some (any_int 0).
Proof.
  destruct (@C6_statistics canonical_range) as [Hstats _].
  destruct (Hstats scenario_graph)
    as (_ & Htotal & Hdirect & Hindirect & Htrans & _).
  - apply (bool_decide_unpack _). vm_compute. reflexivity.
  - vm_compute. discriminate.
  - vm_compute. discriminate.
  - rewrite Htotal, Hdirect, Hindirect, Htrans.
    clear Hstats Htotal Hdirect Hindirect Htrans.
    vm_compute. repeat split; reflexivity.
Defined.

(** ** ParseGoSum and the lock file *)

Lemma scan_line_well_keyed TrimSpace Fields entries text :
  well_keyed entries → well_keyed (scan_line TrimSpace Fields entries text).
Proof.
  intros Hwk. unfold scan_line. case_decide; [done|].
  destruct (Fields (TrimSpace text)) as [|modulePath [|version [|hash rest]]];
    try done.
  destruct (negb (HasSuffix version "/go.mod")); [|done].
  by apply map_Forall_insert_2.
Qed.

(** The entries [ParseGoSum] returns are keyed by "path@version". *)
Lemma ParseGoSum_well_keyed TrimSpace Fields fs m :
  ParseGoSum TrimSpace Fields fs = Ok m → well_keyed m.
Proof.
  unfold ParseGoSum. destruct (os_Open fs) as [[lines scanErr]|].
  - destruct scanErr; [done|]. intros [= <-].
    assert (Hgen : ∀ entries, well_keyed entries →
                     well_keyed (foldl (scan_line TrimSpace Fields) entries lines)).
    { induction lines as [|text lines IH]; intros entries Hwk; [done|].
      simpl. by apply IH, scan_line_well_keyed. }
    apply Hgen, map_Forall_empty.
  - intros [= <-]. apply map_Forall_empty.
Qed.

Lemma ParseGoSum_Err TrimSpace Fields fs e :
  ParseGoSum TrimSpace Fields fs = Err e
  ↔ (∃ lines, fs = Opened lines true) ∧ e = Errorf "error reading go.sum" ErrScan.
Proof.
  unfold ParseGoSum. destruct fs as [| |lines [|]]; simpl.
  - split; [done|]. by intros [[lines ?] _].
  - split; [done|]. by intros [[lines ?] _].
  - split.
    + intros [= <-]. split; [by exists lines|done].
    + by intros [_ ->].
  - split; [done|]. by intros [[lines' ?] _].
Qed.

Section NoLock.
Context `{MapRange}.

Lemma range_empty {V} : range (∅ : gmap string V) = [].
  Proof.
    apply Permutation_nil_r. rewrite (range_perm V ∅).
    by rewrite map_to_list_empty.
  Qed.

  (** Without lock entries the enriched graph is the base graph with its
      nodes wrapped. *)
Lemma enrich_empty (modFile : File.t) :
    let b := BuildDependencyGraph modFile in
    enrich modFile ∅
    = EnhancedDependencyGraph.mk b
        (foldl (wrap_step (DependencyGraph.store b) ∅) ∅
               (range (DependencyGraph.AllNodes b)))
        ∅ [] [] 0 0 ∅.
  Proof.
    intros b. unfold enrich, GetTransitiveDependencies. fold b.
    rewrite range_empty. simpl. by destruct b.
  Qed.

Lemma DetectVersionConflicts_empty g :
    EnhancedDependencyGraph.GoSumEntries g = ∅ →
    DetectVersionConflicts g = g.
  Proof.
    destruct g as [gr ens m cs iss ts bt ls]. simpl. intros ->.
    unfold DetectVersionConflicts. simpl.
    rewrite range_empty. simpl. by rewrite range_empty.
  Qed.
End NoLock.

(** C4, as the code has it.  The load of the lock file fails exactly
    when the file was opened and the scanner stopped with an error; that
    error aborts enrichment, and the commands stop before any analysis
    pass.  A lock file that cannot be opened, because it does not exist or
    for any other reason, gives the empty mapping: enrichment succeeds, the
    graph is the base graph of the manifest with one enhanced node per
    node, and conflict detection finds nothing. *)
Theorem C4_lock_loading `{MapRange}
    (TrimSpace : string → string) (Fields : string → list string)
    (modFile : File.t) :
  (∀ fs, load_fails TrimSpace Fields fs ↔ ∃ lines, fs = Opened lines true)
  ∧ (∀ lines,
       BuildEnhancedDependencyGraph TrimSpace Fields modFile (Opened lines true)
       = Err (Errorf "failed to parse go.sum"
                (Errorf "error reading go.sum" ErrScan))
       ∧ run_analysis TrimSpace Fields modFile (Opened lines true)
         = Err (Errorf "failed to build enhanced dependency graph"
                  (Errorf "failed to parse go.sum"
                     (Errorf "error reading go.sum" ErrScan))))
  ∧ (∀ fs, fs = Absent ∨ fs = Unopenable →
       ParseGoSum TrimSpace Fields fs = Ok ∅
       ∧ ∃ g,
           BuildEnhancedDependencyGraph TrimSpace Fields modFile fs = Ok g
           ∧ EnhancedDependencyGraph.GoSumEntries g = ∅
           ∧ EnhancedDependencyGraph.graph g = BuildDependencyGraph modFile
           ∧ dom (EnhancedDependencyGraph.EnhancedNodes g)
             = dom (DependencyGraph.AllNodes (BuildDependencyGraph modFile))
           ∧ EnhancedDependencyGraph.Conflicts (DetectVersionConflicts g) = []).
Proof.
  split; [|split].
  - intros fs. unfold load_fails. split.
    + intros [e He]. by apply ParseGoSum_Err in He as [? _].
    + intros [lines ->]. by eexists.
  - intros lines. by unfold run_analysis, BuildEnhancedDependencyGraph.
  - intros fs Hfs.
    assert (Hparse : ParseGoSum TrimSpace Fields fs = Ok ∅)
      by (by destruct Hfs as [-> | ->]).
    split; [done|]. exists (enrich modFile ∅).
    unfold BuildEnhancedDependencyGraph. rewrite Hparse.
    split; [done|]. rewrite enrich_empty. simpl.
    split; [done|]. split; [done|]. split.
    + apply (ens0_dom modFile ∅).
    + by rewrite DetectVersionConflicts_empty.
Qed.

Lemma C4_lock_loading_witness :
  ParseGoSum id space_fields Absent = Ok ∅
  ∧ ∃ g, @BuildEnhancedDependencyGraph canonical_range id space_fields
           scenario_manifest Absent = Ok g
         ∧ EnhancedDependencyGraph.Conflicts
             (@DetectVersionConflicts canonical_range g) = [].
Proof.
  destruct (@C4_lock_loading canonical_range id space_fields scenario_manifest)
    as (_ & _ & Hmissing).
  destruct (Hmissing Absent) as (Hparse & g & Hg & _ & _ & _ & Hc).
  - left. reflexivity.
  - split; [exact Hparse|]. exists g. split; [exact Hg | exact Hc].
Defined.

(** C4, the counterexample.  A lock file that is present but cannot be
    opened is unreadable, and its load does not fail: not every unreadable
    present lock file is fatal. *)
Lemma C4_unopenable_lock_not_fatal :
  ¬ (∀ fs, file_present fs → file_unreadable fs →
           load_fails id space_fields fs).
Proof.
  intros Hclaim. destruct (Hclaim Unopenable) as [e He]; [done|done|].
  discriminate He.
Qed.

Example unopenable_lock_enriches :
  @BuildEnhancedDependencyGraph canonical_range id space_fields
    scenario_manifest Unopenable
  = Ok (@enrich canonical_range scenario_manifest ∅).
Proof. reflexivity. Qed.

Example go_sum_lines :
  ParseGoSum id space_fields
    (Opened ["moduleA v1.2.0 h1:a"; "moduleA v1.2.0/go.mod h1:b"; ""; "x y"] false)
  = Ok {[ "moduleA@v1.2.0" := GoSumEntry.mk "moduleA" "v1.2.0" "h1:a" ]}.
Proof. vm_compute. reflexivity. Qed.

(** C1, on the scenario of section 8: moduleC comes from the lock file
    only and is synthesized once, as an indirect node. *)
Lemma C1_enriched_node_set_witness :
  ∃ k e ptr,
    scenario_lock !! k = Some e ∧ GoSumEntry.ModulePath e = "moduleC"
    ∧ AllNodes scenario_graph !! "moduleC" = Some ptr
    ∧ store scenario_graph !! ptr
      = Some (Node.mk "moduleC" (GoSumEntry.Version e) false [])
    ∧ EnhancedDependencyGraph.EnhancedNodes scenario_graph !! "moduleC"
      = Some (EnhancedNode.new ptr (GoSumEntry.Hash e))
    ∧ length (filter (λ n, Node.Name n = "moduleC") (store scenario_graph))
      = 1%nat.
Proof.
  destruct (@C1_enriched_node_set canonical_range scenario_manifest scenario_lock)
    as (_ & _ & _ & Hnew & _).
  apply (Hnew "moduleC").
  - apply (bool_decide_unpack _). vm_compute. reflexivity.
  - apply (bool_decide_unpack _). vm_compute. reflexivity.
Defined.

(** * Further properties of the code *)

(** ** parser.GetTransitiveDependencies *)

(** The transitive entries have pairwise distinct module paths; each one
    is an entry of the lock map whose module path is not a direct
    requirement; and every module path of the lock map that is not a direct
    requirement is the path of one of them. *)
Theorem transitive_dependencies_one_per_path `{MapRange}
    (goSumEntries : gmap string GoSumEntry.t) (directDeps : list string) :
  NoDup (GoSumEntry.ModulePath <$>
           GetTransitiveDependencies goSumEntries directDeps)
  ∧ Forall (λ e, (∃ k, goSumEntries !! k = Some e)
                 ∧ GoSumEntry.ModulePath e ∉ directDeps)
           (GetTransitiveDependencies goSumEntries directDeps)
  ∧ (∀ p, p ∈ GoSumEntry.ModulePath <$>
                GetTransitiveDependencies goSumEntries directDeps
          ↔ p ∈ lock_paths goSumEntries ∧ p ∉ directDeps).
Proof.
  destruct (GetTransitiveDependencies_spec goSumEntries directDeps)
    as (Hnd & Hsound & Hcompl).
  split; [exact Hnd|]. split.
  - apply Forall_forall. intros e He. by apply Hsound.
  - intros p. split.
    + intros Hp. apply list_elem_of_fmap in Hp as (e & -> & He).
      destruct (Hsound e He) as [[k Hk] Hd]. split; [|done].
      apply elem_of_lock_paths. eauto.
    + intros [Hp Hd]. apply elem_of_lock_paths in Hp as (k & e & Hk & <-).
      by apply (Hcompl k e).
Qed.

(** ** BuildEnhancedDependencyGraph: the shape of its result *)

Section EnrichShape.
Context `{MapRange}.
Variable modFile : File.t.
Variable m : gmap string GoSumEntry.t.

(** A node of the manifest keeps its address, and its enhanced node has
    the hash of the lock entry of its exact name and version, if any. *)
Lemma enrich_declared k p :
  DependencyGraph.AllNodes (BuildDependencyGraph modFile) !! k = Some p →
  AllNodes (enrich modFile m) !! k = Some p
  ∧ EnhancedDependencyGraph.EnhancedNodes (enrich modFile m) !! k
    = Some (wrap_node (DependencyGraph.store (BuildDependencyGraph modFile))
                      m k p)
  ∧ store (enrich modFile m) !! p
    = DependencyGraph.store (BuildDependencyGraph modFile) !! p.
Proof.
  intros Hk.
  destruct (BuildDependencyGraph_inv modFile) as [[_ Hnames _ _ _] _].
  destruct (enrich_inv modFile m) as [(hs & Hh & _) Hall Hens _ _ _].
  simpl in *. split; [|split].
  - by apply (lookup_weaken _ _ _ _ Hk Hall).
  - eapply lookup_weaken; [|exact Hens]. by rewrite ens0_lookup, Hk.
  - destruct (Hnames k p Hk) as (n & Hn & _).
    rewrite Hh, Hn. by apply lookup_app_l_Some.
Qed.

(** Every enhanced node wraps the node registered under its own name. *)
Lemma enrich_node_link k en :
  EnhancedDependencyGraph.EnhancedNodes (enrich modFile m) !! k = Some en →
  AllNodes (enrich modFile m) !! k = Some (EnhancedNode.node en)
  ∧ ∃ hash, en = EnhancedNode.new (EnhancedNode.node en) hash.
Proof.
  intros Hk.
  destruct (decide (k ∈ dom (DependencyGraph.AllNodes
                               (BuildDependencyGraph modFile)))) as [Hin|Hnot].
  - apply elem_of_dom in Hin as [p Hp].
    destruct (enrich_declared k p Hp) as (Hall & Hens & _).
    rewrite Hk in Hens. injection Hens as ->. split; [done|].
    by eexists.
  - destruct (enrich_inv modFile m) as [_ _ _ _ Hdens Hnew]. simpl in *.
    assert (Hd : k ∈ dom (EnhancedDependencyGraph.EnhancedNodes
                            (enrich modFile m)))
      by (apply elem_of_dom; eauto).
    rewrite Hdens, ens0_dom in Hd.
    apply elem_of_union in Hd as [Hd|Hd]; [done|].
    apply elem_of_list_to_set, list_elem_of_fmap in Hd as (e & -> & He).
    rewrite <- (ens0_dom modFile m) in Hnot.
    destruct (Hnew e He Hnot) as (ptr & Hp1 & _ & Hp3).
    rewrite Hk in Hp3. injection Hp3 as ->. split; [done|]. by eexists.
Qed.
End EnrichShape.

(** The graph enrichment returns is well formed: the root and every value
    of AllNodes and of EnhancedNodes point into the store, every module
    path of the lock entries has an enhanced node, each enhanced node wraps
    the node registered in AllNodes under the same name and starts with
    empty conflicts, issues and license, and the graph starts with the
    given lock entries and with no conflict, issue or license count. *)
Theorem enriched_graph_well_formed `{MapRange}
    (modFile : File.t) (m : gmap string GoSumEntry.t) :
  let g := enrich modFile m in
  wf_graph g
  ∧ lock_covered g
  ∧ (∀ k en, EnhancedDependencyGraph.EnhancedNodes g !! k = Some en →
       AllNodes g !! k = Some (EnhancedNode.node en)
       ∧ EnhancedNode.Conflicts en = []
       ∧ EnhancedNode.SecurityIssues en = []
       ∧ EnhancedNode.License en = "")
  ∧ EnhancedDependencyGraph.GoSumEntries g = m
  ∧ EnhancedDependencyGraph.Conflicts g = []
  ∧ EnhancedDependencyGraph.SecurityIssues g = []
  ∧ EnhancedDependencyGraph.LicensesSummary g = ∅.
Proof.
  intros g. subst g.
  destruct (enrich_fields modFile m) as (_ & Hm & Hc & Hs & Hl).
  split; [apply enrich_wf|]. split; [apply enrich_lock_covered|].
  split; [|done].
  intros k en Hk. destruct (enrich_node_link modFile m k en Hk) as [Hall [hash Hen]].
  split; [done|]. by rewrite Hen.
Qed.

(** The hash of a declared module is looked up under the exact key
    "name@version": it is the hash of that lock entry, and it is empty
    when the lock entries hold the module at other versions only. *)
Theorem declared_node_hash `{MapRange}
    (modFile : File.t) (m : gmap string GoSumEntry.t) (k : string) (p : nat)
    (n : Node.t) :
  DependencyGraph.AllNodes (BuildDependencyGraph modFile) !! k = Some p →
  DependencyGraph.store (BuildDependencyGraph modFile) !! p = Some n →
  ∃ en,
    EnhancedDependencyGraph.EnhancedNodes (enrich modFile m) !! k = Some en
    ∧ EnhancedNode.node en = p
    ∧ store (enrich modFile m) !! p = Some n
    ∧ (∀ e, m !! (k +:+ "@" +:+ Node.Version n) = Some e →
            EnhancedNode.Hash en = GoSumEntry.Hash e)
    ∧ (m !! (k +:+ "@" +:+ Node.Version n) = None →
            EnhancedNode.Hash en = "").
Proof.
  intros Hk Hn.
  destruct (enrich_declared modFile m k p Hk) as (_ & Hens & Hst).
  eexists. split; [exact Hens|]. split; [done|].
  split; [by rewrite Hst|].
  unfold wrap_node, deref. rewrite (list_lookup_total_correct _ _ _ Hn). simpl.
  split.
  - by intros e ->.
  - by intros ->.
Qed.

Lemma declared_node_hash_witness :
  ∃ en,
    EnhancedDependencyGraph.EnhancedNodes scenario_graph !! "moduleA" = Some en
    ∧ EnhancedNode.Hash en = "h1:a".
Proof.
  destruct (@declared_node_hash canonical_range scenario_manifest scenario_lock
              "moduleA" 1%nat (Node.mk "moduleA" "v1.2.0" true []))
    as (en & Hen & _ & _ & Hhash & _).
  - vm_compute. reflexivity.
  - vm_compute. reflexivity.
  - exists en. split; [exact Hen|].
    apply (Hhash (GoSumEntry.mk "moduleA" "v1.2.0" "h1:a")).
    vm_compute. reflexivity.
Defined.

(** ** parser.ParseGoSum: the entries it keeps *)

Lemma scan_line_no_go_mod TrimSpace Fields entries text :
  map_Forall (λ _ e, HasSuffix (GoSumEntry.Version e) "/go.mod" = false) entries →
  map_Forall (λ _ e, HasSuffix (GoSumEntry.Version e) "/go.mod" = false)
             (scan_line TrimSpace Fields entries text).
Proof.
  intros Hinv. unfold scan_line. case_decide; [done|].
  destruct (Fields (TrimSpace text)) as [|modulePath [|version [|hash rest]]];
    try done.
  destruct (HasSuffix version "/go.mod") eqn:Hs; simpl; [done|].
  by apply map_Forall_insert_2.
Qed.

Lemma foldl_scan_line_no_go_mod TrimSpace Fields lines acc :
  map_Forall (λ _ e, HasSuffix (GoSumEntry.Version e) "/go.mod" = false) acc →
  map_Forall (λ _ e, HasSuffix (GoSumEntry.Version e) "/go.mod" = false)
             (foldl (scan_line TrimSpace Fields) acc lines).
Proof.
  revert acc. induction lines as [|text lines IH]; intros acc Hacc; [done|].
  simpl. by apply IH, scan_line_no_go_mod.
Qed.

(** Whatever the lines of go.sum, every entry [ParseGoSum] returns is
    stored under the key "path@version" of its own fields, and no entry has
    a version that ends in "/go.mod": the hash lines of go.mod files are
    dropped. *)
Theorem ParseGoSum_entries
    (TrimSpace : string → string) (Fields : string → list string)
    (fs : FileState) (entries : gmap string GoSumEntry.t) :
  ParseGoSum TrimSpace Fields fs = Ok entries →
  ∀ k e, entries !! k = Some e →
    k = GoSumEntry.ModulePath e +:+ "@" +:+ GoSumEntry.Version e
    ∧ HasSuffix (GoSumEntry.Version e) "/go.mod" = false.
Proof.
  intros Hparse k e Hk. split.
  - by apply (ParseGoSum_well_keyed TrimSpace Fields fs entries Hparse k e).
  - revert Hparse. unfold ParseGoSum.
    destruct (os_Open fs) as [[lines scanErr]|].
    + destruct scanErr; [done|]. intros [= <-].
      apply (foldl_scan_line_no_go_mod TrimSpace Fields lines ∅
               (map_Forall_empty _) k e Hk).
    + intros [= <-]. by rewrite lookup_empty in Hk.
Qed.

Lemma ParseGoSum_entries_witness :
  "moduleA@v1.2.0" = "moduleA" +:+ "@" +:+ "v1.2.0"
  ∧ HasSuffix "v1.2.0" "/go.mod" = false.
Proof.
  apply (ParseGoSum_entries id space_fields
           (Opened ["moduleA v1.2.0 h1:a"; "moduleA v1.2.0/go.mod h1:b"] false)
           {[ "moduleA@v1.2.0" := GoSumEntry.mk "moduleA" "v1.2.0" "h1:a" ]}
           eq_refl "moduleA@v1.2.0" (GoSumEntry.mk "moduleA" "v1.2.0" "h1:a")).
  vm_compute. reflexivity.
Defined.

(** ** AnalyzeLicenses: counts and repetition *)

(** One pass on a graph with an empty histogram counts every entry of
    EnhancedNodes once: the sum of the histogram is the number of enhanced
    nodes, and every node has the license its name determines. *)
Theorem license_histogram_counts_every_node `{MapRange}
    (g : EnhancedDependencyGraph.t) :
  EnhancedDependencyGraph.LicensesSummary g = ∅ →
  len_map (EnhancedDependencyGraph.EnhancedNodes g) ≤ int_max →
  summary_total (EnhancedDependencyGraph.LicensesSummary (AnalyzeLicenses g))
  = len_map (EnhancedDependencyGraph.EnhancedNodes g)
  ∧ (∀ license,
       EnhancedDependencyGraph.LicensesSummary (AnalyzeLicenses g) !! license
       = if decide (license_count (EnhancedDependencyGraph.EnhancedNodes g)
                                  license = 0%nat)
         then None
         else Some (Z.of_nat (license_count
                                (EnhancedDependencyGraph.EnhancedNodes g) license)))
  ∧ (∀ k en,
       EnhancedDependencyGraph.EnhancedNodes (AnalyzeLicenses g) !! k = Some en →
       EnhancedNode.License en = license_of k ∧ EnhancedNode.License en ≠ "").
Proof.
  intros Hempty Hsize. split; [by apply AnalyzeLicenses_total|]. split.
  - intros L.
    pose proof (license_count_le (EnhancedDependencyGraph.EnhancedNodes g) L).
    unfold len_map in Hsize.
    rewrite AnalyzeLicenses_summary; rewrite Hempty, lookup_empty; simpl;
      [done|lia|lia].
  - intros k en. apply AnalyzeLicenses_nonempty.
Qed.

Lemma license_histogram_counts_every_node_witness :
  summary_total (EnhancedDependencyGraph.LicensesSummary
                   (@AnalyzeLicenses canonical_range scenario_graph))
  = len_map (EnhancedDependencyGraph.EnhancedNodes scenario_graph).
Proof.
  destruct (@license_histogram_counts_every_node canonical_range scenario_graph)
    as [Hsum _].
  - vm_compute. reflexivity.
  - vm_compute. discriminate.
  - exact Hsum.
Defined.

Lemma set_License_twice l en :
  EnhancedNode.set_License l (EnhancedNode.set_License l en)
  = EnhancedNode.set_License l en.
Proof. done. Qed.

(** A second pass of license classification changes no node: the licenses
    are those of the first pass, and only the histogram grows. *)
Theorem license_pass_keeps_nodes `{MapRange} (g : EnhancedDependencyGraph.t) :
  EnhancedDependencyGraph.EnhancedNodes (AnalyzeLicenses (AnalyzeLicenses g))
  = EnhancedDependencyGraph.EnhancedNodes (AnalyzeLicenses g)
  ∧ EnhancedDependencyGraph.graph (AnalyzeLicenses g)
    = EnhancedDependencyGraph.graph g
  ∧ EnhancedDependencyGraph.GoSumEntries (AnalyzeLicenses g)
    = EnhancedDependencyGraph.GoSumEntries g
  ∧ EnhancedDependencyGraph.Conflicts (AnalyzeLicenses g)
    = EnhancedDependencyGraph.Conflicts g
  ∧ EnhancedDependencyGraph.SecurityIssues (AnalyzeLicenses g)
    = EnhancedDependencyGraph.SecurityIssues g
  ∧ dom (EnhancedDependencyGraph.EnhancedNodes (AnalyzeLicenses g))
    = dom (EnhancedDependencyGraph.EnhancedNodes g).
Proof.
  destruct (AnalyzeLicenses_spec (AnalyzeLicenses g)) as (ens2 & Heq2 & Hens2).
  destruct (AnalyzeLicenses_spec g) as (ens1 & Heq1 & Hens1).
  rewrite Heq2. rewrite Heq1 in *. simpl in *.
  split; [|split; [done|split; [done|split; [done|split; [done|]]]]].
  - apply map_eq. intros k. rewrite Hens2, Hens1.
    by destruct (EnhancedDependencyGraph.EnhancedNodes g !! k).
  - apply (fmap_lookup_dom (λ k, EnhancedNode.set_License (license_of k))).
    exact Hens1.
Qed.

(** ** CheckSecurity: what a missing version excludes *)

(** A node other than the root whose version is empty or "v0.0.0"
    receives the NO-VERSION issue last, preceded only by one
    INSECURE-CRYPTO issue per insecure pattern its name contains: the rules
    on the version (known-vulnerable, pre-release, old date) cannot fire on
    it. *)
Theorem no_version_node_issues `{MapRange}
    (g : EnhancedDependencyGraph.t) (name : string) (en : EnhancedNode.t) :
  wf_graph g →
  EnhancedDependencyGraph.EnhancedNodes g !! name = Some en →
  name ≠ Node.Name (deref (store g) (Root g)) →
  Node.Version (deref (store g) (EnhancedNode.node en)) = ""
  ∨ Node.Version (deref (store g) (EnhancedNode.node en)) = "v0.0.0" →
  ∃ en',
    EnhancedDependencyGraph.EnhancedNodes (CheckSecurity g) !! name = Some en'
    ∧ EnhancedNode.SecurityIssues en'
      = EnhancedNode.SecurityIssues en
        ++ (insecurePatterns ≫=
              λ pattern, if Contains name pattern
                         then [issue_INSECURE_CRYPTO] else [])
        ++ [issue_NO_VERSION].
Proof.
  intros _ Hen Hne Hv.
  destruct (CheckSecurity_spec g) as (ens' & -> & Hens). simpl.
  rewrite Hens, Hen. simpl. eexists. split; [done|]. simpl.
  unfold issues_for. cbn [fst snd]. rewrite decide_False by done.
  unfold node_issues, all_rules. cbn [mbind list_bind].
  assert (Hk : rule_issues KnownVulnerable name
                 (Node.Version (deref (store g) (EnhancedNode.node en))) = []).
  { simpl. destruct (vulnerablePatterns !! name); [|done].
    by destruct Hv as [-> | ->]. }
  assert (Hp : rule_issues PreRelease name
                 (Node.Version (deref (store g) (EnhancedNode.node en))) = [])
    by (simpl; by destruct Hv as [-> | ->]).
  assert (Ho : rule_issues OldDate name
                 (Node.Version (deref (store g) (EnhancedNode.node en))) = [])
    by (simpl; by destruct Hv as [-> | ->]).
  assert (Hn : rule_issues NoVersion name
                 (Node.Version (deref (store g) (EnhancedNode.node en)))
               = [issue_NO_VERSION])
    by (simpl; by rewrite decide_True).
  rewrite Hk, Hp, Ho, Hn. simpl. by rewrite app_nil_r.
Qed.

Lemma no_version_node_issues_witness :
  ∃ en',
    EnhancedDependencyGraph.EnhancedNodes
      (@CheckSecurity canonical_range insecure_graph)
      !! "example.com/crypto/md5" = Some en'
    ∧ EnhancedNode.SecurityIssues en'
      = [issue_INSECURE_CRYPTO; issue_NO_VERSION].
Proof.
  destruct (@no_version_node_issues canonical_range insecure_graph
              "example.com/crypto/md5" (EnhancedNode.new 1 ""))
    as (en' & Hen' & Hiss).
  - apply (bool_decide_unpack _). vm_compute. reflexivity.
  - vm_compute. reflexivity.
  - vm_compute. discriminate.
  - left. vm_compute. reflexivity.
  - exists en'. split; [exact Hen'|]. rewrite Hiss. vm_compute. reflexivity.
Defined.

(** ** GetStatistics and the order of map iteration *)

(** The statistics do not depend on the order in which Go iterates over
    AllNodes. *)
Theorem statistics_order_independent (R1 R2 : MapRange)
    (g : EnhancedDependencyGraph.t) :
  len_map (AllNodes g) ≤ int_max →
  @GetStatistics R1 g = @GetStatistics R2 g
  ∧ @GetDependencyCount R1 (EnhancedDependencyGraph.graph g)
    = @GetDependencyCount R2 (EnhancedDependencyGraph.graph g).
Proof.
  intros Hsize.
  destruct (@GetDependencyCount_spec R1 (EnhancedDependencyGraph.graph g) Hsize)
    as [H1 _].
  destruct (@GetDependencyCount_spec R2 (EnhancedDependencyGraph.graph g) Hsize)
    as [H2 _].
  split; [|by rewrite H1, H2].
  unfold GetStatistics. by rewrite H1, H2.
Qed.

Lemma statistics_order_independent_witness :
  @GetStatistics canonical_range scenario_graph
  = @GetStatistics canonical_range scenario_graph
  ∧ @GetDependencyCount canonical_range
      (EnhancedDependencyGraph.graph scenario_graph)
    = @GetDependencyCount canonical_range
        (EnhancedDependencyGraph.graph scenario_graph).
Proof.
  apply (statistics_order_independent canonical_range canonical_range
           scenario_graph).
  vm_compute. discriminate.
Defined.

(** ** DetectVersionConflicts without repeated module paths *)

Lemma versions_in_single (l : list (string * GoSumEntry.t)) p :
  NoDup (GoSumEntry.ModulePath <$> l.*2) →
  (length (versions_in l p) ≤ 1)%nat.
Proof.
  induction l as [|[k e] l IH]; intros Hnd; [simpl; lia|].
  rewrite !fmap_cons in Hnd. apply NoDup_cons in Hnd as [Hk Hnd].
  rewrite versions_in_cons. case_decide as Hp; [|by apply IH].
  assert (Hnil : versions_in l p = []).
  { destruct (versions_in l p) as [|v vs] eqn:Hv; [done|].
    assert (Hin : v ∈ versions_in l p) by (rewrite Hv; left).
    apply elem_of_versions_in in Hin as (k' & e' & Hin & Hp' & _).
    exfalso. apply Hk. simpl. rewrite Hp, <- Hp'.
    apply list_elem_of_fmap. exists e'. split; [done|].
    apply list_elem_of_fmap. by exists (k', e'). }
  rewrite Hnil. simpl. lia.
Qed.

Lemma filter_all_nil (new : list VersionConflict.t) :
  (∀ p, filter (λ c, VersionConflict.ModulePath c = p) new = []) → new = [].
Proof.
  destruct new as [|c new]; [done|]. intros Hf.
  specialize (Hf (VersionConflict.ModulePath c)).
  by rewrite filter_cons_True in Hf.
Qed.

(** When no two lock entries share a module path, conflict detection
    changes nothing: no conflict is reported and no node is touched. *)
Theorem no_repeated_path_no_conflict `{MapRange}
    (g : EnhancedDependencyGraph.t) :
  single_versions (EnhancedDependencyGraph.GoSumEntries g) →
  DetectVersionConflicts g = g.
Proof.
  intros Hone.
  destruct (DetectVersionConflicts_spec g) as (new & ens' & -> & Hnew & Hens).
  assert (Hmc : ∀ p, module_conflicts (p, raw_versions g p) = []).
  { intros p. unfold module_conflicts. cbn [fst snd].
    rewrite decide_False; [done|].
    pose proof (versions_in_single
                  (range (EnhancedDependencyGraph.GoSumEntries g)) p) as Hle.
    unfold raw_versions, len.
    assert (length (versions_in (range (EnhancedDependencyGraph.GoSumEntries g)) p)
            ≤ 1)%nat; [|lia].
    apply Hle. unfold single_versions in Hone. by rewrite (range_perm _ _). }
  assert (Hn : new = []).
  { apply filter_all_nil. intros p. by rewrite Hnew, Hmc. }
  assert (He : ens' = EnhancedDependencyGraph.EnhancedNodes g).
  { apply map_eq. intros p. rewrite Hens, Hmc.
    destruct (_ !! p); [|done]. simpl. by rewrite add_Conflicts_nil. }
  rewrite Hn, He, app_nil_r. by destruct g.
Qed.

Lemma no_repeated_path_no_conflict_witness :
  @DetectVersionConflicts canonical_range scenario_graph = scenario_graph.
Proof.
  apply (@no_repeated_path_no_conflict canonical_range scenario_graph).
  apply (bool_decide_unpack _). vm_compute. reflexivity.
Defined.

(** ** BuildDependencyGraph: the store in closed form *)

Lemma add_require_foldl_store (rs : list Require.t) (root : Node.t)
    (H : list Node.t) (all : gmap string nat) :
  (foldl (add_require 0) (root :: H, all) rs).1
  = Node.mk (Node.Name root) (Node.Version root) (Node.Direct root)
            (Node.Children root ++ child_addrs (S (length H)) rs)
    :: H ++ (node_of <$> rs).
Proof.
  revert root H all. induction rs as [|r rs IH]; intros root H all.
  - simpl. rewrite !app_nil_r. by destruct root.
  - cbn [foldl]. unfold add_require at 2, alloc.
    destruct r as [path version indirect]. cbn [Require.Path Require.Version
      Require.Indirect]. destruct indirect; cbn [negb].
    + change ((root :: H) ++ [Node.mk path version false []])
        with (root :: (H ++ [Node.mk path version false []])).
      rewrite IH. rewrite length_app. simpl.
      rewrite <- app_assoc. simpl.
      by replace (length H + 1)%nat with (S (length H)) by lia.
    + change (alter (Node.add_child (length (root :: H))) 0%nat
                ((root :: H) ++ [Node.mk path version true []]))
        with (Node.add_child (S (length H)) root
                :: (H ++ [Node.mk path version true []])).
      rewrite IH. rewrite length_app. simpl.
      rewrite <- !app_assoc. simpl.
      by replace (length H + 1)%nat with (S (length H)) by lia.
Qed.

Lemma BuildDependencyGraph_store (modFile : File.t) :
  DependencyGraph.store (BuildDependencyGraph modFile)
  = Node.mk (File.Module modFile) "main" true
            (child_addrs 1 (File.Require modFile))
    :: (node_of <$> File.Require modFile)
  ∧ DependencyGraph.Root (BuildDependencyGraph modFile) = 0%nat.
Proof.
  unfold BuildDependencyGraph, alloc. simpl.
  pose proof (add_require_foldl_store (File.Require modFile)
                (Node.mk (File.Module modFile) "main" true []) []
                (<[File.Module modFile := 0%nat]> ∅)) as Hst.
  simpl in Hst. destruct (foldl _ _ _) as [h all]. simpl in *. by rewrite Hst.
Qed.

Lemma child_addrs_deref (pre : list Node.t) (rs : list Require.t)
    (post : list Node.t) :
  deref (pre ++ (node_of <$> rs) ++ post) <$> child_addrs (length pre) rs
  = node_of <$> filter is_direct rs.
Proof.
  revert pre. induction rs as [|r rs IH]; intros pre; [done|].
  cbn [child_addrs]. rewrite fmap_cons, fmap_app.
  replace (pre ++ (node_of r :: (node_of <$> rs)) ++ post)
    with ((pre ++ [node_of r]) ++ (node_of <$> rs) ++ post)
    by (by rewrite <- app_assoc).
  pose proof (IH (pre ++ [node_of r])) as IH'.
  rewrite length_app in IH'. simpl in IH'.
  replace (length pre + 1)%nat with (S (length pre)) in IH' by lia.
  rewrite IH'. destruct (Require.Indirect r) eqn:Hi.
  - by rewrite filter_cons_False by (unfold is_direct; congruence).
  - rewrite filter_cons_True by done. simpl. f_equal.
    unfold deref. rewrite <- app_assoc. simpl.
    by apply list_lookup_total_middle.
Qed.

(** For every manifest, duplicates included, the children of the root
    are the direct requirements in the order of the manifest, each with its
    path as name, its version, direct=true and no children; their names are
    the list [parser.GetDirectDependencies] returns, and the store holds the
    root followed by one node per requirement, direct or not. *)
Theorem direct_dependencies_in_manifest_order (modFile : File.t) :
  let g := BuildDependencyGraph modFile in
  deref (DependencyGraph.store g) <$> graph_GetDirectDependencies g
  = node_of <$> filter is_direct (File.Require modFile)
  ∧ Node.Name <$> (deref (DependencyGraph.store g)
                     <$> graph_GetDirectDependencies g)
    = GetDirectDependencies modFile
  ∧ length (DependencyGraph.store g)
    = S (length (parser_GetAllDependencies modFile))
  ∧ Node.Name <$> DependencyGraph.store g
    = File.Module modFile :: parser_GetAllDependencies modFile.
Proof.
  intros g. subst g.
  destruct (BuildDependencyGraph_store modFile) as [Hst Hr].
  unfold graph_GetDirectDependencies. rewrite Hr, Hst.
  change (Node.Children (deref (?n :: ?l) 0)) with (Node.Children n).
  cbn [Node.Children].
  assert (Hd : deref (Node.mk (File.Module modFile) "main" true
                        (child_addrs 1 (File.Require modFile))
                      :: (node_of <$> File.Require modFile))
                 <$> child_addrs 1 (File.Require modFile)
               = node_of <$> filter is_direct (File.Require modFile)).
  { pose proof (child_addrs_deref
                  [Node.mk (File.Module modFile) "main" true
                     (child_addrs 1 (File.Require modFile))]
                  (File.Require modFile) []) as Hc.
    simpl in Hc. by rewrite app_nil_r in Hc. }
  rewrite Hd. split; [done|]. split; [|split].
  - unfold GetDirectDependencies. rewrite <- list_fmap_compose.
    apply list_fmap_ext. by intros i r _.
  - unfold parser_GetAllDependencies. simpl. by rewrite !length_fmap.
  - unfold parser_GetAllDependencies. simpl. f_equal.
    rewrite <- list_fmap_compose. apply list_fmap_ext. by intros i r _.
Qed.

(** ** GetAllDependencies of the graph *)

Lemma all_deps_foldl (rootName : string) (l : list (string * nat))
    (acc : list nat) :
  foldl (λ deps kv, if decide (kv.1 ≠ rootName) then deps ++ [kv.2] else deps)
        acc l
  = acc ++ (filter (λ kv : string * nat, kv.1 ≠ rootName) l).*2.
Proof.
  revert acc. induction l as [|kv l IH]; intros acc.
  - simpl. by rewrite app_nil_r.
  - cbn [foldl]. rewrite IH. case_decide.
    + rewrite filter_cons_True by (simpl; auto).
      rewrite fmap_cons, <- app_assoc. done.
    + by rewrite filter_cons_False by (simpl; auto).
Qed.

Lemma map_to_list_filter_perm {V} (P : string * V → Prop)
    `{∀ x, Decision (P x)} (m : gmap string V) :
  filter P (map_to_list m) ≡ₚ map_to_list (filter P m).
Proof.
  apply NoDup_Permutation.
  - apply NoDup_filter, NoDup_map_to_list.
  - apply NoDup_map_to_list.
  - intros [k v]. rewrite list_elem_of_filter, !elem_of_map_to_list.
    rewrite map_lookup_filter_Some. tauto.
Qed.

(** [GetAllDependencies] returns, in some order, each node registered
    under another name than the root's once, and nothing else; for a
    manifest whose requirement paths are pairwise distinct and differ from
    the module path these are N+M nodes. *)
Theorem all_dependencies_exclude_root `{MapRange} :
  (∀ g : DependencyGraph.t,
     graph_GetAllDependencies g
     ≡ₚ (map_to_list
           (filter (λ kv : string * nat,
                      kv.1 ≠ Node.Name (deref (DependencyGraph.store g)
                                              (DependencyGraph.Root g)))
                   (DependencyGraph.AllNodes g))).*2)
  ∧ (∀ modFile : File.t,
       NoDup (Require.Path <$> File.Require modFile) →
       File.Module modFile ∉ Require.Path <$> File.Require modFile →
       length (graph_GetAllDependencies (BuildDependencyGraph modFile))
       = length (File.Require modFile)).
Proof.
  assert (Hall : ∀ g : DependencyGraph.t,
     graph_GetAllDependencies g
     ≡ₚ (map_to_list
           (filter (λ kv : string * nat,
                      kv.1 ≠ Node.Name (deref (DependencyGraph.store g)
                                              (DependencyGraph.Root g)))
                   (DependencyGraph.AllNodes g))).*2).
  { intros g. unfold graph_GetAllDependencies. rewrite all_deps_foldl. simpl.
    by rewrite (range_perm _ _), map_to_list_filter_perm. }
  split; [exact Hall|].
  intros modFile Hnd Hself. rewrite Hall, length_fmap, length_map_to_list.
  destruct (BuildDependencyGraph_store modFile) as [Hst Hr].
  rewrite Hr, Hst. unfold deref. cbn [lookup_total list_lookup_total Node.Name].
  destruct (BuildDependencyGraph_inv modFile) as [[_ _ Hdom Hmod _] _].
  simpl in Hdom, Hmod.
  set (all := DependencyGraph.AllNodes (BuildDependencyGraph modFile)) in *.
  assert (Hdel : filter (λ kv : string * nat, kv.1 ≠ File.Module modFile) all
                 = delete (File.Module modFile) all).
  { apply map_eq. intros k. apply option_eq. intros p.
    rewrite map_lookup_filter_Some, lookup_delete_Some. simpl. naive_solver. }
  rewrite Hdel, map_size_delete_Some by (rewrite Hmod; eauto).
  rewrite <- size_dom, Hdom, size_union, size_singleton, size_list_to_set
    by (done || set_solver).
  rewrite length_fmap. simpl. lia.
Qed.

Lemma all_dependencies_exclude_root_witness :
  length (@graph_GetAllDependencies reverse_range
            (BuildDependencyGraph scenario_manifest))
  = length (File.Require scenario_manifest).
Proof.
  destruct (@all_dependencies_exclude_root reverse_range) as [_ Hlen].
  apply (Hlen scenario_manifest).
  - apply (bool_decide_unpack _). vm_compute. reflexivity.
  - apply (bool_decide_unpack _). vm_compute. reflexivity.
Defined.

(** ** GetTransitiveDependencies: the entry visited first is kept *)

Lemma transitive_first_foldl dm (l : list (string * GoSumEntry.t)) e :
  e ∈ (foldl (transitive_step dm) ([], ∅) l).1
  ↔ ∃ l1 k l2, l = l1 ++ (k, e) :: l2
               ∧ get_bool dm (GoSumEntry.ModulePath e) = false
               ∧ GoSumEntry.ModulePath e ∉ (GoSumEntry.ModulePath <$> l1.*2).
Proof.
  revert e. induction l as [|[k' e'] l IH] using rev_ind; intros e.
  - simpl. split; [by intros ?%elem_of_nil|].
    intros (l1 & k & l2 & Hl & _). by destruct l1.
  - rewrite foldl_app. cbn [foldl].
    pose proof (transitive_inv_foldl dm l [] _ (transitive_inv_init dm))
      as [Hseen Hnd Hsound Hcompl].
    rewrite app_nil_l in Hsound, Hcompl.
    destruct (foldl (transitive_step dm) ([], ∅) l) as [T seen] eqn:Hf.
    cbn [fst snd] in *.
    assert (Hold : ∀ e0, e0 ∈ T →
              ∃ l1 k l2, l ++ [(k', e')] = l1 ++ (k, e0) :: l2
                ∧ get_bool dm (GoSumEntry.ModulePath e0) = false
                ∧ GoSumEntry.ModulePath e0
                    ∉ (GoSumEntry.ModulePath <$> l1.*2)).
    { intros e0 He0. apply IH in He0 as (l1 & k & l2 & -> & Hd & Hn).
      exists l1, k, (l2 ++ [(k', e')]). by rewrite <- app_assoc. }
    assert (Hsplit : ∀ l1 k l2, l ++ [(k', e')] = l1 ++ (k, e) :: l2 →
              (l2 = [] ∧ l = l1 ∧ e = e')
              ∨ ∃ l2', l = l1 ++ (k, e) :: l2').
    { intros l1 k l2 Hl. destruct l2 as [|x l2 _] using rev_ind.
      - left. apply app_inj_tail in Hl as [-> [= _ ->]]. done.
      - right. exists l2.
        change (l ++ [(k', e')] = l1 ++ ((k, e) :: l2) ++ [x]) in Hl.
        rewrite app_assoc in Hl. by apply app_inj_tail in Hl as [-> _]. }
    unfold transitive_step. cbn [snd].
    destruct (negb (get_bool dm (GoSumEntry.ModulePath e'))
              && negb (get_bool seen (GoSumEntry.ModulePath e'))) eqn:Hc.
    + apply andb_true_iff in Hc as [Hd%negb_true_iff Hs%negb_true_iff].
      cbn [fst]. rewrite elem_of_app, list_elem_of_singleton. split.
      * intros [He| ->]; [by apply Hold|].
        exists l, k', []. split; [done|]. split; [done|].
        intros Hin. apply list_elem_of_fmap in Hin as (e'' & Hp & Hin).
        assert (GoSumEntry.ModulePath e''
                  ∈ GoSumEntry.ModulePath <$> T) as Hin'
          by (apply Hcompl; [done|by rewrite <- Hp]).
        rewrite <- Hp in Hin'. apply Hseen in Hin'. congruence.
      * intros (l1 & k & l2 & Hl & Hd' & Hn).
        destruct (Hsplit l1 k l2 Hl) as [(_ & _ & ->)|[l2' ->]]; [by right|].
        left. apply IH. by exists l1, k, l2'.
    + cbn [fst]. split; [by apply Hold|].
      intros (l1 & k & l2 & Hl & Hd' & Hn).
      destruct (Hsplit l1 k l2 Hl) as [(_ & <- & ->)|[l2' ->]].
      * exfalso. apply andb_false_iff in Hc as [Hc|Hc];
          apply negb_false_iff in Hc; [congruence|].
        apply Hseen in Hc. apply list_elem_of_fmap in Hc as (e'' & Hp & Hin).
        apply Hn. rewrite Hp. apply list_elem_of_fmap. exists e''.
        split; [done|]. by apply Hsound.
      * apply IH. by exists l1, k, l2'.
Qed.

(** Of the lock entries of a module that is not a direct requirement,
    [GetTransitiveDependencies] keeps the one the map iteration visits
    first: an entry is returned exactly when its module path is not a direct
    requirement and no entry visited before it has the same module path.
    Which version is kept therefore depends on the order of the iteration:
    on the lock entries of one module in three versions, two admissible
    orders give different results. *)
Theorem transitive_keeps_first_visited :
  (∀ (R : MapRange) (goSumEntries : gmap string GoSumEntry.t)
     (directDeps : list string) (e : GoSumEntry.t),
     e ∈ @GetTransitiveDependencies R goSumEntries directDeps
     ↔ ∃ l1 k l2, @range R _ goSumEntries = l1 ++ (k, e) :: l2
                  ∧ (GoSumEntry.ModulePath e ∉ directDeps)
                  ∧ GoSumEntry.ModulePath e
                      ∉ (GoSumEntry.ModulePath <$> l1.*2))
  ∧ @GetTransitiveDependencies canonical_range three_versions_lock []
    ≠ @GetTransitiveDependencies reverse_range three_versions_lock [].
Proof.
  split.
  - intros R m directDeps e. unfold GetTransitiveDependencies.
    set (dm := foldl _ ∅ directDeps).
    assert (Hdm : ∀ p, get_bool dm p = false ↔ p ∉ directDeps).
    { intros p. pose proof (directDepMap_get directDeps ∅ p) as Hg.
      fold dm in Hg. unfold get_bool at 2 in Hg. rewrite lookup_empty in Hg.
      simpl in Hg. destruct (get_bool dm p); split; intros Hp; try done.
      - exfalso. apply Hp. by destruct (proj1 Hg eq_refl).
      - intros Hin. by discriminate (proj2 Hg (or_introl Hin)). }
    rewrite transitive_first_foldl. by setoid_rewrite Hdm.
  - intros Heq. vm_compute in Heq. discriminate Heq.
Qed.

(** ** buildDependencyReport *)

Lemma report_loop h rootName (l : list (string * EnhancedNode.t))
    (acc : list DependencyInfo.t) :
  foldl (report_step h rootName) acc l
  = acc ++ (dependency_info h
              <$> (filter (λ kv : string * EnhancedNode.t, kv.1 ≠ rootName) l).*2).
Proof.
  revert acc. induction l as [|kv l IH]; intros acc.
  - simpl. by rewrite app_nil_r.
  - cbn [foldl]. rewrite IH. unfold report_step. case_decide.
    + by rewrite filter_cons_False by (simpl; auto).
    + rewrite filter_cons_True by (simpl; auto).
      by rewrite !fmap_cons, <- app_assoc.
Qed.

Lemma buildDependencyReport_Dependencies `{MapRange} now g projectPath :
  DependencyReport.Dependencies (buildDependencyReport now g projectPath)
  ≡ₚ dependency_info (store g) <$> (map_to_list (non_root_nodes g)).*2.
Proof.
  unfold buildDependencyReport. cbn [DependencyReport.Dependencies].
  rewrite report_loop, app_nil_l. unfold non_root_nodes.
  by rewrite (range_perm _ _), map_to_list_filter_perm.
Qed.

Lemma GetStatistics_total `{MapRange} (g : EnhancedDependencyGraph.t) :
  GetStatistics g !! "total_dependencies"
  = Some (any_int (int_wrap (len_map (AllNodes g) - 1))).
Proof.
  unfold GetStatistics. destruct (GetDependencyCount _) as [d i].
  apply elem_of_list_to_map_1.
  - apply (bool_decide_unpack _). vm_compute. reflexivity.
  - apply list_elem_of_In. simpl. auto.
Qed.

(** The report lists one dependency per enhanced node registered under
    another name than the root's, with the name, version and direct flag of
    the node it wraps and its own hash, license, conflicts, issues and
    health fields, and nothing for the root; conflicts, issues and license
    histogram are those of the graph.  When the enhanced nodes have the
    keys of AllNodes, the root's name among them, the statistic
    total_dependencies is the number of dependencies listed. *)
Theorem report_lists_non_root_nodes `{MapRange} (now : Z)
    (g : EnhancedDependencyGraph.t) (projectPath : string) :
  dom (EnhancedDependencyGraph.EnhancedNodes g) = dom (AllNodes g) →
  Node.Name (deref (store g) (Root g)) ∈ dom (AllNodes g) →
  len_map (AllNodes g) ≤ int_max →
  let r := buildDependencyReport now g projectPath in
  DependencyReport.Dependencies r
    ≡ₚ dependency_info (store g) <$> (map_to_list (non_root_nodes g)).*2
  ∧ DependencyReport.Statistics r !! "total_dependencies"
    = Some (any_int (len (DependencyReport.Dependencies r)))
  ∧ DependencyReport.Conflicts r = EnhancedDependencyGraph.Conflicts g
  ∧ DependencyReport.SecurityIssues r = EnhancedDependencyGraph.SecurityIssues g
  ∧ DependencyReport.LicensesSummary r
    = EnhancedDependencyGraph.LicensesSummary g.
Proof.
  intros Hdom Hroot Hsize r.
  pose proof (buildDependencyReport_Dependencies now g projectPath) as Hdeps.
  fold r in Hdeps. split; [exact Hdeps|]. split; [|done].
  assert (Hlen : len (DependencyReport.Dependencies r)
                 = len_map (AllNodes g) - 1).
  { unfold len, len_map. rewrite Hdeps, !length_fmap, length_map_to_list.
    rewrite <- Hdom in Hroot. pose proof (non_root_size g Hroot) as Hnr.
    rewrite <- (size_dom (AllNodes g)), <- Hdom, size_dom. lia. }
  rewrite Hlen. subst r. unfold buildDependencyReport.
  cbn [DependencyReport.Statistics].
  rewrite GetStatistics_total. rewrite int_wrap_id; [done|].
  unfold len_map, int_max in *. lia.
Qed.

Lemma report_lists_non_root_nodes_witness :
  (DependencyReport.Statistics
     (@buildDependencyReport reverse_range 0 scenario_graph "/src/app"))
    !! "total_dependencies"
  = Some (any_int (len (DependencyReport.Dependencies
            (@buildDependencyReport reverse_range 0 scenario_graph "/src/app")))).
Proof.
  apply (@report_lists_non_root_nodes reverse_range 0 scenario_graph "/src/app").
  - apply (bool_decide_unpack _). vm_compute. reflexivity.
  - apply (bool_decide_unpack _). vm_compute. reflexivity.
  - vm_compute. discriminate.
Defined.

(** ** The report of a whole analysis *)

(** In the report of a whole analysis (enrichment, then conflict
    detection, license classification and the security pass, as the generate
    and analyze commands run them) the statistic total_dependencies is the
    number of dependencies listed, every dependency listed has a license,
    and the counts of licenses_summary add up to one more than the number
    of dependencies listed: the histogram counts the root, which the list
    leaves out. *)
Theorem report_license_total_counts_root `{MapRange}
    (TrimSpace : string → string) (Fields : string → list string)
    (modFile : File.t) (goSum : FileState) (g : EnhancedDependencyGraph.t)
    (now : Z) (projectPath : string) :
  run_analysis TrimSpace Fields modFile goSum = Ok g →
  len_map (EnhancedDependencyGraph.EnhancedNodes g) ≤ int_max →
  let r := buildDependencyReport now g projectPath in
  DependencyReport.Statistics r !! "total_dependencies"
    = Some (any_int (len (DependencyReport.Dependencies r)))
  ∧ summary_total (DependencyReport.LicensesSummary r)
    = len (DependencyReport.Dependencies r) + 1
  ∧ Forall (λ d, DependencyInfo.License d ≠ "")
           (DependencyReport.Dependencies r).
Proof.
  unfold run_analysis, BuildEnhancedDependencyGraph.
  destruct (ParseGoSum TrimSpace Fields goSum) as [m|err]; [|done].
  intros [= <-]. set (g0 := enrich modFile m).
  destruct (DetectVersionConflicts_spec g0) as (new & ens1 & Hg1 & _ & Hens1).
  set (g1 := DetectVersionConflicts g0) in *.
  destruct (AnalyzeLicenses_spec g1) as (ens2 & Hg2 & Hens2).
  pose proof (AnalyzeLicenses_total g1) as Htot.
  set (g2 := AnalyzeLicenses g1) in *.
  destruct (CheckSecurity_spec g2) as (ens3 & Hg3 & Hens3).
  set (g3 := CheckSecurity g2) in *.
  assert (Hd1 : dom ens1 = dom (EnhancedDependencyGraph.EnhancedNodes g0))
    by (eapply (fmap_lookup_dom
                  (λ p, add_Conflicts (module_conflicts (p, raw_versions g0 p))));
        exact Hens1).
  assert (Hd2 : dom ens2 = dom (EnhancedDependencyGraph.EnhancedNodes g1))
    by (eapply (fmap_lookup_dom (λ k, EnhancedNode.set_License (license_of k)));
        exact Hens2).
  assert (Hd3 : dom ens3 = dom (EnhancedDependencyGraph.EnhancedNodes g2))
    by (eapply (fmap_lookup_dom
                  (λ q en, add_SecurityIssues
                             (issues_for (store g2)
                                (Node.Name (deref (store g2) (Root g2))) (q, en))
                             en));
        exact Hens3).
  assert (Hgr : EnhancedDependencyGraph.graph g3 = EnhancedDependencyGraph.graph g0)
    by (by rewrite Hg3, Hg2, Hg1).
  assert (Hens : dom (EnhancedDependencyGraph.EnhancedNodes g3)
                 = dom (EnhancedDependencyGraph.EnhancedNodes g0)).
  { rewrite Hg3. cbn [EnhancedDependencyGraph.EnhancedNodes]. rewrite Hd3.
    rewrite Hg2. cbn [EnhancedDependencyGraph.EnhancedNodes]. rewrite Hd2.
    rewrite Hg1. cbn [EnhancedDependencyGraph.EnhancedNodes]. exact Hd1. }
  assert (Hsz : size (EnhancedDependencyGraph.EnhancedNodes g3)
                = size (EnhancedDependencyGraph.EnhancedNodes g1)).
  { rewrite <- !size_dom, Hens. rewrite Hg1.
    cbn [EnhancedDependencyGraph.EnhancedNodes]. by rewrite Hd1. }
  assert (Hall : dom (EnhancedDependencyGraph.EnhancedNodes g3) = dom (AllNodes g3)).
  { rewrite Hens. unfold AllNodes. rewrite Hgr.
    apply (enrich_dom_EnhancedNodes modFile m). }
  assert (Hroot : Node.Name (deref (store g3) (Root g3)) = File.Module modFile).
  { unfold store, Root. rewrite Hgr. apply (enrich_rootName modFile m). }
  assert (Hin : Node.Name (deref (store g3) (Root g3)) ∈ dom (AllNodes g3)).
  { rewrite Hroot, <- Hall, Hens. apply enrich_root_enhanced. }
  intros Hsize. set (r := buildDependencyReport now g3 projectPath).
  pose proof (buildDependencyReport_Dependencies now g3 projectPath) as Hdeps.
  fold r in Hdeps.
  assert (Hlen : len (DependencyReport.Dependencies r)
                 = len_map (EnhancedDependencyGraph.EnhancedNodes g3) - 1).
  { unfold len, len_map. rewrite Hdeps, !length_fmap, length_map_to_list.
    rewrite <- Hall in Hin. pose proof (non_root_size g3 Hin). lia. }
  split; [|split].
  - rewrite Hlen. subst r. unfold buildDependencyReport.
    cbn [DependencyReport.Statistics]. rewrite GetStatistics_total.
    unfold len_map in *. rewrite <- (size_dom (AllNodes g3)), <- Hall, size_dom.
    rewrite int_wrap_id; [done|]. unfold int_max in *. lia.
  - rewrite Hlen. subst r. unfold buildDependencyReport.
    cbn [DependencyReport.LicensesSummary].
    replace (EnhancedDependencyGraph.LicensesSummary g3)
      with (EnhancedDependencyGraph.LicensesSummary g2) by (by rewrite Hg3).
    rewrite Htot.
    + unfold len_map. rewrite Hsz. lia.
    + rewrite Hg1. cbn [EnhancedDependencyGraph.LicensesSummary].
      destruct (enrich_fields modFile m) as (_ & _ & _ & _ & Hempty).
      exact Hempty.
    + unfold len_map in *. by rewrite <- Hsz.
  - rewrite Hdeps. apply Forall_fmap, Forall_fmap, Forall_forall.
    intros [k en] Hk. apply elem_of_map_to_list in Hk.
    unfold non_root_nodes in Hk. apply map_lookup_filter_Some in Hk as [Hk _].
    rewrite Hg3 in Hk. cbn [EnhancedDependencyGraph.EnhancedNodes] in Hk.
    rewrite Hens3 in Hk.
    destruct (EnhancedDependencyGraph.EnhancedNodes g2 !! k) as [en2|] eqn:Hk2;
      [|done].
    simpl in Hk. injection Hk as <-. cbn.
    destruct (AnalyzeLicenses_nonempty g1 k en2 Hk2) as [_ Hne].
    exact Hne.
Qed.

Lemma report_license_total_counts_root_witness :
  let r := @buildDependencyReport canonical_range 0
             (@CheckSecurity canonical_range
                (@AnalyzeLicenses canonical_range
                   (@DetectVersionConflicts canonical_range
                      (@enrich canonical_range scenario_manifest ∅))))
             "/src/app" in
  summary_total (DependencyReport.LicensesSummary r)
  = len (DependencyReport.Dependencies r) + 1.
Proof.
  refine (proj1 (proj2
    (@report_license_total_counts_root canonical_range id space_fields
       scenario_manifest Absent _ 0 "/src/app" _ _))).
  - vm_compute. reflexivity.
  - vm_compute. discriminate.
Defined.
